(** * astrodendro: the dendrogram construction of [Dendrogram._compute]

    A shallow embedding of [astrodendro/dendrogram.py] (the constructor
    [Dendrogram._compute]) and the properties of its single descending-flux
    scan: neighbour reads on the padded index map, the ancestor table, the
    significance test of the merge case, the post-pass prune and the
    assembly of the result.

    Conventions.
    - Flux values are IEEE binary64 numbers, as numpy's [float64]: Rocq's
      primitive floats, with their comparisons and subtraction.
    - Python exceptions are the constructors of [exn]; code that may raise
      lives in the [result] monad.
    - numpy arrays of integers are finite maps from coordinates to cells,
      absent cells reading 0 (the arrays are made by [np.zeros]), together
      with their shape; indexing follows numpy (negative indices count
      from the end, anything else out of range raises [IndexError]).
    - Where Python or numpy leave an order open (the order of equal keys
      in [np.argsort], the iteration order of a [set] and of a [dict]) the
      development is parametric: class [PyRuntime] lists those operations
      with the contract the libraries document. *)

From Stdlib Require Import ZArith List Floats Sorting.Sorted.
From stdpp Require Import gmap list sorting.

#[local] Open Scope Z_scope.

(** ** Exceptions and the error monad *)

Inductive exn : Set :=
| KeyError          (* dict lookup / pop of an absent key *)
| IndexError        (* array or list index out of range *)
| ValueError        (* list.remove of an absent element *)
| InvalidDimensions (* raise Exception("Invalid # of dimensions") *).

Inductive result (A : Type) : Type :=
| Ok (a : A)
| Raise (e : exn).
Arguments Ok {A} a.
Arguments Raise {A} e.

#[global] Instance result_ret : MRet result := λ A a, Ok a.
#[global] Instance result_bind : MBind result := λ A B f m,
  match m with
  | Ok a => f a
  | Raise e => Raise e
  end.
#[global] Instance result_fmap : FMap result := λ A B f m,
  match m with
  | Ok a => Ok (f a)
  | Raise e => Raise e
  end.

Definition is_Ok {A} (m : result A) : Prop := ∃ a, m = Ok a.

(** [d[k]] on a dict: [KeyError] when the key is absent. *)
Definition dict_get {V} (d : gmap Z V) (k : Z) : result V :=
  match d !! k with
  | Some v => Ok v
  | None => Raise KeyError
  end.

(** [d.pop(k)]: the value and the dict without the key. *)
Definition dict_pop {V} (d : gmap Z V) (k : Z) : result (V * gmap Z V) :=
  match d !! k with
  | Some v => Ok (v, delete k d)
  | None => Raise KeyError
  end.

(** [l.remove(x)]: drops the first occurrence, [ValueError] when absent. *)
Fixpoint list_remove (x : Z) (l : list Z) : result (list Z) :=
  match l with
  | [] => Raise ValueError
  | y :: l' => if decide (x = y) then Ok l' else cons y <$> list_remove x l'
  end.

(** [for x in xs: acc = body(acc, x)] with exceptions. *)
Fixpoint for_each {A St} (body : St → A → result St) (xs : list A) (s : St)
  : result St :=
  match xs with
  | [] => Ok s
  | x :: xs' => s' ← body s x; for_each body xs' s'
  end.

(** [[f(x) for x in xs]] with exceptions, left to right. *)
Fixpoint list_comp {A B} (f : A → result B) (xs : list A) : result (list B) :=
  match xs with
  | [] => Ok []
  | x :: xs' => y ← f x; ys ← list_comp f xs'; Ok (y :: ys)
  end.

(** ** numpy integer arrays of rank 3 *)

Definition coord : Type := Z * Z * Z.

Record array3 : Type := mk_array3 {
  dims : coord;                 (* the shape *)
  cells : gmap coord Z          (* cells that were written; others hold 0 *)
}.

(** [np.zeros(shape, dtype)] *)
Definition zeros (shape : coord) : array3 :=
  {| dims := shape; cells := ∅ |}.

(** One index along an axis of length [n]: [0 <= i < n] is itself,
    [-n <= i < 0] counts from the end, the rest is out of bounds. *)
Definition norm_index (n i : Z) : result Z :=
  if (0 <=? i) && (i <? n) then Ok i
  else if (- n <=? i) && (i <? 0) then Ok (i + n)
  else Raise IndexError.

Definition norm_coord (a : array3) (c : coord) : result coord :=
  let '(nz, ny, nx) := dims a in
  let '(z, y, x) := c in
  z' ← norm_index nz z;
  y' ← norm_index ny y;
  x' ← norm_index nx x;
  Ok (z', y', x').

(** [a[z, y, x]] *)
Definition array_get (a : array3) (c : coord) : result Z :=
  c' ← norm_coord a c;
  Ok (default 0 (cells a !! c')).

(** [a[z, y, x] = v] (the value already cast to the array's dtype) *)
Definition array_set (a : array3) (c : coord) (v : Z) : result array3 :=
  c' ← norm_coord a c;
  Ok {| dims := dims a; cells := <[c' := v]> (cells a) |}.

(** Casts of a Python integer to the two dtypes in use: they wrap. *)
Definition astype_int32 (v : Z) : Z := (v + 2 ^ 31) mod 2 ^ 32 - 2 ^ 31.
Definition astype_uint8 (v : Z) : Z := v mod 2 ^ 8.

(** [np.unravel_index(k, (nz, ny, nx))] for a linear index in range
    (row-major order: the last axis varies fastest). *)
Definition unravel_index (shape : coord) (k : nat) : coord :=
  let '(_, ny, nx) := shape in
  let k := Z.of_nat k in
  (k / (ny * nx), (k / nx) mod ny, k mod nx).

(** The input: an array of floats of any rank, as its shape and its
    cells in row-major order ([data.ravel()]). *)
Record ndarray : Type := mk_ndarray {
  shape : list nat;
  ravel : list float
}.

Definition size_of (shp : list nat) : nat := foldr Nat.mul 1%nat shp.

(** Every numpy array has as many cells as its shape says. *)
Definition well_formed (data : ndarray) : Prop :=
  length (ravel data) = size_of (shape data).

(** [l[i]] on a Python list: [IndexError] out of range. *)
Definition list_get {A} (l : list A) (i : nat) : result A :=
  match l !! i with
  | Some a => Ok a
  | None => Raise IndexError
  end.

(** ** Structures: leaves and branches *)

(** Modelled from the spec: the Structure component (module
    [astrodendro.components], with the classes [Leaf], [Branch] and
    [Trunk]) is not among the sources. The spec (sections 3 and 4.2) gives
    a structure an id, the list of voxels it owns, their count [npix], the
    running minimum and maximum [fmin], [fmax] of their values and a seed
    (its first voxel); a Branch has an ordered list of children besides.
    The children are references to objects that also sit in the table
    [items]; each object is made under a key of its own, so a reference is
    recorded as that key. *)
Inductive kind : Set := Leaf | Branch.

#[global] Instance kind_eq_dec : EqDecision kind.
Proof. solve_decision. Defined.

Record item : Type := mk_item {
  typ : kind;
  idx_of : Z;
  seed : coord;
  seed_flux : float;
  voxels : list coord;
  npix : Z;
  fmin : float;
  fmax : float;
  children : list Z
}.

(** Python's [min(a, b)] and [max(a, b)]: the first argument unless the
    second is strictly smaller (larger). *)
Definition py_min (a b : float) : float := if (b <? a)%float then b else a.
Definition py_max (a b : float) : float := if (a <? b)%float then b else a.

(** Modelled from the spec: [Leaf(x, y, z, flux, idx)], a structure
    seeded with one voxel. *)
Definition new_Leaf (x y z : Z) (flux : float) (idx : Z) : item :=
  {| typ := Leaf; idx_of := idx; seed := (z, y, x); seed_flux := flux;
     voxels := [(z, y, x)]; npix := 1; fmin := flux; fmax := flux;
     children := [] |}.

(** Modelled from the spec: [Branch(children, x, y, z, flux, idx)]; the
    seed is the merge voxel. *)
Definition new_Branch (chn : list Z) (x y z : Z) (flux : float) (idx : Z)
  : item :=
  {| typ := Branch; idx_of := idx; seed := (z, y, x); seed_flux := flux;
     voxels := [(z, y, x)]; npix := 1; fmin := flux; fmax := flux;
     children := chn |}.

(** Modelled from the spec: [add_voxel] (in the source, [add_point]):
    append to the owned voxel list; update [npix], [fmin], [fmax]. *)
Definition add_point (self : item) (x y z : Z) (flux : float) : item :=
  {| typ := typ self; idx_of := idx_of self; seed := seed self;
     seed_flux := seed_flux self;
     voxels := voxels self ++ [(z, y, x)];
     npix := npix self + 1;
     fmin := py_min flux (fmin self);
     fmax := py_max flux (fmax self);
     children := children self |}.

(** Modelled from the spec: [merge(other)] absorbs the voxels of [other]
    (and its children, when it is a branch) into [self] and updates
    [npix], [fmin], [fmax]; it does not touch the index map. *)
Definition merge_item (other self : item) : item :=
  {| typ := typ self; idx_of := idx_of self; seed := seed self;
     seed_flux := seed_flux self;
     voxels := voxels self ++ voxels other;
     npix := npix self + npix other;
     fmin := py_min (fmin other) (fmin self);
     fmax := py_max (fmax other) (fmax self);
     children := children self
                 ++ (if decide (typ other = Branch) then children other
                     else []) |}.

(** Modelled from the spec: [stamp_footprint] (in the source,
    [add_footprint(image, level)]) overwrites the region of [image] that
    the structure owns with [level]. The method receives only the image
    and the level, and is called both on the index map and on the type
    map, so the region is the structure's own voxel list; the recursive
    variant over the descendants of a branch is not used by [_compute]
    (it passes [recursive=False] for branches). *)
Definition add_footprint (self : item) (image : array3) (level : Z)
  : result array3 :=
  for_each (λ im c, array_set im c level) (voxels self) image.

(** ** What Python and numpy leave open *)

Definition no_nan (l : list float) : Prop :=
  Forall (λ v, is_nan v = false) l.

Definition flux_at (l : list float) (i : nat) : float := nth i l nan.

Class PyRuntime : Type := {
  (** [np.argsort(a)]: a permutation of the positions that sorts [a] in
      ascending order; the default sort is not stable, so the order of
      positions holding equal values is not fixed. *)
  argsort : list float → list nat;
  argsort_perm : ∀ l, argsort l ≡ₚ seq 0 (length l);
  argsort_sorted : ∀ l, no_nan l →
    StronglySorted (λ i j, (flux_at l i <=? flux_at l j)%float = true)
                   (argsort l);
  (** [list(set(l))]: the distinct elements of [l], in the iteration
      order of the set. *)
  set_to_list : list Z → list Z;
  set_to_list_NoDup : ∀ l, NoDup (set_to_list l);
  set_to_list_elem : ∀ l x, x ∈ set_to_list l ↔ x ∈ l;
  (** [for k in d]: the keys of a dict, in its iteration order. *)
  dict_keys : gset Z → list Z;
  dict_keys_NoDup : ∀ s, NoDup (dict_keys s);
  dict_keys_elem : ∀ s k, k ∈ dict_keys s ↔ k ∈ s
}.

(** ** The state of the scan *)

Record state : Type := mk_state {
  index_map : array3;            (* self.index_map, dtype int32 *)
  items : gmap Z item;           (* items = {} *)
  ancestor : gmap Z (option Z);  (* ancestor = {}; [Some None] is a key
                                    bound to Python's None *)
  issued : list Z                (* history variable: the results of
                                    next_idx() that became the id of a
                                    structure, oldest first; the program
                                    keeps no such list *)
}.

(** [if ancestor[a] is not None: a = ancestor[a]] *)
Definition replace_by_ancestor (anc : gmap Z (option Z)) (a : Z) : result Z :=
  p ← dict_get anc a;
  Ok (match p with
      | Some p' => p'
      | None => a
      end).

(** The six neighbours, in the order of the source. *)
Definition indices_adjacent (c : coord) : list coord :=
  let '(z, y, x) := c in
  [(z, y, x - 1); (z, y, x + 1); (z, y - 1, x); (z, y + 1, x);
   (z - 1, y, x); (z + 1, y, x)].

Section Scan.
Context `{PyRuntime}.
Variable flux_values : list float.
Variable coords : list coord.
Variable minimum_npix : Z.
Variable minimum_delta : float.

(** The test of lines 157-159 on one touching structure. *)
Definition insignificant (it : item) (flux : float) : bool :=
  bool_decide (typ it = Leaf)
  && ((npix it <? minimum_npix)
      || (fmax it - flux <? minimum_delta)%float).

(** [merge = []; for idx in adjacent: ...: merge.append(idx)] *)
Fixpoint find_merge (its : gmap Z item) (adjacent : list Z) (flux : float)
  : result (list Z) :=
  match adjacent with
  | [] => Ok []
  | idx :: rest =>
      it ← dict_get its idx;
      merge ← find_merge its rest flux;
      Ok (if insignificant it flux then idx :: merge else merge)
  end.

(** [for idx in merge: adjacent.remove(idx)] *)
Definition remove_merges (merge adjacent : list Z) : result (list Z) :=
  for_each (λ adj idx, list_remove idx adj) merge adjacent.

(** The three loops [for i in merge: removed = items.pop(i);
    target.merge(removed); removed.add_footprint(self.index_map, idx)],
    where [target] is the object bound to key [idx] of [items]. *)
Definition merge_onto (idx : Z) (its_im : gmap Z item * array3) (i : Z)
  : result (gmap Z item * array3) :=
  let '(its, im) := its_im in
  '(removed, its) ← dict_pop its i;
  let its := alter (merge_item removed) idx its in
  im ← add_footprint removed im (astype_int32 idx);
  Ok (its, im).

(** [ancestor[j] = idx; for a in ancestor: if ancestor[a] == j:
    ancestor[a] = idx] *)
Definition reparent (idx : Z) (anc : gmap Z (option Z)) (j : Z)
  : gmap Z (option Z) :=
  (λ v, if decide (v = Some j) then Some idx else v)
    <$> (<[j := Some idx]> anc).

(** The merge case (lines 147-258) for the voxel [(z, y, x)] of value
    [flux], the [i]-th of the filtered list, touching [adjacent]. *)
Definition merge_case (st : state) (i : nat) (z y x : Z) (flux : float)
    (adjacent : list Z) : result state :=
  merge ← find_merge (items st) adjacent flux;
  adjacent ← remove_merges merge adjacent;
  match adjacent with
  | [] =>
      idx ← list_get merge 0;
      leaf ← dict_get (items st) idx;
      let its := <[idx := add_point leaf x y z flux]> (items st) in
      im ← array_set (index_map st) (z, y, x) (astype_int32 idx);
      '(its, im) ← for_each (merge_onto idx) (tail merge) (its, im);
      Ok {| index_map := im; items := its; ancestor := ancestor st;
            issued := issued st |}
  | [idx] =>
      it ← dict_get (items st) idx;
      let its := <[idx := add_point it x y z flux]> (items st) in
      im ← array_set (index_map st) (z, y, x) (astype_int32 idx);
      '(its, im) ← for_each (merge_onto idx) merge (its, im);
      Ok {| index_map := im; items := its; ancestor := ancestor st;
            issued := issued st |}
  | _ =>
      let idx := Z.of_nat i + 1 in
      _ ← list_comp (dict_get (items st)) adjacent;
      let branch := new_Branch adjacent x y z flux idx in
      let its := <[idx := branch]> (items st) in
      im ← array_set (index_map st) (z, y, x) (astype_int32 idx);
      let anc := <[idx := None]> (ancestor st) in
      '(its, im) ← for_each (merge_onto idx) merge (its, im);
      let anc := foldl (reparent idx) anc adjacent in
      Ok {| index_map := im; items := its; ancestor := anc;
            issued := issued st ++ [idx] |}
  end.

(** The touching structures of a voxel (lines 102-111). *)
Definition find_adjacent (st : state) (c : coord) : result (list Z) :=
  vals ← list_comp (array_get (index_map st)) (indices_adjacent c);
  let adjacent := filter (λ v, v ≠ 0) vals in
  adjacent ← list_comp (replace_by_ancestor (ancestor st)) adjacent;
  Ok (set_to_list adjacent).

(** One iteration of the main loop (lines 83-258), for [i] the position
    of the voxel in the filtered list; [next_idx()] is [i + 1]. *)
Definition step (st : state) (i : nat) : result state :=
  flux ← list_get flux_values i;
  '(z, y, x) ← list_get coords i;
  adjacent ← find_adjacent st (z, y, x);
  match adjacent with
  | [] =>
      let idx := Z.of_nat i + 1 in
      let leaf := new_Leaf x y z flux idx in
      let its := <[idx := leaf]> (items st) in
      im ← array_set (index_map st) (z, y, x) (astype_int32 idx);
      Ok {| index_map := im; items := its;
            ancestor := <[idx := None]> (ancestor st);
            issued := issued st ++ [idx] |}
  | [idx] =>
      it ← dict_get (items st) idx;
      let its := <[idx := add_point it x y z flux]> (items st) in
      im ← array_set (index_map st) (z, y, x) (astype_int32 idx);
      Ok {| index_map := im; items := its; ancestor := ancestor st;
            issued := issued st |}
  | _ => merge_case st i z y x flux adjacent
  end.

(** The main loop over a list of positions. *)
Definition scan_from (st : state) (order : list nat) : result state :=
  for_each step order st.

(** Step 2 (lines 263-271): [remove] then the pops. *)
Definition prunable (it : item) : bool :=
  bool_decide (typ it = Leaf)
  && ((npix it <? minimum_npix)
      || (fmax it - fmin it <? minimum_delta)%float).

Definition find_remove (its : gmap Z item) : result (list Z) :=
  remove ← list_comp (λ idx, it ← dict_get its idx; Ok (idx, prunable it))
                     (dict_keys (dom its));
  Ok ((filter (λ p, p.2 = true) remove).*1).

Definition prune (its : gmap Z item) : result (gmap Z item) :=
  remove ← find_remove its;
  for_each (λ its idx, snd <$> dict_pop its idx) remove its.
End Scan.

(** ** The constructor *)

(** What [_compute] leaves in [self]. For a 2D input the three arrays
    are replaced by their plane 0 ([a[0, :, :]], a view on the same
    cells): [n_dim] says which indexing applies, see [view_get]. *)
Record Dendrogram : Type := mk_Dendrogram {
  n_dim : Z;
  data_of : ndarray;
  index_map_of : array3;
  item_type_map : array3;
  trunk : list item
}.

(** Reading a map of the finished dendrogram with as many indices as
    the input had dimensions. *)
Definition view_get (n : Z) (a : array3) (c : list Z) : result Z :=
  match n, c with
  | 3, [z; y; x] => array_get a (z, y, x)
  | 2, [y; x] => array_get a (0, y, x)
  | _, _ => Raise IndexError
  end.

(** Lines 51-59: 2D is recast to 3D, any other rank is refused. *)
Definition recast (data : ndarray) : result (Z * coord) :=
  match shape data with
  | [ny; nx] => Ok (2, (1, Z.of_nat ny, Z.of_nat nx))
  | [nz; ny; nx] => Ok (3, (Z.of_nat nz, Z.of_nat ny, Z.of_nat nx))
  | _ => Raise InvalidDimensions
  end.

(** Lines 61-64: the cells above [minimum_flux], with their linear
    index, in row-major order. [keep = data.ravel() > minimum_flux]. *)
Definition keep (minimum_flux : float) (p : nat * float) : bool :=
  (minimum_flux <? p.2)%float.

Definition kept (data : ndarray) (minimum_flux : float) : list (nat * float) :=
  filter (λ p, keep minimum_flux p = true) (imap pair (ravel data)).

Definition flux_values_of (data : ndarray) (minimum_flux : float)
  : list float := (kept data minimum_flux).*2.

Definition coords_of (shape3 : coord) (data : ndarray) (minimum_flux : float)
  : list coord := unravel_index shape3 <$> (kept data minimum_flux).*1.

Definition padded (shape3 : coord) : coord :=
  let '(nz, ny, nx) := shape3 in (nz + 1, ny + 1, nx + 1).

Definition initial_state (shape3 : coord) : state :=
  {| index_map := zeros (padded shape3); items := ∅; ancestor := ∅;
     issued := [] |}.

Section Compute.
Context `{PyRuntime}.

(** [np.argsort(flux_values)[::-1]] *)
Definition scan_order (flux_values : list float) : list nat :=
  reverse (argsort flux_values).

(** Step 1 on the whole input. *)
Definition scan (shape3 : coord) (data : ndarray)
    (minimum_flux : float) (minimum_npix : Z) (minimum_delta : float)
  : result state :=
  let flux_values := flux_values_of data minimum_flux in
  let coords := coords_of shape3 data minimum_flux in
  scan_from flux_values coords minimum_npix minimum_delta
            (initial_state shape3) (scan_order flux_values).

(** Lines 273-277: the trunk. *)
Definition make_trunk (its : gmap Z item) (anc : gmap Z (option Z))
  : result (list item) :=
  for_each (λ trunk idx,
              a ← dict_get anc idx;
              match a with
              | None => it ← dict_get its idx; Ok (trunk ++ [it])
              | Some _ => Ok trunk
              end)
           (dict_keys (dom its)) [].

(** Lines 279-286: the map of leaves (2) and branches (1), dtype uint8. *)
Definition make_item_type_map (shape3 : coord) (its : gmap Z item)
  : result array3 :=
  for_each (λ im idx,
              it ← dict_get its idx;
              if decide (typ it = Leaf)
              then add_footprint it im (astype_uint8 2)
              else add_footprint it im (astype_uint8 1))
           (dict_keys (dom its)) (zeros shape3).

Definition _compute (data : ndarray) (minimum_flux : float)
    (minimum_npix : Z) (minimum_delta : float) : result Dendrogram :=
  '(n, shape3) ← recast data;
  st ← scan shape3 data minimum_flux minimum_npix minimum_delta;
  its ← prune minimum_npix minimum_delta (items st);
  trunk ← make_trunk its (ancestor st);
  itm ← make_item_type_map shape3 its;
  Ok {| n_dim := n; data_of := data; index_map_of := index_map st;
        item_type_map := itm; trunk := trunk |}.
End Compute.

(** ** A concrete runtime

    What numpy and CPython do on small inputs. [np.argsort] on fewer
    than 17 elements is an insertion sort, which is stable. A CPython
    [set] or [dict] of at most five small non-negative integers lives in
    a table of eight slots, the integer [k] in slot [k mod 8] when the
    slots are distinct, and is iterated in slot order. On other inputs
    the functions below are one admissible choice among those the
    contract of [PyRuntime] allows. *)

Fixpoint insert_position (l : list float) (i : nat) (sorted : list nat)
  : list nat :=
  match sorted with
  | [] => [i]
  | j :: rest =>
      if (flux_at l j <? flux_at l i)%float
      then j :: insert_position l i rest
      else i :: sorted
  end.

Definition insertion_argsort (l : list float) : list nat :=
  foldr (insert_position l) [] (seq 0 (length l)).

Definition slot_le (a b : Z) : Prop := a mod 8 ≤ b mod 8.

#[global] Instance slot_le_dec : RelDecision slot_le.
Proof. intros a b. unfold slot_le. apply _. Defined.

Definition slot_order (l : list Z) : list Z :=
  merge_sort slot_le (remove_dups l).

(** ** Vocabulary of the statements *)

(** A voxel of the data cube of shape [shape3]. *)
Definition in_cube (shape3 c : coord) : Prop :=
  0 ≤ c.1.1 < shape3.1.1 ∧ 0 ≤ c.1.2 < shape3.1.2 ∧ 0 ≤ c.2 < shape3.2.

(** A cell of the padding of the index map: inside the padded array,
    with the last index along some axis. *)
Definition on_sentinel (shape3 c : coord) : Prop :=
  0 ≤ c.1.1 ≤ shape3.1.1 ∧ 0 ≤ c.1.2 ≤ shape3.1.2 ∧ 0 ≤ c.2 ≤ shape3.2 ∧
  (c.1.1 = shape3.1.1 ∨ c.1.2 = shape3.1.2 ∨ c.2 = shape3.2).

(** The ancestor table has chains of length at most one. *)
Definition flat (anc : gmap Z (option Z)) : Prop :=
  ∀ k p, anc !! k = Some (Some p) → anc !! p = Some None.

(** Following the ancestor chain from [id] to its end, by at most
    [fuel] hops: the full resolution that the one-step replacement of
    lines 105-108 is compared with. [None] when a key is absent or the
    chain is longer than [fuel]. *)
Fixpoint resolve_chain (fuel : nat) (anc : gmap Z (option Z)) (id : Z)
  : option Z :=
  match anc !! id with
  | None => None
  | Some None => Some id
  | Some (Some p) =>
      match fuel with
      | O => None
      | S fuel' => resolve_chain fuel' anc p
      end
  end.

(** The indices of a voxel in a map of the finished dendrogram. *)
Definition voxel_indices (n : Z) (c : coord) : list Z :=
  if decide (n = 2) then [c.1.2; c.2] else [c.1.1; c.1.2; c.2].

(** Non-NaN floats compare as triples of integers (class and sign,
    exponent, mantissa), ordered lexicographically. *)
Definition sf_key (f : spec_float) : option (Z * Z * Z) :=
  match f with
  | S754_zero _ => Some (0, 0, 0)
  | S754_infinity true => Some (-2, 0, 0)
  | S754_infinity false => Some (2, 0, 0)
  | S754_nan => None
  | S754_finite true m e => Some (-1, - e, Z.neg m)
  | S754_finite false m e => Some (1, e, Z.pos m)
  end.

Definition float_key (x : float) : option (Z * Z * Z) := sf_key (Prim2SF x).

Definition lex3 (a b : Z * Z * Z) : comparison :=
  match a.1.1 ?= b.1.1 with
  | Eq => match a.1.2 ?= b.1.2 with
          | Eq => a.2 ?= b.2
          | c => c
          end
  | c => c
  end.

Definition lex_le (a b : Z * Z * Z) : Prop :=
  a.1.1 < b.1.1 ∨
  (a.1.1 = b.1.1 ∧ (a.1.2 < b.1.2 ∨ (a.1.2 = b.1.2 ∧ a.2 ≤ b.2))).

Definition lex_lt (a b : Z * Z * Z) : Prop :=
  a.1.1 < b.1.1 ∨
  (a.1.1 = b.1.1 ∧ (a.1.2 < b.1.2 ∨ (a.1.2 = b.1.2 ∧ a.2 < b.2))).

(** Whether the structure bound to [k] passes the test of the merge
    case at the voxel of value [flux]. *)
Definition touching_insignificant (minimum_npix : Z) (minimum_delta : float)
    (its : gmap Z item) (flux : float) (k : Z) : bool :=
  match its !! k with
  | Some it => insignificant minimum_npix minimum_delta it flux
  | None => false
  end.

(** *** The outcomes of one iteration

    One iteration of the main loop ends in one of three ways: the voxel
    starts a leaf, it joins an existing structure (which may absorb
    insignificant leaves), or it starts a branch. *)

(** The voxel [c], the [i]-th of the filtered list, started a leaf. *)
Definition starts_leaf (st : state) (i : nat) (c : coord) (flux : float)
    (st' : state) : Prop :=
  let idx := Z.of_nat i + 1 in
  ∃ im, array_set (index_map st) c (astype_int32 idx) = Ok im ∧
        st' = {| index_map := im;
                 items := <[idx := new_Leaf c.2 c.1.2 c.1.1 flux idx]>
                            (items st);
                 ancestor := <[idx := None]> (ancestor st);
                 issued := issued st ++ [idx] |}.

(** The voxel [c] joined the structure [idx], which absorbed the
    leaves [ms]. *)
Definition joins (st : state) (c : coord) (flux : float) (idx : Z)
    (ms : list Z) (st' : state) : Prop :=
  ∃ it im0 its im,
    items st !! idx = Some it ∧
    array_set (index_map st) c (astype_int32 idx) = Ok im0 ∧
    for_each (merge_onto idx) ms
      (<[idx := add_point it c.2 c.1.2 c.1.1 flux]> (items st), im0)
      = Ok (its, im) ∧
    st' = {| index_map := im; items := its; ancestor := ancestor st;
             issued := issued st |}.

(** The voxel [c], the [i]-th of the filtered list, started a branch
    over the structures [sig], which absorbed the leaves [ms]. *)
Definition starts_branch (st : state) (i : nat) (c : coord) (flux : float)
    (sig ms : list Z) (st' : state) : Prop :=
  let idx := Z.of_nat i + 1 in
  ∃ im0 its im,
    (∀ k, k ∈ sig → is_Some (items st !! k)) ∧
    array_set (index_map st) c (astype_int32 idx) = Ok im0 ∧
    for_each (merge_onto idx) ms
      (<[idx := new_Branch sig c.2 c.1.2 c.1.1 flux idx]> (items st), im0)
      = Ok (its, im) ∧
    st' = {| index_map := im; items := its;
             ancestor := foldl (reparent idx) (<[idx := None]> (ancestor st))
                               sig;
             issued := issued st ++ [idx] |}.

(** The split of the touching structures into the insignificant
    leaves [merge] and the rest [sig] (lines 155-164). *)
Definition partition_adjacent (minimum_npix : Z) (minimum_delta : float)
    (its : gmap Z item) (adjacent : list Z) (flux : float)
    (merge sig : list Z) : Prop :=
  find_merge minimum_npix minimum_delta its adjacent flux = Ok merge ∧
  remove_merges merge adjacent = Ok sig.

(** The outcome of the iteration on the voxel [c] of value [flux],
    touching [adjacent]. *)
Definition outcome (minimum_npix : Z) (minimum_delta : float)
    (st : state) (i : nat) (c : coord) (flux : float) (adjacent : list Z)
    (st' : state) : Prop :=
  (adjacent = [] ∧ starts_leaf st i c flux st') ∨
  (∃ idx, adjacent = [idx] ∧ joins st c flux idx [] st') ∨
  (∃ merge sig,
     (2 ≤ length adjacent)%nat ∧
     partition_adjacent minimum_npix minimum_delta (items st) adjacent flux
                        merge sig ∧
     ((∃ idx rest, sig = [] ∧ merge = idx :: rest ∧
                   joins st c flux idx rest st') ∨
      (∃ idx, sig = [idx] ∧ joins st c flux idx merge st') ∨
      ((2 ≤ length sig)%nat ∧ starts_branch st i c flux sig merge st'))).

#[global] Instance exn_eq_dec : EqDecision exn.
Proof. solve_decision. Defined.

#[global] Instance result_eq_dec {A} `{EqDecision A} : EqDecision (result A).
Proof. solve_decision. Defined.

(** The voxels that the leaves [ms] of the table [its] own, in order. *)
Definition voxels_of (its : gmap Z item) (ms : list Z) : list coord :=
  ms ≫= λ m, from_option voxels [] (its !! m).

(** Distinct keys of leaves of the table [its]. *)
Definition leaves_of (its : gmap Z item) (ms : list Z) : Prop :=
  NoDup ms ∧ ∀ m, m ∈ ms → ∃ r, its !! m = Some r ∧ typ r = Leaf.

(** A root of the ancestor table: a key bound to [None]. *)
Definition is_root (anc : gmap Z (option Z)) (k : Z) : Prop :=
  anc !! k = Some None.

(** The data part of every outcome: the voxel [c] is stamped with
    [idx], the structure [b0] is bound to [idx], and the leaves [ms] are
    absorbed into it. *)
Definition absorbs (st : state) (c : coord) (idx : Z) (b0 : item)
    (ms : list Z) (its' : gmap Z item) (im' : array3) : Prop :=
  ∃ im0, array_set (index_map st) c (astype_int32 idx) = Ok im0 ∧
         for_each (merge_onto idx) ms (<[idx := b0]> (items st), im0)
           = Ok (its', im').

(** The voxel of position [i] in the filtered list has been processed. *)
Definition processed (coords : list coord) (pre : list nat) (c : coord)
  : Prop := ∃ i, i ∈ pre ∧ coords !! i = Some c.

(** The invariant of the main loop, for the state reached after the
    positions [pre] of the filtered list. *)
Record scan_inv (shape3 : coord) (coords : list coord) (pre : list nat)
    (st : state) : Prop := mk_scan_inv {
  inv_pre : ∀ i, i ∈ pre → is_Some (coords !! i);
  inv_dims : dims (index_map st) = padded shape3;
  (* only cells of processed voxels have been written *)
  inv_cells : ∀ s v, cells (index_map st) !! s = Some v →
                     processed coords pre s;
  (* structures own processed voxels *)
  inv_voxels : ∀ k it c, items st !! k = Some it → c ∈ voxels it →
                         processed coords pre c;
  (* the ids issued come from the positions processed, in order *)
  inv_issued : ∃ l, l `sublist_of` pre ∧
                    issued st = (λ i, Z.of_nat i + 1) <$> l;
  (* the keys of [ancestor] are the ids issued *)
  inv_anc_dom : ∀ k, is_Some (ancestor st !! k) ↔ k ∈ issued st;
  inv_flat : flat (ancestor st);
  inv_items_dom : ∀ k, is_Some (items st !! k) → is_Some (ancestor st !! k);
  (* the index map holds the key of a leaf at each voxel the leaf owns,
     as long as the ids fit the int32 cells *)
  inv_leaf_cells : Z.of_nat (length coords) < 2 ^ 31 →
                   ∀ k it c, items st !! k = Some it → typ it = Leaf →
                             c ∈ voxels it →
                             cells (index_map st) !! c = Some k
}.

(** The state [st] is the one at the head of the main loop after the
    positions [pre], a prefix of the order of the scan, on the input
    [data] recast to the shape [shape3]. *)
Definition reaches `{PyRuntime} (data : ndarray) (minimum_flux : float)
    (minimum_npix : Z) (minimum_delta : float) (shape3 : coord)
    (pre : list nat) (st : state) : Prop :=
  ∃ post, scan_order (flux_values_of data minimum_flux) = pre ++ post ∧
          scan_from (flux_values_of data minimum_flux)
                    (coords_of shape3 data minimum_flux)
                    minimum_npix minimum_delta (initial_state shape3) pre
            = Ok st.

(** A table for examples: a leaf of one voxel under key 1 and a branch
    under key 2. *)
Definition example_items : gmap Z item :=
  <[1 := new_Leaf 0 0 0 5%float 1]>
    (<[2 := new_Branch [3; 4] 1 0 0 2%float 2]> ∅).

(** A 2D array of one row. *)
Definition row (l : list float) : ndarray :=
  {| shape := [1%nat; length l]; ravel := l |}.

(** Two peaks of value 5 around a saddle of value 1. *)
Definition two_peaks : ndarray := row [5; 1; 5]%float.

(** Peaks at the two ends, the higher one on the right. *)
Definition rising_peaks : ndarray := row [3; 1; 5]%float.

(** A list of ids that grows strictly from each element to the later
    ones. *)
Definition increasing (l : list Z) : Prop :=
  ∀ p q a b, (p < q)%nat → l !! p = Some a → l !! q = Some b → a < b.

(** A plateau of two equal values. *)
Definition plateau : ndarray := row [3; 3]%float.

(** Among the voxels [kept] (linear index and value) visited in the
    order [order] (positions in [kept]), two voxels of the same value
    are visited by ascending linear index. *)
Definition ties_by_linear_index (kept : list (nat * float))
    (order : list nat) : Prop :=
  ∀ p q i j ki kj v,
    (p < q)%nat → order !! p = Some i → order !! q = Some j →
    kept !! i = Some (ki, v) → kept !! j = Some (kj, v) → (ki < kj)%nat.

(** Every structure of the table sits under its own id. *)
Definition keyed (its : gmap Z item) : Prop :=
  ∀ k it, its !! k = Some it → idx_of it = k.

(** A low peak on the left (linear index 1), a high peak on the right
    (linear index 8) and a long slope between them. *)
Definition slope : ndarray := row [2; 30; 1; 3; 4; 5; 6; 7; 40]%float.

(** What the iteration on the voxel [c] has done when it made the
    branch [idx] over the structures [sig], absorbing the leaves
    [merge]: the id was unused; the table binds [idx] to a Branch seeded
    with [c] whose children are [sig], in that order, and which owns
    [c] and the voxels of the absorbed leaves; the index map holds [idx]
    at [c] and at those voxels; [idx] is a root; the absorbed leaves have
    left the table; every child, and every structure that had a child as
    its ancestor, has [idx] as its ancestor; the children stay in the
    table as they were. *)
Definition branch_made (st st' : state) (idx : Z) (c : coord)
    (sig merge : list Z) : Prop :=
  items st !! idx = None ∧ ancestor st !! idx = None ∧
  (∃ b, items st' !! idx = Some b ∧ typ b = Branch ∧ idx_of b = idx ∧
        seed b = c ∧ children b = sig ∧
        voxels b = c :: voxels_of (items st) merge) ∧
  array_get (index_map st') c = Ok idx ∧
  ancestor st' !! idx = Some None ∧
  (∀ m, m ∈ merge →
        items st' !! m = None ∧
        ∀ r v, items st !! m = Some r → v ∈ voxels r →
               array_get (index_map st') v = Ok idx) ∧
  (∀ k, k ∈ sig → ancestor st' !! k = Some (Some idx)) ∧
  (∀ k j, j ∈ sig → ancestor st !! k = Some (Some j) →
          ancestor st' !! k = Some (Some idx)) ∧
  (∀ k, k ∈ sig → items st' !! k = items st !! k).

(** What keeps the lookups of the main loop from failing: every id in
    the index map resolves to a structure of the table, a cell holding
    the id of a leaf of the table is a voxel of that leaf, and ancestors
    are branches of the table. *)
Record lookup_inv (st : state) : Prop := mk_lookup_inv {
  look_cells : ∀ s v, cells (index_map st) !! s = Some v →
                 ∃ r, replace_by_ancestor (ancestor st) v = Ok r ∧
                      is_Some (items st !! r);
  look_leaf : ∀ s k it, cells (index_map st) !! s = Some k →
                items st !! k = Some it → typ it = Leaf → s ∈ voxels it;
  look_branch : ∀ k p, ancestor st !! k = Some (Some p) →
                  ∃ b, items st !! p = Some b ∧ typ b = Branch
}.

(** The number of dimensions of the input array. *)
Definition ndim (data : ndarray) : nat := length (shape data).

(** ** Vocabulary of the further properties *)

(** The index map and the voxel lists of the table agree, after the
    positions [pre]: a cell that has been written holds the key of the
    structure that owns the voxel, a voxel owned by a structure holds
    the key of that structure, every processed voxel has been written,
    and no structure owns a voxel twice. *)
Record owner_inv (coords : list coord) (pre : list nat) (st : state)
  : Prop := mk_owner_inv {
  own_cells : ∀ s k, cells (index_map st) !! s = Some k →
                ∃ it, items st !! k = Some it ∧ s ∈ voxels it;
  own_voxels : ∀ k it c, items st !! k = Some it → c ∈ voxels it →
                 cells (index_map st) !! c = Some k;
  own_covered : ∀ c, processed coords pre c →
                  is_Some (cells (index_map st) !! c);
  own_NoDup : ∀ k it, items st !! k = Some it → NoDup (voxels it)
}.

(** The structure [it], under the key [k] of the table, records its own
    key, counts its voxels, and was seeded at the voxel of position
    [k - 1] of the filtered list, the first voxel it owns. *)
Definition item_sound (coords : list coord) (flux_values : list float)
    (k : Z) (it : item) : Prop :=
  idx_of it = k ∧ npix it = Z.of_nat (length (voxels it)) ∧
  head (voxels it) = Some (seed it) ∧
  ∃ i : nat, k = Z.of_nat i + 1 ∧ coords !! i = Some (seed it) ∧
             flux_values !! i = Some (seed_flux it).

Definition table_sound (coords : list coord) (flux_values : list float)
    (its : gmap Z item) : Prop :=
  ∀ k it, its !! k = Some it → item_sound coords flux_values k it.

(** The root of the tree of [k], as the ancestor table gives it: the
    ancestor of [k], or [k] itself when it has none. *)
Definition root_of (anc : gmap Z (option Z)) (k : Z) : Z :=
  match anc !! k with
  | Some (Some r) => r
  | _ => k
  end.

(** The table [its], the ancestor table [anc] and the ids issued so far
    [iss] describe a forest: leaves have no children and branches at
    least two distinct ones; a child is in the table and its ancestor
    is the root of its parent; a structure with an ancestor has a
    parent, and only one; a child was created before its parent. *)
Record tree_inv (its : gmap Z item) (anc : gmap Z (option Z))
    (iss : list Z) : Prop := mk_tree_inv {
  tree_leaf : ∀ k it, its !! k = Some it → typ it = Leaf →
                children it = [];
  tree_branch : ∀ k b, its !! k = Some b → typ b = Branch →
                  (2 ≤ length (children b))%nat ∧ NoDup (children b);
  tree_child : ∀ p b j, its !! p = Some b → j ∈ children b →
                 is_Some (its !! j) ∧
                 anc !! j = Some (Some (root_of anc p));
  tree_parent : ∀ j p, anc !! j = Some (Some p) →
                  ∃ q b, its !! q = Some b ∧ j ∈ children b;
  tree_unique : ∀ p q b b' j, its !! p = Some b → its !! q = Some b' →
                  j ∈ children b → j ∈ children b' → p = q;
  tree_order : ∀ p b j, its !! p = Some b → j ∈ children b →
                 ∃ a1 a2 : nat, iss !! a1 = Some j ∧ iss !! a2 = Some p ∧
                                (a1 < a2)%nat
}.

(** The table [its'] is [its] without the keys [ms], every other
    structure keeping its kind and its children. *)
Definition same_shape (its its' : gmap Z item) (ms : list Z) : Prop :=
  ∀ k, if decide (k ∈ ms) then its' !! k = None
       else match its !! k, its' !! k with
            | Some a, Some b => typ a = typ b ∧ children a = children b
            | None, None => True
            | _, _ => False
            end.

(** What the iteration on the voxel [c] has done when the voxel went to
    the existing structure [idx], which absorbed the leaves [ms]: the
    structure keeps its kind, seed and children and owns, after its old
    voxels, [c] and then the voxels of the absorbed leaves; the index
    map holds [idx] at [c] and at those voxels; the absorbed leaves
    have left the table; the other structures, the ancestor table and
    the ids issued are as they were. *)
Definition joined (st st' : state) (idx : Z) (c : coord) (ms : list Z)
  : Prop :=
  (∃ it it', items st !! idx = Some it ∧ items st' !! idx = Some it' ∧
             typ it' = typ it ∧ seed it' = seed it ∧
             children it' = children it ∧
             voxels it' = voxels it ++ c :: voxels_of (items st) ms) ∧
  array_get (index_map st') c = Ok idx ∧
  (∀ m, m ∈ ms →
        items st' !! m = None ∧
        ∀ r v, items st !! m = Some r → v ∈ voxels r →
               array_get (index_map st') v = Ok idx) ∧
  (∀ k, k ≠ idx → k ∉ ms → items st' !! k = items st !! k) ∧
  ancestor st' = ancestor st ∧ issued st' = issued st.



(** The value that lines 280-286 write over the voxels of a structure. *)
Definition type_level (it : item) : Z :=
  if decide (typ it = Leaf) then 2 else 1.

(** The structure of the table [its] that owns the voxel [c]. *)
Definition owns (its : gmap Z item) (it : item) (c : coord) : Prop :=
  ∃ k, its !! k = Some it ∧ c ∈ voxels it.

(** The structure [k] lies below the structure [p] in the table: it is
    a child of [p] or lies below one. *)
Inductive descends (its : gmap Z item) : Z → Z → Prop :=
  | descends_child p b j :
      its !! p = Some b → j ∈ children b → descends its j p
  | descends_step p b j k :
      its !! p = Some b → j ∈ children b → descends its k j →
      descends its k p.

(** The branch [b] of the state [st], under the key [k], is still there
    in the later state [st']: under the same key, with the same id,
    seed and children, owning its old voxels and maybe more, and the
    index map holds [k] wherever it held it. *)
Definition branch_kept (st st' : state) (k : Z) (b : item) : Prop :=
  (∃ b', items st' !! k = Some b' ∧ typ b' = Branch ∧
         idx_of b' = idx_of b ∧ seed b' = seed b ∧
         children b' = children b ∧ voxels b `prefix_of` voxels b') ∧
  ∀ s, cells (index_map st) !! s = Some k →
       cells (index_map st') !! s = Some k.

(** Two peaks of value 5 around a saddle of value 1, and a voxel of
    value 0 at the foot of the right peak. *)
Definition peaks_and_foot : ndarray := row [5; 1; 5; 0]%float.

(** * Properties *)

#[local] Set Warnings "-clear-no-such-hyp".

(** ** Order of the floats *)

Lemma SFcompare_key (a b : spec_float) :
  SFcompare a b =
  match sf_key a, sf_key b with
  | Some ka, Some kb => Some (lex3 ka kb)
  | _, _ => None
  end.
Proof.
  destruct a as [sa|sa| |sa ma ea], b as [sb|sb| |sb mb eb]; simpl;
    try destruct sa; try destruct sb; try reflexivity.
  unfold lex3; simpl. rewrite Z.compare_opp, (Z.compare_antisym ea eb).
  by destruct (ea ?= eb).
Qed.

Lemma lex3_le a b : lex3 a b ≠ Gt ↔ lex_le a b.
Proof.
  unfold lex3, lex_le.
  destruct (Z.compare_spec a.1.1 b.1.1); [|split; [lia|congruence]|split; [congruence|lia]].
  destruct (Z.compare_spec a.1.2 b.1.2); [|split; [lia|congruence]|split; [congruence|lia]].
  destruct (Z.compare_spec a.2 b.2); split; try congruence; try lia.
Qed.

Lemma lex3_lt a b : lex3 a b = Lt ↔ lex_lt a b.
Proof.
  unfold lex3, lex_lt.
  destruct (Z.compare_spec a.1.1 b.1.1); [|split; [lia|congruence]|split; [congruence|lia]].
  destruct (Z.compare_spec a.1.2 b.1.2); [|split; [lia|congruence]|split; [congruence|lia]].
  destruct (Z.compare_spec a.2 b.2); split; try congruence; try lia.
Qed.

Lemma is_nan_key x : is_nan x = true ↔ float_key x = None.
Proof.
  unfold is_nan, float_key. rewrite FloatAxioms.eqb_spec. unfold SFeqb.
  rewrite SFcompare_key.
  destruct (sf_key (Prim2SF x)) as [k|]; [|done].
  replace (lex3 k k) with Eq; [done|].
  unfold lex3. by rewrite !Z.compare_refl.
Qed.

Lemma not_nan_key x : is_nan x = false → ∃ k, float_key x = Some k.
Proof.
  intros Hx. destruct (float_key x) as [k|] eqn:E; [eauto|].
  apply is_nan_key in E. congruence.
Qed.

Lemma ltb_key x y :
  (x <? y)%float = true ↔
  ∃ kx ky, float_key x = Some kx ∧ float_key y = Some ky ∧ lex_lt kx ky.
Proof.
  rewrite FloatAxioms.ltb_spec. unfold SFltb, float_key. rewrite SFcompare_key.
  destruct (sf_key (Prim2SF x)) as [kx|], (sf_key (Prim2SF y)) as [ky|];
    try (split; [done|intros (?&?&?&?&?); done]).
  split.
  - intros Hlt. exists kx, ky. repeat split. apply lex3_lt.
    by destruct (lex3 kx ky).
  - intros (?&?&[= <-]&[= <-]&Hlt). apply lex3_lt in Hlt. by rewrite Hlt.
Qed.

Lemma leb_key x y :
  (x <=? y)%float = true ↔
  ∃ kx ky, float_key x = Some kx ∧ float_key y = Some ky ∧ lex_le kx ky.
Proof.
  rewrite FloatAxioms.leb_spec. unfold SFleb, float_key. rewrite SFcompare_key.
  destruct (sf_key (Prim2SF x)) as [kx|], (sf_key (Prim2SF y)) as [ky|];
    try (split; [done|intros (?&?&?&?&?); done]).
  split.
  - intros Hle. exists kx, ky. repeat split. apply lex3_le.
    by destruct (lex3 kx ky).
  - intros (?&?&[= <-]&[= <-]&Hle). apply lex3_le in Hle.
    by destruct (lex3 kx ky).
Qed.

(** NaN fails every comparison. *)
Lemma ltb_nan_r x y : is_nan y = true → (x <? y)%float = false.
Proof.
  intros Hy. apply is_nan_key in Hy. apply not_true_iff_false.
  intros (?&?&?&?&?)%ltb_key. congruence.
Qed.

Lemma ltb_nan_l x y : is_nan x = true → (x <? y)%float = false.
Proof.
  intros Hx. apply is_nan_key in Hx. apply not_true_iff_false.
  intros (?&?&?&?&?)%ltb_key. congruence.
Qed.

Lemma ltb_not_nan x y : (x <? y)%float = true → is_nan y = false.
Proof.
  intros Hlt. apply not_true_iff_false. intros Hy.
  by rewrite (ltb_nan_r x y Hy) in Hlt.
Qed.

Lemma ltb_leb x y : (x <? y)%float = true → (x <=? y)%float = true.
Proof.
  intros (kx&ky&?&?&Hlt)%ltb_key. apply leb_key. exists kx, ky.
  repeat split; try done. unfold lex_lt, lex_le in *. lia.
Qed.

Lemma leb_total x y :
  is_nan x = false → is_nan y = false →
  (y <? x)%float = false → (x <=? y)%float = true.
Proof.
  intros [kx Hx]%not_nan_key [ky Hy]%not_nan_key Hlt.
  apply leb_key. exists kx, ky. repeat split; try done.
  apply not_true_iff_false in Hlt. rewrite ltb_key in Hlt.
  destruct (decide (lex_lt ky kx)) as [Hd|Hd].
  - destruct Hlt. eauto.
  - unfold lex_lt, lex_le in *. lia.
Qed.

Lemma leb_trans x y z :
  (x <=? y)%float = true → (y <=? z)%float = true → (x <=? z)%float = true.
Proof.
  intros (kx&ky&Hx&Hy&H1)%leb_key (ky'&kz&Hy'&Hz&H2)%leb_key.
  apply leb_key. exists kx, kz. repeat split; try done.
  assert (ky' = ky) as -> by congruence.
  unfold lex_le in *. lia.
Qed.

(** ** The error monad and the loops *)

Lemma bind_Ok {A B} (m : result A) (f : A → result B) (b : B) :
  m ≫= f = Ok b ↔ ∃ a, m = Ok a ∧ f a = Ok b.
Proof.
  destruct m as [a|e]; simpl; split.
  - eauto.
  - by intros (? & [= <-] & ?).
  - done.
  - by intros (? & ? & ?).
Qed.

Lemma fmap_Ok {A B} (m : result A) (f : A → B) (b : B) :
  f <$> m = Ok b ↔ ∃ a, m = Ok a ∧ b = f a.
Proof.
  destruct m as [a|e]; simpl; split.
  - intros [= <-]. eauto.
  - by intros (? & [= <-] & ->).
  - done.
  - by intros (? & ? & ?).
Qed.

Lemma dict_get_Ok {V} (d : gmap Z V) k v : dict_get d k = Ok v ↔ d !! k = Some v.
Proof. unfold dict_get. destruct (d !! k); naive_solver. Qed.

Lemma dict_pop_Ok {V} (d : gmap Z V) k v d' :
  dict_pop d k = Ok (v, d') ↔ d !! k = Some v ∧ d' = delete k d.
Proof. unfold dict_pop. destruct (d !! k); naive_solver. Qed.

Lemma list_get_Ok {A} (l : list A) i a : list_get l i = Ok a ↔ l !! i = Some a.
Proof. unfold list_get. destruct (l !! i); naive_solver. Qed.

(** Splits a hypothesis [m ≫= f = Ok b] into its successful stages. *)
Ltac inv_res H :=
  repeat first
    [ let a := fresh "a" in let E := fresh "E" in
      apply bind_Ok in H as (a & E & H)
    | let a := fresh "a" in let E := fresh "E" in
      apply fmap_Ok in H as (a & E & H) ];
  simpl in H.

Lemma for_each_app {A St} (body : St → A → result St) xs ys s :
  for_each body (xs ++ ys) s = for_each body xs s ≫= for_each body ys.
Proof.
  revert s. induction xs as [|x xs IH]; intros s; simpl; [done|].
  destruct (body s x) as [s'|e]; simpl; [apply IH|done].
Qed.

Lemma for_each_snoc {A St} (body : St → A → result St) xs x s s' :
  for_each body (xs ++ [x]) s = Ok s' ↔
  ∃ s1, for_each body xs s = Ok s1 ∧ body s1 x = Ok s'.
Proof.
  rewrite for_each_app, bind_Ok. simpl.
  split; intros (s1 & ? & Hb); exists s1; split; try done.
  - by destruct (body s1 x).
  - by rewrite Hb.
Qed.

(** The invariant rule of [for_each]: [P done s] relates the elements
    already visited with the state reached. *)
Lemma for_each_ind {A St} (P : list A → St → Prop)
    (body : St → A → result St) xs s s' :
  P [] s →
  (∀ done_ x rest s1 s2, xs = done_ ++ x :: rest → P done_ s1 →
                         body s1 x = Ok s2 → P (done_ ++ [x]) s2) →
  for_each body xs s = Ok s' → P xs s'.
Proof.
  intros H0 Hstep.
  assert (∀ pre rest s1, xs = pre ++ rest → for_each body pre s = Ok s1 →
                         P pre s1) as Hpre.
  { induction pre as [|x pre IH] using rev_ind; intros rest s1 Hxs Hrun.
    - by injection Hrun as <-.
    - apply for_each_snoc in Hrun as (s0 & Hrun & Hb).
      rewrite <- app_assoc in Hxs. simpl in Hxs.
      eapply Hstep; [done| |done]. by eapply IH. }
  intros Hrun. apply (Hpre xs [] s'); [by rewrite app_nil_r|done].
Qed.

Lemma for_each_inv {A St} (P : St → Prop) (body : St → A → result St) xs s s' :
  P s →
  (∀ x s1 s2, x ∈ xs → P s1 → body s1 x = Ok s2 → P s2) →
  for_each body xs s = Ok s' → P s'.
Proof.
  intros H0 Hstep. apply (for_each_ind (λ _, P)); [done|].
  intros done_ x rest s1 s2 -> ??. eapply Hstep; [|done..]. set_solver.
Qed.

(** A loop whose body cannot fail on the states of [P] runs to its end. *)
Lemma for_each_total {A St} (P : list A → St → Prop)
    (body : St → A → result St) xs s :
  P [] s →
  (∀ done_ x rest s1, xs = done_ ++ x :: rest → P done_ s1 →
     ∃ s2, body s1 x = Ok s2 ∧ P (done_ ++ [x]) s2) →
  ∃ s', for_each body xs s = Ok s' ∧ P xs s'.
Proof.
  intros H0 Hstep.
  assert (∀ pre rest, xs = pre ++ rest →
            ∃ s1, for_each body pre s = Ok s1 ∧ P pre s1) as Hpre.
  { induction pre as [|x pre IH] using rev_ind; intros rest Hxs.
    - by exists s.
    - rewrite <- app_assoc in Hxs. simpl in Hxs.
      destruct (IH _ Hxs) as (s1 & Hrun & HP).
      destruct (Hstep pre x rest s1 Hxs HP) as (s2 & Hb & HP2).
      exists s2. split; [|done]. apply for_each_snoc. eauto. }
  apply (Hpre xs []). by rewrite app_nil_r.
Qed.

Lemma list_comp_Ok {A B} (f : A → result B) xs ys :
  list_comp f xs = Ok ys ↔ Forall2 (λ x y, f x = Ok y) xs ys.
Proof.
  revert ys. induction xs as [|x xs IH]; intros ys; simpl.
  - split; [intros [= <-]; constructor|by inversion 1].
  - split.
    + intros Hc. inv_res Hc. injection Hc as <-. constructor; [done|].
      by apply IH.
    + inversion 1 as [|? y ? ys' Hx Hxs]; subst. rewrite Hx. simpl.
      apply IH in Hxs. by rewrite Hxs.
Qed.

Lemma list_comp_total {A B} (f : A → result B) xs :
  (∀ x, x ∈ xs → is_Ok (f x)) → is_Ok (list_comp f xs).
Proof.
  induction xs as [|x xs IH]; intros Hf; simpl; [by eexists|].
  destruct (Hf x) as [y Hy]; [set_solver|]. rewrite Hy. simpl.
  destruct IH as [ys Hys]; [set_solver|]. rewrite Hys. by eexists.
Qed.

(** [l.remove(x)] on a list that holds [x]. *)
Lemma list_remove_Ok x l l' :
  list_remove x l = Ok l' →
  ∃ l1 l2, l = l1 ++ x :: l2 ∧ l' = l1 ++ l2 ∧ x ∉ l1.
Proof.
  revert l'. induction l as [|y l IH]; intros l'; simpl; [done|].
  case_decide as Hxy.
  - intros [= <-]. subst. exists [], l. set_solver.
  - intros Hr. inv_res Hr. subst.
    destruct (IH _ E) as (l1 & l2 & -> & -> & ?).
    exists (y :: l1), l2. set_solver.
Qed.

Lemma list_remove_total x l : x ∈ l → is_Ok (list_remove x l).
Proof.
  induction l as [|y l IH]; simpl; [set_solver|].
  intros Hx. case_decide; [by eexists|].
  destruct IH as [l' Hl']; [set_solver|]. rewrite Hl'. by eexists.
Qed.


(** ** Indexing the padded array *)

Lemma norm_index_Ok n i j :
  norm_index n i = Ok j ↔ (0 ≤ i < n ∧ j = i) ∨ (- n ≤ i < 0 ∧ j = i + n).
Proof.
  unfold norm_index.
  destruct (Z.leb_spec 0 i), (Z.ltb_spec i n), (Z.leb_spec (- n) i),
    (Z.ltb_spec i 0); simpl; split; try (intros [= <-]); try lia;
    intros [[? ->]|[? ->]]; try done; lia.
Qed.

Lemma norm_coord_Ok a c s :
  norm_coord a c = Ok s ↔
  norm_index (dims a).1.1 c.1.1 = Ok s.1.1 ∧
  norm_index (dims a).1.2 c.1.2 = Ok s.1.2 ∧
  norm_index (dims a).2 c.2 = Ok s.2.
Proof.
  unfold norm_coord. destruct (dims a) as [[nz ny] nx], c as [[z y] x],
    s as [[sz sy] sx]. simpl. split.
  - intros Hn. inv_res Hn. by injection Hn as <- <- <-.
  - intros (-> & -> & ->). done.
Qed.

Lemma padded_eq shape3 :
  padded shape3 = (shape3.1.1 + 1, shape3.1.2 + 1, shape3.2 + 1).
Proof. by destruct shape3 as [[??]?]. Qed.

Lemma norm_coord_in_cube shape3 a c :
  dims a = padded shape3 → in_cube shape3 c → norm_coord a c = Ok c.
Proof.
  intros Hd (? & ? & ?). apply norm_coord_Ok. rewrite Hd, padded_eq. simpl.
  rewrite !norm_index_Ok. lia.
Qed.

Lemma array_get_in_cube shape3 a c :
  dims a = padded shape3 → in_cube shape3 c →
  array_get a c = Ok (default 0 (cells a !! c)).
Proof.
  intros Hd Hc. unfold array_get.
  by rewrite (norm_coord_in_cube shape3 a c Hd Hc).
Qed.

Lemma array_set_in_cube shape3 a c v :
  dims a = padded shape3 → in_cube shape3 c →
  array_set a c v = Ok {| dims := dims a; cells := <[c := v]> (cells a) |}.
Proof.
  intros Hd Hc. unfold array_set.
  by rewrite (norm_coord_in_cube shape3 a c Hd Hc).
Qed.

(** A neighbour of a voxel of the cube is read either at itself, when it
    is a voxel of the cube, or at a cell of the padding. *)
Lemma neighbour_cell shape3 a c c' :
  dims a = padded shape3 → in_cube shape3 c → c' ∈ indices_adjacent c →
  ∃ s, norm_coord a c' = Ok s ∧
       ((in_cube shape3 c' ∧ s = c') ∨
        (¬ in_cube shape3 c' ∧ on_sentinel shape3 s)).
Proof.
  intros Hd (Hz & Hy & Hx) Hc'.
  destruct shape3 as [[nz ny] nx], c as [[z y] x]. simpl in *.
  assert (∀ n i, 0 ≤ i < n →
    norm_index (n + 1) (i - 1) = Ok (if decide (i = 0) then n else i - 1) ∧
    norm_index (n + 1) (i + 1) = Ok (i + 1) ∧
    norm_index (n + 1) i = Ok i) as Hn.
  { intros n i Hi. rewrite !norm_index_Ok. case_decide; lia. }
  destruct (Hn nz z Hz) as (Hz1 & Hz2 & Hz3).
  destruct (Hn ny y Hy) as (Hy1 & Hy2 & Hy3).
  destruct (Hn nx x Hx) as (Hx1 & Hx2 & Hx3).
  unfold indices_adjacent in Hc'.
  repeat (apply elem_of_cons in Hc' as [->|Hc']); [..|by apply elem_of_nil in Hc'];
    eexists (_, _, _); (split; [apply norm_coord_Ok; rewrite Hd; simpl; eauto|]);
    unfold in_cube, on_sentinel; simpl;
    try (match goal with
         | |- context [decide (?a = 0)] => destruct (decide (a = 0))
         end);
    (match goal with
     | |- (?P ∧ _) ∨ _ => assert (P ∨ ¬ P) as [?|?] by lia
     end; [left; split; [done|first [done|lia]]|right; split; [done|lia]]).
Qed.

(** ** The significance test of the merge case *)

Section Merge_test.
Variable minimum_npix : Z.
Variable minimum_delta : float.

Lemma find_merge_Ok its adjacent flux merge :
  find_merge minimum_npix minimum_delta its adjacent flux = Ok merge →
  (∀ k, k ∈ adjacent → is_Some (its !! k)) ∧
  merge = filter (λ k, touching_insignificant minimum_npix minimum_delta
                         its flux k = true) adjacent.
Proof.
  revert merge. induction adjacent as [|k adj IH]; intros merge; simpl.
  - intros [= <-]. split; [set_solver|done].
  - intros Hm. inv_res Hm. apply dict_get_Ok in E.
    destruct (IH _ E0) as (Hdom & ->). split.
    + intros k' [->|?]%elem_of_cons; eauto.
    + assert (touching_insignificant minimum_npix minimum_delta its flux k
              = insignificant minimum_npix minimum_delta a flux) as Hk.
      { unfold touching_insignificant. by rewrite E. }
      rewrite filter_cons.
      destruct (insignificant _ _ a flux) eqn:Hi; injection Hm as <-.
      * by rewrite decide_True.
      * rewrite decide_False; [done|]. by rewrite Hk.
Qed.

Lemma find_merge_total its adjacent flux :
  (∀ k, k ∈ adjacent → is_Some (its !! k)) →
  is_Ok (find_merge minimum_npix minimum_delta its adjacent flux).
Proof.
  induction adjacent as [|k adj IH]; intros Hdom; simpl; [by eexists|].
  destruct (Hdom k) as [it Hit]; [set_solver|].
  unfold dict_get. rewrite Hit. simpl.
  destruct IH as [m Hm]; [set_solver|]. rewrite Hm. by eexists.
Qed.
End Merge_test.

Lemma filter_ext_elem {A} (P Q : A → Prop) `{∀ x, Decision (P x)}
    `{∀ x, Decision (Q x)} (l : list A) :
  (∀ x, x ∈ l → P x ↔ Q x) → filter P l = filter Q l.
Proof.
  induction l as [|a l IH]; intros HPQ; [done|].
  rewrite !filter_cons. rewrite IH by (intros; apply HPQ; set_solver).
  destruct (decide (P a)) as [HP|HP], (decide (Q a)) as [HQ|HQ]; try done;
    apply HPQ in HP || apply HPQ in HQ; set_solver.
Qed.

Lemma remove_merges_Ok merge adjacent sig :
  NoDup adjacent → remove_merges merge adjacent = Ok sig →
  merge ⊆ adjacent ∧ NoDup merge ∧ sig = filter (λ k, k ∉ merge) adjacent.
Proof.
  unfold remove_merges. revert adjacent.
  induction merge as [|m ms IH]; intros adj Hnd; simpl.
  - intros [= <-]. split; [set_solver|]. split; [constructor|].
    induction adj as [|a adj IHa]; [done|].
    rewrite filter_cons, decide_True by set_solver.
    f_equal. apply IHa. by inversion Hnd.
  - intros Hr. inv_res Hr.
    apply list_remove_Ok in E as (l1 & l2 & -> & -> & Hm1).
    apply NoDup_app in Hnd as (Hnd1 & Hnd12 & Hnd2).
    apply NoDup_cons in Hnd2 as (Hm2 & Hnd2).
    destruct (IH (l1 ++ l2)) as (Hsub & Hndm & ->); [|done|].
    { apply NoDup_app. set_solver. }
    split; [set_solver|]. split.
    { apply NoDup_cons. split; [|done]. intros Hin. apply Hsub in Hin.
      set_solver. }
    rewrite !filter_app, filter_cons, decide_False by set_solver.
    f_equal; apply filter_ext_elem; intros k Hk; set_solver.
Qed.

Lemma remove_merges_total merge adjacent :
  NoDup merge → merge ⊆ adjacent → is_Ok (remove_merges merge adjacent).
Proof.
  unfold remove_merges. revert adjacent.
  induction merge as [|m ms IH]; intros adj Hnd Hsub; simpl; [by eexists|].
  apply NoDup_cons in Hnd as (Hm & Hnd).
  destruct (list_remove_total m adj) as [adj' Hadj']; [set_solver|].
  rewrite Hadj'. simpl. apply IH; [done|].
  apply list_remove_Ok in Hadj' as (l1 & l2 & -> & -> & ?).
  intros k Hk. specialize (Hsub k). set_solver.
Qed.


(** ** One iteration, by cases *)

Section Step_cases.
Context `{PyRuntime}.
Variable flux_values : list float.
Variable coords : list coord.
Variable minimum_npix : Z.
Variable minimum_delta : float.

#[local] Abbreviation outcome := (outcome minimum_npix minimum_delta).

Lemma merge_case_outcome st i c flux adjacent st' :
  (2 ≤ length adjacent)%nat →
  merge_case minimum_npix minimum_delta st i c.1.1 c.1.2 c.2 flux adjacent
    = Ok st' ↔
  outcome st i c flux adjacent st'.
Proof.
  intros Hlen. unfold outcome, merge_case. split.
  - intros Hm. right; right.
    apply bind_Ok in Hm as (merge & Hfm & Hm).
    apply bind_Ok in Hm as (sig & Hrm & Hm).
    exists merge, sig. split; [done|]. split; [done|].
    destruct c as [[z y] x]. simpl in Hm.
    destruct sig as [|idx [|idx' sig]].
    + left. apply bind_Ok in Hm as (idx & Hidx & Hm).
      apply bind_Ok in Hm as (leaf & Hleaf & Hm).
      apply bind_Ok in Hm as (im0 & Him0 & Hm).
      apply bind_Ok in Hm as ([its im] & Hloop & Hm).
      injection Hm as <-. apply list_get_Ok in Hidx.
      destruct merge as [|m ms]; [done|]. injection Hidx as ->.
      apply dict_get_Ok in Hleaf.
      exists idx, ms. repeat split. by exists leaf, im0, its, im.
    + right; left. apply bind_Ok in Hm as (it & Hit & Hm).
      apply bind_Ok in Hm as (im0 & Him0 & Hm).
      apply bind_Ok in Hm as ([its im] & Hloop & Hm).
      injection Hm as <-. apply dict_get_Ok in Hit.
      exists idx. split; [done|]. by exists it, im0, its, im.
    + right; right. split; [simpl; lia|].
      apply bind_Ok in Hm as (chn & Hchn & Hm).
      apply bind_Ok in Hm as (im0 & Him0 & Hm).
      apply bind_Ok in Hm as ([its im] & Hloop & Hm).
      injection Hm as <-. apply list_comp_Ok in Hchn.
      exists im0, its, im. repeat split; try done.
      intros k Hk. apply list_elem_of_lookup in Hk as [n Hn].
      destruct (Forall2_lookup_l _ _ _ _ _ Hchn Hn) as (it & _ & Hit).
      apply dict_get_Ok in Hit. eauto.
  - intros [[-> _]|[(idx & -> & _)|(merge & sig & _ & [Hfm Hrm] & Hcase)]];
      [simpl in Hlen; lia..|].
    rewrite Hfm. simpl. rewrite Hrm. simpl.
    destruct c as [[z y] x].
    destruct Hcase as [(idx & rest & -> & -> & Hj)|
                       [(idx & -> & Hj)|(Hsig & Hb)]].
    + destruct Hj as (it & im0 & its & im & Hit & Him & Hloop & ->).
      simpl in *. unfold dict_get. rewrite Hit. simpl. rewrite Him. simpl.
      by rewrite Hloop.
    + destruct Hj as (it & im0 & its & im & Hit & Him & Hloop & ->).
      simpl in *. unfold dict_get. rewrite Hit. simpl. rewrite Him. simpl.
      by rewrite Hloop.
    + destruct Hb as (im0 & its & im & Hdom & Him & Hloop & ->).
      destruct sig as [|k1 [|k2 sig]]; [simpl in Hsig; lia..|].
      destruct (list_comp_total (dict_get (items st)) (k1 :: k2 :: sig))
        as [chn Hchn].
      { intros k Hk. destruct (Hdom k Hk) as [it Hit]. exists it.
        by apply dict_get_Ok. }
      rewrite Hchn. simpl in *. rewrite Him. simpl. by rewrite Hloop.
Qed.

Lemma step_outcome st i st' :
  step flux_values coords minimum_npix minimum_delta st i = Ok st' ↔
  ∃ flux c adjacent,
    flux_values !! i = Some flux ∧ coords !! i = Some c ∧
    find_adjacent st c = Ok adjacent ∧
    outcome st i c flux adjacent st'.
Proof.
  unfold step. split.
  - intros Hs. apply bind_Ok in Hs as (flux & Hf & Hs).
    apply bind_Ok in Hs as ([[z y] x] & Hc & Hs).
    apply bind_Ok in Hs as (adjacent & Hadj & Hs).
    apply list_get_Ok in Hf, Hc.
    exists flux, (z, y, x), adjacent. repeat split; try done.
    destruct adjacent as [|idx [|idx' adj]].
    + left. split; [done|]. apply bind_Ok in Hs as (im & Him & Hs).
      injection Hs as <-. by exists im.
    + right; left. exists idx. split; [done|].
      apply bind_Ok in Hs as (it & Hit & Hs).
      apply bind_Ok in Hs as (im & Him & Hs).
      injection Hs as <-. apply dict_get_Ok in Hit.
      by exists it, im, (<[idx:=add_point it x y z flux]> (items st)), im.
    + apply (merge_case_outcome st i (z, y, x)); [simpl; lia|done].
  - intros (flux & c & adjacent & Hf & Hc & Hadj & Hout).
    unfold list_get. rewrite Hf, Hc. simpl. destruct c as [[z y] x].
    rewrite Hadj. simpl.
    destruct adjacent as [|idx [|idx' adj]].
    + destruct Hout as [[_ (im & Him & ->)]|[(? & ? & _)|(? & ? & Hl & _)]];
        [|done|simpl in Hl; lia].
      simpl in *. by rewrite Him.
    + destruct Hout as [[? _]|[(? & [= <-] & Hj)|(? & ? & Hl & _)]];
        [done| |simpl in Hl; lia].
      destruct Hj as (it & im0 & its & im & Hit & Him & Hloop & ->).
      simpl in *. unfold dict_get. rewrite Hit. simpl. rewrite Him. simpl.
      by injection Hloop as <- <-.
    + apply (merge_case_outcome st i (z, y, x)); [simpl; lia|done].
Qed.
End Step_cases.


(** ** Footprints and the absorption loop *)

Lemma norm_coord_dims a b c : dims a = dims b → norm_coord a c = norm_coord b c.
Proof. unfold norm_coord. by intros ->. Qed.

Lemma array_set_Ok a c v a' :
  array_set a c v = Ok a' ↔
  ∃ s, norm_coord a c = Ok s ∧
       a' = {| dims := dims a; cells := <[s := v]> (cells a) |}.
Proof.
  unfold array_set. rewrite bind_Ok. split.
  - intros (s & ? & [= <-]). eauto.
  - intros (s & ? & ->). eauto.
Qed.

Lemma add_footprint_Ok r im lvl im' :
  add_footprint r im lvl = Ok im' →
  dims im' = dims im ∧
  (∀ c, c ∈ voxels r → ∃ s, norm_coord im c = Ok s ∧ cells im' !! s = Some lvl) ∧
  (∀ s, (∀ c, c ∈ voxels r → norm_coord im c ≠ Ok s) →
        cells im' !! s = cells im !! s).
Proof.
  unfold add_footprint. intros Hrun.
  apply (for_each_ind (λ done_ im1,
    dims im1 = dims im ∧
    (∀ c, c ∈ done_ → ∃ s, norm_coord im c = Ok s ∧ cells im1 !! s = Some lvl) ∧
    (∀ s, (∀ c, c ∈ done_ → norm_coord im c ≠ Ok s) →
          cells im1 !! s = cells im !! s))) in Hrun; [done| |].
  - split; [done|]. split; [set_solver|done].
  - intros done_ c rest im1 im2 _ (Hd & Hw & Hk) Hset.
    apply array_set_Ok in Hset as (s & Hs & ->). simpl.
    rewrite (norm_coord_dims _ _ _ Hd) in Hs.
    split; [done|]. split.
    + intros c' [Hc'| ->%list_elem_of_singleton]%elem_of_app.
      * destruct (Hw c' Hc') as (s' & Hs' & Hv). exists s'. split; [done|].
        destruct (decide (s = s')) as [->|]; [by rewrite lookup_insert_eq|].
        by rewrite lookup_insert_ne.
      * exists s. by rewrite lookup_insert_eq.
    + intros s' Hs'. rewrite lookup_insert_ne.
      * apply Hk. intros c' Hc'. apply Hs'. set_solver.
      * intros ->. apply (Hs' c); [set_solver|done].
Qed.

Lemma add_footprint_total r im lvl :
  (∀ c, c ∈ voxels r → is_Ok (norm_coord im c)) →
  is_Ok (add_footprint r im lvl).
Proof.
  intros Hin. unfold add_footprint.
  destruct (for_each_total (λ _ im1, dims im1 = dims im)
              (λ im1 c, array_set im1 c lvl) (voxels r) im) as (im' & ? & _);
    [done| |by eexists].
  intros done_ c rest im1 Hv Hd. destruct (Hin c) as [s Hs].
  { rewrite Hv. set_solver. }
  unfold array_set. rewrite (norm_coord_dims _ _ _ Hd), Hs. simpl. eauto.
Qed.

Lemma voxels_of_snoc its ms m :
  voxels_of its (ms ++ [m]) = voxels_of its ms ++ from_option voxels [] (its !! m).
Proof. unfold voxels_of. rewrite bind_app. simpl. by rewrite app_nil_r. Qed.

Lemma elem_of_voxels_of its ms c :
  c ∈ voxels_of its ms ↔ ∃ m r, m ∈ ms ∧ its !! m = Some r ∧ c ∈ voxels r.
Proof.
  unfold voxels_of. rewrite list_elem_of_bind. split.
  - intros (m & Hc & Hm). destruct (its !! m) as [r|] eqn:E; [|set_solver].
    eauto.
  - intros (m & r & Hm & Hr & Hc). exists m. by rewrite Hr.
Qed.

(** What the loop [for i in ms: removed = items.pop(i);
    target.merge(removed); removed.add_footprint(index_map, idx)] does
    when the keys [ms] are distinct leaves other than the target. *)
Lemma merge_loop_Ok idx ms its0 im0 its im b0 :
  NoDup ms → idx ∉ ms → its0 !! idx = Some b0 →
  (∀ m r, m ∈ ms → its0 !! m = Some r → typ r = Leaf) →
  for_each (merge_onto idx) ms (its0, im0) = Ok (its, im) →
  (∀ m, m ∈ ms → is_Some (its0 !! m) ∧ its !! m = None) ∧
  (∀ k, k ∉ ms → k ≠ idx → its !! k = its0 !! k) ∧
  (∃ b, its !! idx = Some b ∧ typ b = typ b0 ∧ idx_of b = idx_of b0 ∧
        seed b = seed b0 ∧ children b = children b0 ∧
        voxels b = voxels b0 ++ voxels_of its0 ms) ∧
  dims im = dims im0 ∧
  (∀ c, c ∈ voxels_of its0 ms →
        ∃ s, norm_coord im0 c = Ok s ∧
             cells im !! s = Some (astype_int32 idx)) ∧
  (∀ s, (∀ c, c ∈ voxels_of its0 ms → norm_coord im0 c ≠ Ok s) →
        cells im !! s = cells im0 !! s).
Proof.
  intros Hnd Hidx Hb0 Hleaf Hrun.
  apply (for_each_ind (λ done_ '(its1, im1),
    (∀ m, m ∈ done_ → is_Some (its0 !! m) ∧ its1 !! m = None) ∧
    (∀ k, k ∉ done_ → k ≠ idx → its1 !! k = its0 !! k) ∧
    (∃ b, its1 !! idx = Some b ∧ typ b = typ b0 ∧ idx_of b = idx_of b0 ∧
          seed b = seed b0 ∧ children b = children b0 ∧
          voxels b = voxels b0 ++ voxels_of its0 done_) ∧
    dims im1 = dims im0 ∧
    (∀ c, c ∈ voxels_of its0 done_ →
          ∃ s, norm_coord im0 c = Ok s ∧
               cells im1 !! s = Some (astype_int32 idx)) ∧
    (∀ s, (∀ c, c ∈ voxels_of its0 done_ → norm_coord im0 c ≠ Ok s) →
          cells im1 !! s = cells im0 !! s))) in Hrun; [done| |].
  - split; [set_solver|]. split; [done|]. split.
    { exists b0. unfold voxels_of. simpl. by rewrite app_nil_r. }
    split; [done|]. split; [|done].
    intros c Hc. unfold voxels_of in Hc. set_solver.
  - intros done_ m rest [its1 im1] [its2 im2] Hms
      (Hpop & Hkeep & (b & Hb & Hty & Hid & Hseed & Hch & Hvox) & Hd & Hw & Hk)
      Hbody.
    assert (m ∉ done_) as Hm.
    { rewrite Hms in Hnd. apply NoDup_app in Hnd as (_ & Hnd & _).
      intros Hin. apply (Hnd m Hin). set_solver. }
    assert (m ≠ idx) as Hmi by (intros ->; apply Hidx; set_solver).
    unfold merge_onto in Hbody.
    apply bind_Ok in Hbody as ([r its1'] & Hr & Hbody).
    apply dict_pop_Ok in Hr as (Hr & ->).
    apply bind_Ok in Hbody as (im2' & Hfoot & Hbody).
    injection Hbody as <- <-.
    rewrite Hkeep in Hr by done.
    assert (typ r = Leaf) as Hrl by (apply (Hleaf m); set_solver).
    apply add_footprint_Ok in Hfoot as (Hd2 & Hw2 & Hk2).
    split; [|split; [|split; [|split; [|split]]]].
    + intros m' [Hm'| ->%list_elem_of_singleton]%elem_of_app.
      * split; [by apply Hpop|].
        rewrite lookup_alter_ne by (intros ->; apply Hidx; set_solver).
        destruct (decide (m = m')) as [->|]; [by rewrite lookup_delete_eq|].
        rewrite lookup_delete_ne by done. by apply Hpop.
      * split; [eauto|]. rewrite lookup_alter_ne by done.
        by rewrite lookup_delete_eq.
    + intros k Hk' Hki. rewrite lookup_alter_ne by done.
      rewrite lookup_delete_ne by set_solver. apply Hkeep; set_solver.
    + exists (merge_item r b). rewrite lookup_alter_eq.
      rewrite lookup_delete_ne by done. rewrite Hb. simpl.
      repeat split; try done.
      * rewrite Hch, Hrl. rewrite decide_False by done. by rewrite app_nil_r.
      * rewrite voxels_of_snoc, Hr, Hvox. simpl. by rewrite app_assoc.
    + congruence.
    + intros c. rewrite voxels_of_snoc, Hr. simpl.
      intros [Hc|Hc]%elem_of_app.
      * destruct (Hw c Hc) as (s & Hs & Hv). exists s. split; [done|].
        destruct (decide (Exists (λ c', norm_coord im1 c' = Ok s) (voxels r)))
          as [(c' & Hc' & Hs')%Exists_exists|Hno].
        -- destruct (Hw2 c' Hc') as (s' & Hs'' & Hv'). congruence.
        -- rewrite Hk2; [done|]. intros c' Hc' Hs'. apply Hno.
           apply Exists_exists. eauto.
      * destruct (Hw2 c Hc) as (s & Hs & Hv). exists s.
        by rewrite <- (norm_coord_dims _ _ c Hd).
    + intros s Hs. rewrite Hk2.
      * apply Hk. intros c Hc. apply Hs. rewrite voxels_of_snoc.
        set_solver.
      * intros c Hc. rewrite (norm_coord_dims _ _ _ Hd). apply Hs.
        rewrite voxels_of_snoc, Hr. set_solver.
Qed.


(** ** The touching structures *)

Lemma replace_by_ancestor_Ok anc a r :
  replace_by_ancestor anc a = Ok r ↔
  (anc !! a = Some None ∧ r = a) ∨ anc !! a = Some (Some r).
Proof.
  unfold replace_by_ancestor. rewrite bind_Ok. split.
  - intros ([p|] & Hp%dict_get_Ok & [= <-]); eauto.
  - intros [[Ha ->]|Ha]; eexists; (split; [by apply dict_get_Ok|done]).
Qed.

Lemma replace_by_ancestor_root anc a r :
  flat anc → replace_by_ancestor anc a = Ok r → is_root anc r.
Proof.
  intros Hflat [[? ->]|Ha]%replace_by_ancestor_Ok; [done|].
  by apply (Hflat a).
Qed.

Section Adjacent.
Context `{PyRuntime}.

Lemma find_adjacent_Ok st c adjacent :
  find_adjacent st c = Ok adjacent →
  NoDup adjacent ∧
  ∀ r, r ∈ adjacent ↔
       ∃ c' v, c' ∈ indices_adjacent c ∧
               array_get (index_map st) c' = Ok v ∧ v ≠ 0 ∧
               replace_by_ancestor (ancestor st) v = Ok r.
Proof.
  unfold find_adjacent. intros Hf.
  apply bind_Ok in Hf as (vals & Hvals & Hf).
  apply bind_Ok in Hf as (adj & Hadj & Hf). injection Hf as <-.
  apply list_comp_Ok in Hvals, Hadj.
  split; [apply set_to_list_NoDup|].
  intros r. rewrite set_to_list_elem. split.
  - intros Hr. apply list_elem_of_lookup in Hr as [n Hn].
    destruct (Forall2_lookup_r _ _ _ _ _ Hadj Hn) as (v & Hv & Hrep).
    apply list_elem_of_lookup_2 in Hv.
    apply list_elem_of_filter in Hv as [Hv0 Hv].
    apply list_elem_of_lookup in Hv as [n' Hn'].
    destruct (Forall2_lookup_r _ _ _ _ _ Hvals Hn') as (c' & Hc' & Hget).
    apply list_elem_of_lookup_2 in Hc'. eauto 10.
  - intros (c' & v & Hc' & Hget & Hv0 & Hrep).
    apply list_elem_of_lookup in Hc' as [n Hn].
    destruct (Forall2_lookup_l _ _ _ _ _ Hvals Hn) as (v' & Hv' & Hget').
    assert (v' = v) as -> by congruence.
    apply list_elem_of_lookup_2 in Hv'.
    assert (v ∈ filter (λ v, v ≠ 0) vals) as Hvf
      by (by apply list_elem_of_filter).
    apply list_elem_of_lookup in Hvf as [n' Hn'].
    destruct (Forall2_lookup_l _ _ _ _ _ Hadj Hn') as (r' & Hr' & Hrep').
    assert (r' = r) as -> by congruence.
    by apply list_elem_of_lookup_2 in Hr'.
Qed.

Lemma find_adjacent_roots st c adjacent :
  flat (ancestor st) → find_adjacent st c = Ok adjacent →
  ∀ r, r ∈ adjacent → is_root (ancestor st) r.
Proof.
  intros Hflat [_ Hadj]%find_adjacent_Ok r (c' & v & _ & _ & _ & Hrep)%Hadj.
  by eapply replace_by_ancestor_root.
Qed.
End Adjacent.

(** ** Reparenting *)

Lemma reparent_lookup idx anc j k :
  reparent idx anc j !! k =
  if decide (k = j) then Some (Some idx)
  else (λ v, if decide (v = Some j) then Some idx else v) <$> anc !! k.
Proof.
  unfold reparent. rewrite lookup_fmap. case_decide as Hk.
  - subst. rewrite lookup_insert_eq. simpl. by case_decide.
  - by rewrite lookup_insert_ne.
Qed.

Lemma foldl_reparent_lookup idx sig anc k :
  foldl (reparent idx) anc sig !! k =
  if decide (k ∈ sig) then Some (Some idx)
  else (λ v, match v with
             | Some j => if decide (j ∈ sig) then Some idx else v
             | None => None
             end) <$> anc !! k.
Proof.
  revert anc. induction sig as [|j sig IH]; intros anc.
  - simpl. by destruct (anc !! k) as [[p|]|].
  - simpl. rewrite IH, reparent_lookup.
    destruct (decide (k ∈ sig)) as [Hk|Hk].
    { by rewrite decide_True by set_solver. }
    destruct (decide (k = j)) as [->|Hkj].
    { rewrite decide_True by set_solver. simpl. by case_decide. }
    rewrite decide_False by set_solver.
    destruct (anc !! k) as [[p|]|]; simpl; try done.
    destruct (decide (Some p = Some j)) as [[= ->]|Hpj].
    + rewrite (decide_True (P := j ∈ j :: sig)) by set_solver.
      by case_decide.
    + destruct (decide (p ∈ sig)).
      * by rewrite decide_True by set_solver.
      * rewrite decide_False; [done|]. set_solver.
Qed.

(** ** The kinds of outcome *)

Lemma insignificant_Leaf minimum_npix minimum_delta it flux :
  insignificant minimum_npix minimum_delta it flux = true → typ it = Leaf.
Proof.
  unfold insignificant. intros [Ht _]%andb_prop. by apply bool_decide_eq_true in Ht.
Qed.

Lemma partition_adjacent_Ok minimum_npix minimum_delta its adjacent flux
    merge sig :
  NoDup adjacent →
  partition_adjacent minimum_npix minimum_delta its adjacent flux merge sig →
  merge = filter (λ k, touching_insignificant minimum_npix minimum_delta
                         its flux k = true) adjacent ∧
  sig = filter (λ k, touching_insignificant minimum_npix minimum_delta
                       its flux k ≠ true) adjacent ∧
  leaves_of its merge ∧ NoDup sig ∧
  (∀ k, k ∈ adjacent → is_Some (its !! k)) ∧
  (∀ k, k ∈ sig → k ∉ merge).
Proof.
  intros Hnd [Hfm Hrm].
  apply find_merge_Ok in Hfm as (Hdom & Hmerge).
  apply remove_merges_Ok in Hrm as (Hsub & Hndm & Hsig); [|done].
  split; [done|].
  assert (sig = filter (λ k, touching_insignificant minimum_npix
            minimum_delta its flux k ≠ true) adjacent) as Hsig'.
  { rewrite Hsig. apply filter_ext_elem. intros k Hk. rewrite Hmerge.
    rewrite list_elem_of_filter. naive_solver. }
  split; [done|]. split; [|split; [|split; [done|]]].
  - split; [done|]. intros m Hm. rewrite Hmerge in Hm.
    apply list_elem_of_filter in Hm as [Hm _].
    unfold touching_insignificant in Hm.
    destruct (its !! m) as [r|]; [|done]. exists r. split; [done|].
    by eapply insignificant_Leaf.
  - rewrite Hsig. by apply NoDup_filter.
  - intros k Hk. rewrite Hsig in Hk.
    by apply list_elem_of_filter in Hk as [? _].
Qed.

Lemma outcome_kinds minimum_npix minimum_delta st i c flux adjacent st' :
  NoDup adjacent →
  outcome minimum_npix minimum_delta st i c flux adjacent st' →
  (adjacent = [] ∧ starts_leaf st i c flux st') ∨
  (∃ idx ms, joins st c flux idx ms st' ∧ idx ∈ adjacent ∧ ms ⊆ adjacent ∧
             (idx ∉ ms) ∧ leaves_of (items st) ms) ∨
  (∃ sig ms, starts_branch st i c flux sig ms st' ∧ (2 ≤ length sig)%nat ∧
             sig ⊆ adjacent ∧ NoDup sig ∧ ms ⊆ adjacent ∧
             (∀ k, k ∈ sig → k ∉ ms) ∧ leaves_of (items st) ms).
Proof.
  intros Hnd [[-> Hl]|[(idx & -> & Hj)|(merge & sig & Hlen & Hpart & Hcase)]].
  - by left.
  - right; left. exists idx, []. split; [done|].
    split; [set_solver|]. split; [set_solver|]. split; [set_solver|].
    split; [constructor|set_solver].
  - destruct (partition_adjacent_Ok _ _ _ _ _ _ _ Hnd Hpart)
      as (Hmerge & Hsig & [Hndm Hleaves] & Hnds & Hdom & Hdisj).
    assert (merge ⊆ adjacent) as Hsubm.
    { intros k. rewrite Hmerge. by intros [_ ?]%list_elem_of_filter. }
    assert (sig ⊆ adjacent) as Hsubs.
    { intros k. rewrite Hsig. by intros [_ ?]%list_elem_of_filter. }
    destruct Hcase as [(idx & rest & -> & -> & Hj)|
                       [(idx & -> & Hj)|(Hsiglen & Hb)]].
    + right; left. exists idx, rest. split; [done|].
      apply NoDup_cons in Hndm as [Hidx Hndr].
      split; [set_solver|]. split; [set_solver|]. split; [done|].
      split; [done|]. intros m Hm. apply Hleaves. set_solver.
    + right; left. exists idx, merge. split; [done|].
      split; [set_solver|]. split; [done|]. split; [|done].
      apply Hdisj. set_solver.
    + right; right. exists sig, merge. done.
Qed.


(** ** The invariant of the scan *)

Lemma astype_int32_small v : - 2 ^ 31 ≤ v < 2 ^ 31 → astype_int32 v = v.
Proof. intros Hv. unfold astype_int32. rewrite Z.mod_small; lia. Qed.

Lemma voxels_of_insert_ne its idx b ms :
  idx ∉ ms → voxels_of (<[idx := b]> its) ms = voxels_of its ms.
Proof.
  intros Hidx. unfold voxels_of. induction ms as [|m ms IH]; [done|].
  simpl. rewrite lookup_insert_ne by set_solver. f_equal. apply IH.
  set_solver.
Qed.

(** What [absorbs] does to the table and to the index map. *)
Lemma absorbs_Ok st c idx b0 ms its' im' :
  leaves_of (items st) ms → idx ∉ ms →
  absorbs st c idx b0 ms its' im' →
  ∃ s, norm_coord (index_map st) c = Ok s ∧
    (∀ m, m ∈ ms → its' !! m = None) ∧
    (∀ k, k ∉ ms → k ≠ idx → its' !! k = items st !! k) ∧
    (∃ b, its' !! idx = Some b ∧ typ b = typ b0 ∧ idx_of b = idx_of b0 ∧
          seed b = seed b0 ∧ children b = children b0 ∧
          voxels b = voxels b0 ++ voxels_of (items st) ms) ∧
    dims im' = dims (index_map st) ∧
    cells im' !! s = Some (astype_int32 idx) ∧
    (∀ c', c' ∈ voxels_of (items st) ms →
           ∃ s', norm_coord (index_map st) c' = Ok s' ∧
                 cells im' !! s' = Some (astype_int32 idx)) ∧
    (∀ s', s' ≠ s →
           (∀ c', c' ∈ voxels_of (items st) ms →
                  norm_coord (index_map st) c' ≠ Ok s') →
           cells im' !! s' = cells (index_map st) !! s').
Proof.
  intros [Hnd Hleaves] Hidx (im0 & Hset & Hloop).
  apply array_set_Ok in Hset as (s & Hs & ->).
  apply (merge_loop_Ok idx ms _ _ _ _ b0) in Hloop
    as (Hpop & Hkeep & Hb & Hd & Hw & Hk); [|done|done| |].
  2: by rewrite lookup_insert_eq.
  2: { intros m r Hm. rewrite lookup_insert_ne by set_solver.
       intros Hr. destruct (Hleaves m Hm) as (r' & Hr' & ?). congruence. }
  rewrite voxels_of_insert_ne in Hb, Hw, Hk by done. simpl in *.
  exists s. split; [done|]. split; [intros m Hm; by apply Hpop|].
  split.
  { intros k Hk1 Hk2. rewrite Hkeep by done. by rewrite lookup_insert_ne. }
  split; [done|]. split; [done|].
  assert (∀ c', norm_coord
            {| dims := dims (index_map st);
               cells := <[s:=astype_int32 idx]> (cells (index_map st)) |} c'
          = norm_coord (index_map st) c') as Hnorm
    by (intros c'; by apply norm_coord_dims).
  split; [|split].
  - destruct (decide (Exists (λ c', norm_coord (index_map st) c' = Ok s)
                       (voxels_of (items st) ms)))
      as [(c' & Hc' & Hs')%Exists_exists|Hno].
    + destruct (Hw c' Hc') as (s' & Hs'' & Hv). rewrite Hnorm in Hs''.
      congruence.
    + rewrite Hk; [by rewrite lookup_insert_eq|].
      intros c' Hc'. rewrite Hnorm. intros Hs'. apply Hno.
      apply Exists_exists. eauto.
  - intros c' Hc'. destruct (Hw c' Hc') as (s' & Hs' & Hv).
    rewrite Hnorm in Hs'. eauto.
  - intros s' Hs' Hno. rewrite Hk; [by rewrite lookup_insert_ne|].
    intros c' Hc'. rewrite Hnorm. by apply Hno.
Qed.

(** [absorbs] cannot fail on leaves whose voxels can be indexed. *)
Lemma absorbs_total st c idx b0 ms :
  leaves_of (items st) ms → idx ∉ ms →
  is_Ok (norm_coord (index_map st) c) →
  (∀ c', c' ∈ voxels_of (items st) ms →
         is_Ok (norm_coord (index_map st) c')) →
  ∃ its' im', absorbs st c idx b0 ms its' im'.
Proof.
  intros [Hnd Hleaves] Hidx [s Hs] Hvox. unfold absorbs, array_set.
  rewrite Hs. simpl.
  set (im0 := {| dims := dims (index_map st);
                 cells := <[s:=astype_int32 idx]> (cells (index_map st)) |}).
  destruct (for_each_total (λ done_ '(its1, im1),
              dims im1 = dims (index_map st) ∧
              ∀ k, k ∉ done_ → k ≠ idx → its1 !! k = items st !! k)
            (merge_onto idx) ms (<[idx:=b0]> (items st), im0))
    as ([its' im'] & Hrun & _).
  - split; [done|]. intros k _ ?. by rewrite lookup_insert_ne.
  - intros done_ m rest [its1 im1] Hms [Hd Hkeep].
    assert (m ∈ ms) as Hm by (rewrite Hms; set_solver).
    assert (m ∉ done_) as Hmd.
    { rewrite Hms in Hnd. apply NoDup_app in Hnd as (_ & Hnd & _).
      intros Hin. apply (Hnd m Hin). set_solver. }
    assert (m ≠ idx) as Hmi by (intros ->; done).
    destruct (Hleaves m Hm) as (r & Hr & _).
    unfold merge_onto, dict_pop. rewrite Hkeep, Hr by done. simpl.
    destruct (add_footprint_total r im1 (astype_int32 idx)) as [im2 Him2].
    { intros c' Hc'. rewrite (norm_coord_dims _ (index_map st)) by done.
      apply Hvox. apply elem_of_voxels_of. eauto. }
    rewrite Him2. simpl. eexists (_, _). split; [done|].
    apply add_footprint_Ok in Him2 as (Hd2 & _). split; [congruence|].
    intros k Hk1 Hk2. rewrite lookup_alter_ne by done.
    rewrite lookup_delete_ne by set_solver. apply Hkeep; set_solver.
  - exists its', im', im0. done.
Qed.


(** ** The ancestor table *)

Lemma flat_insert_root anc idx :
  flat anc → anc !! idx = None → flat (<[idx := None]> anc).
Proof.
  intros Hflat Hidx k p. destruct (decide (k = idx)) as [->|Hk].
  - by rewrite lookup_insert_eq.
  - rewrite lookup_insert_ne by done. intros Hkp.
    pose proof (Hflat k p Hkp) as Hp.
    rewrite lookup_insert_ne; [done|]. intros ->. congruence.
Qed.

(** The ancestor table after a branch [idx] is made over the roots
    [sig] (lines 239 and 254-258). *)
Lemma reparent_roots anc idx sig :
  flat anc → anc !! idx = None → (∀ k, k ∈ sig → is_root anc k) →
  let anc' := foldl (reparent idx) (<[idx := None]> anc) sig in
  flat anc' ∧
  anc' !! idx = Some None ∧
  (∀ k, is_Some (anc' !! k) ↔ k = idx ∨ is_Some (anc !! k)) ∧
  (∀ k, k ∈ sig → anc' !! k = Some (Some idx)) ∧
  (∀ k j, j ∈ sig → anc !! k = Some (Some j) → anc' !! k = Some (Some idx)) ∧
  (∀ k, k ∉ sig → k ≠ idx → (∀ j, anc !! k = Some (Some j) → j ∉ sig) →
        anc' !! k = anc !! k).
Proof.
  intros Hflat Hidx Hroots anc'.
  assert (idx ∉ sig) as Hidxs.
  { intros Hin. apply Hroots in Hin. unfold is_root in Hin. congruence. }
  assert (∀ k, anc' !! k =
    if decide (k ∈ sig) then Some (Some idx)
    else if decide (k = idx) then Some None
    else match anc !! k with
         | Some (Some j) => if decide (j ∈ sig) then Some (Some idx)
                            else Some (Some j)
         | o => o
         end) as Hlk.
  { intros k. unfold anc'. rewrite foldl_reparent_lookup.
    case_decide; [done|]. case_decide as Hk.
    - subst. by rewrite lookup_insert_eq.
    - rewrite lookup_insert_ne by done.
      destruct (anc !! k) as [[j|]|]; simpl; try done. by case_decide. }
  assert (anc' !! idx = Some None) as Hidx'.
  { rewrite Hlk, decide_False, decide_True; done. }
  split; [|split; [done|split; [|split; [|split]]]].
  - intros k p. rewrite (Hlk k).
    case_decide as Hks; [by intros [= <-]|].
    case_decide as Hki; [done|].
    destruct (anc !! k) as [[j|]|] eqn:Hk; try done.
    case_decide as Hj; [by intros [= <-]|]. intros [= <-].
    pose proof (Hflat k j Hk) as Hjr. rewrite (Hlk j).
    rewrite decide_False by done.
    rewrite decide_False by (intros ->; congruence). by rewrite Hjr.
  - intros k. rewrite (Hlk k). case_decide as Hks.
    + split; [|by eauto]. intros _. right. rewrite (Hroots k Hks). eauto.
    + case_decide as Hki; [subst; split; eauto|].
      destruct (anc !! k) as [[j|]|]; [case_decide|..]; split; try eauto;
        intros [?|?]; done.
  - intros k Hk. by rewrite (Hlk k), decide_True.
  - intros k j Hj Hkj. rewrite (Hlk k).
    case_decide; [done|]. rewrite decide_False by (intros ->; congruence).
    by rewrite Hkj, decide_True.
  - intros k Hks Hki Hkj. rewrite (Hlk k), !decide_False by done.
    destruct (anc !! k) as [[j|]|]; try done.
    by rewrite decide_False by (by apply Hkj).
Qed.

Lemma processed_snoc coords pre i c :
  processed coords pre c → processed coords (pre ++ [i]) c.
Proof. intros (j & ? & ?). exists j. set_solver. Qed.

Lemma processed_last coords pre i c :
  coords !! i = Some c → processed coords (pre ++ [i]) c.
Proof. intros ?. exists i. set_solver. Qed.

Lemma leaves_of_nil its : leaves_of its [].
Proof. split; [constructor|set_solver]. Qed.

Section Invariant.
Context `{PyRuntime}.
Variable shape3 : coord.
Variable coords : list coord.
Hypothesis coords_in_cube : ∀ c, c ∈ coords → in_cube shape3 c.
Hypothesis coords_NoDup : NoDup coords.

#[local] Abbreviation coords_int32 := (Z.of_nat (length coords) < 2 ^ 31).

#[local] Abbreviation scan_inv := (scan_inv shape3 coords).
#[local] Abbreviation processed := (processed coords).

Lemma processed_in_cube pre c : processed pre c → in_cube shape3 c.
Proof.
  intros (i & _ & Hi). apply coords_in_cube.
  by eapply list_elem_of_lookup_2.
Qed.

Lemma unprocessed pre i c :
  i ∉ pre → coords !! i = Some c → ¬ processed pre c.
Proof.
  intros Hi Hc (j & Hj & Hcj).
  assert (i = j) by (by eapply NoDup_lookup). by subst.
Qed.

(** The ids in use are one more than a processed position, hence
    positive and representable in the index map. *)
Lemma inv_id pre st k :
  scan_inv pre st → is_Some (ancestor st !! k) →
  ∃ i, i ∈ pre ∧ k = Z.of_nat i + 1.
Proof.
  intros Hinv Hk. apply (inv_anc_dom _ _ _ _ Hinv) in Hk.
  destruct (inv_issued _ _ _ _ Hinv) as (l & Hl & Hiss).
  rewrite Hiss in Hk. apply list_elem_of_fmap in Hk as (i & -> & Hi).
  exists i. split; [|done]. by eapply elem_of_sublist.
Qed.

Lemma next_idx_int32 i c :
  coords_int32 → coords !! i = Some c →
  0 < Z.of_nat i + 1 < 2 ^ 31 ∧
  astype_int32 (Z.of_nat i + 1) = Z.of_nat i + 1.
Proof.
  intros Hsize Hc%lookup_lt_Some.
  assert (0 < Z.of_nat i + 1 < 2 ^ 31) by lia.
  split; [done|]. apply astype_int32_small. lia.
Qed.

Lemma position_int32 pre st i :
  coords_int32 → scan_inv pre st → i ∈ pre →
  0 < Z.of_nat i + 1 < 2 ^ 31 ∧
  astype_int32 (Z.of_nat i + 1) = Z.of_nat i + 1.
Proof.
  intros Hsize Hinv Hi. destruct (inv_pre _ _ _ _ Hinv i Hi) as [c Hc].
  by eapply next_idx_int32.
Qed.

Lemma inv_id_int32 pre st k :
  coords_int32 → scan_inv pre st → is_Some (ancestor st !! k) →
  0 < k < 2 ^ 31 ∧ astype_int32 k = k.
Proof.
  intros Hsize Hinv (i & Hi & ->)%(inv_id pre st); [|done].
  by eapply position_int32.
Qed.

Lemma inv_fresh pre st i :
  scan_inv pre st → i ∉ pre →
  ancestor st !! (Z.of_nat i + 1) = None ∧
  items st !! (Z.of_nat i + 1) = None.
Proof.
  intros Hinv Hi.
  assert (ancestor st !! (Z.of_nat i + 1) = None) as Ha.
  { apply eq_None_not_Some. intros (j & Hj & Hij)%(inv_id pre st); [|done].
    assert (i = j) by lia. by subst. }
  split; [done|]. apply eq_None_not_Some.
  intros Hit%(inv_items_dom _ _ _ _ Hinv). rewrite Ha in Hit.
  by destruct Hit.
Qed.

Lemma inv_voxels_of pre st ms c :
  scan_inv pre st → c ∈ voxels_of (items st) ms → processed pre c.
Proof.
  intros Hinv (m & r & _ & Hr & Hc)%elem_of_voxels_of.
  by eapply (inv_voxels _ _ _ _ Hinv).
Qed.

(** The cells after [absorbs], for voxels of the cube. *)
Lemma absorbs_cells pre st c idx b0 ms its' im' :
  scan_inv pre st → in_cube shape3 c →
  leaves_of (items st) ms → idx ∉ ms →
  absorbs st c idx b0 ms its' im' →
  ∀ s, cells im' !! s =
       if decide (s = c ∨ s ∈ voxels_of (items st) ms)
       then Some (astype_int32 idx)
       else cells (index_map st) !! s.
Proof.
  intros Hinv Hc Hleaves Hidx Habs.
  destruct (absorbs_Ok _ _ _ _ _ _ _ Hleaves Hidx Habs)
    as (s0 & Hs0 & _ & _ & _ & _ & Hcs & Hw & Hk).
  rewrite (norm_coord_in_cube shape3) in Hs0
    by (done || apply (inv_dims _ _ _ _ Hinv)).
  injection Hs0 as <-.
  assert (∀ c', c' ∈ voxels_of (items st) ms →
                norm_coord (index_map st) c' = Ok c') as Hnorm.
  { intros c' Hc'. apply (norm_coord_in_cube shape3).
    - apply (inv_dims _ _ _ _ Hinv).
    - eapply processed_in_cube, inv_voxels_of; done. }
  intros s. case_decide as Hs.
  - destruct Hs as [->|Hs]; [done|].
    destruct (Hw s Hs) as (s' & Hs' & Hv). rewrite Hnorm in Hs' by done.
    by injection Hs' as <-.
  - apply Hk; [tauto|]. intros c' Hc'. rewrite Hnorm by done.
    intros [= ->]. tauto.
Qed.

(** The data part of the invariant, for every kind of outcome. *)
Lemma absorbs_inv pre st i c idx b0 ms its' im' :
  scan_inv pre st → i ∉ pre → coords !! i = Some c →
  leaves_of (items st) ms → idx ∉ ms →
  (coords_int32 → astype_int32 idx = idx) →
  (∀ c', c' ∈ voxels b0 → c' = c ∨ processed pre c') →
  (coords_int32 → typ b0 = Leaf →
   ∀ c', c' ∈ voxels b0 →
         c' = c ∨ cells (index_map st) !! c' = Some idx) →
  absorbs st c idx b0 ms its' im' →
  dims im' = padded shape3 ∧
  (∀ s v, cells im' !! s = Some v → processed (pre ++ [i]) s) ∧
  (∀ k it c', its' !! k = Some it → c' ∈ voxels it →
              processed (pre ++ [i]) c') ∧
  (∀ k, is_Some (its' !! k) → k = idx ∨ is_Some (items st !! k)) ∧
  (coords_int32 →
   ∀ k it c', its' !! k = Some it → typ it = Leaf → c' ∈ voxels it →
              cells im' !! c' = Some k).
Proof.
  intros Hinv Hi Hc Hleaves Hidx Hid HV HL Habs.
  assert (in_cube shape3 c) as Hcube
    by (by eapply coords_in_cube, list_elem_of_lookup_2).
  pose proof (absorbs_cells _ _ _ _ _ _ _ _ Hinv Hcube Hleaves Hidx Habs)
    as Hcells.
  destruct (absorbs_Ok _ _ _ _ _ _ _ Hleaves Hidx Habs)
    as (s0 & _ & Hpop & Hkeep & (b & Hb & Hty & _ & _ & _ & Hvox) & Hd & _).
  split; [by rewrite Hd, (inv_dims _ _ _ _ Hinv)|].
  split; [|split; [|split]].
  - intros s v. rewrite Hcells. case_decide as Hs.
    + intros _. destruct Hs as [->|Hs]; [by apply processed_last|].
      eapply processed_snoc, inv_voxels_of; done.
    + intros Hv. eapply processed_snoc, (inv_cells _ _ _ _ Hinv); done.
  - intros k it c' Hk Hc'. destruct (decide (k = idx)) as [->|Hki].
    + assert (it = b) as -> by congruence. rewrite Hvox in Hc'.
      apply elem_of_app in Hc' as [Hc'|Hc'].
      * destruct (HV c' Hc') as [->|?];
          [by apply processed_last|by apply processed_snoc].
      * eapply processed_snoc, inv_voxels_of; done.
    + destruct (decide (k ∈ ms)) as [Hkm|Hkm];
        [by rewrite Hpop in Hk|].
      rewrite Hkeep in Hk by done.
      eapply processed_snoc, (inv_voxels _ _ _ _ Hinv); done.
  - intros k Hk. destruct (decide (k = idx)) as [->|Hki]; [by left|].
    right. destruct (decide (k ∈ ms)) as [Hkm|Hkm].
    + rewrite Hpop in Hk by done. by destruct Hk.
    + by rewrite Hkeep in Hk.
  - intros Hsize k it c' Hk Hleaf Hc'. rewrite Hcells.
    destruct (decide (k = idx)) as [->|Hki].
    + assert (it = b) as -> by congruence. rewrite Hvox in Hc'.
      rewrite Hid by done. case_decide as Hs; [done|].
      apply elem_of_app in Hc' as [Hc'|Hc']; [|tauto].
      rewrite Hty in Hleaf. destruct (HL Hsize Hleaf c' Hc'); [tauto|done].
    + destruct (decide (k ∈ ms)) as [Hkm|Hkm];
        [by rewrite Hpop in Hk|].
      rewrite Hkeep in Hk by done.
      pose proof (inv_leaf_cells _ _ _ _ Hinv Hsize k it c' Hk Hleaf Hc')
        as Hv.
      rewrite decide_False; [done|]. intros [Heq|Hs].
      * subst c'. eapply (unprocessed pre i c); [done..|].
        by eapply (inv_cells _ _ _ _ Hinv).
      * apply elem_of_voxels_of in Hs as (m & r & Hm & Hr & Hcr).
        destruct Hleaves as [_ Hleaves].
        destruct (Hleaves m Hm) as (r' & Hr' & Hrl).
        assert (r' = r) as -> by congruence.
        pose proof (inv_leaf_cells _ _ _ _ Hinv Hsize m r c' Hr Hrl Hcr).
        congruence.
Qed.
Lemma voxel_eq (c : coord) : (c.1.1, c.1.2, c.2) = c.
Proof. by destruct c as [[??]?]. Qed.

(** The invariant after a voxel started a leaf. *)
Lemma starts_leaf_inv pre st i c flux st' :
  scan_inv pre st → i ∉ pre → coords !! i = Some c →
  starts_leaf st i c flux st' → scan_inv (pre ++ [i]) st'.
Proof.
  intros Hinv Hi Hc (im & Hset & ->).
  destruct (inv_fresh pre st i Hinv Hi) as [Hfa Hfi].
  set (idx := Z.of_nat i + 1) in *.
  destruct (absorbs_inv pre st i c idx
              (new_Leaf c.2 c.1.2 c.1.1 flux idx) []
              (<[idx := new_Leaf c.2 c.1.2 c.1.1 flux idx]> (items st)) im)
    as (Hd & Hcells & Hvox & Hdom & Hleaf); try done.
  { apply leaves_of_nil. }
  { set_solver. }
  { intros Hsize. by apply (next_idx_int32 i c). }
  { simpl. rewrite voxel_eq. set_solver. }
  { simpl. rewrite voxel_eq. set_solver. }
  { by exists im. }
  destruct (inv_issued _ _ _ _ Hinv) as (l & Hl & Hiss).
  split; simpl; try done.
  - intros j [Hj| ->%list_elem_of_singleton]%elem_of_app;
      [by apply (inv_pre _ _ _ _ Hinv)|eauto].
  - exists (l ++ [i]). split; [by apply sublist_app|].
    by rewrite fmap_app, Hiss.
  - intros k. rewrite elem_of_app, list_elem_of_singleton.
    rewrite <- (inv_anc_dom _ _ _ _ Hinv).
    destruct (decide (k = idx)) as [->|Hk].
    + rewrite lookup_insert_eq. split; eauto.
    + rewrite lookup_insert_ne by done. tauto.
  - apply flat_insert_root; [apply (inv_flat _ _ _ _ Hinv)|done].
  - intros k Hk. destruct (Hdom k Hk) as [->|Hk'].
    + rewrite lookup_insert_eq. eauto.
    + rewrite lookup_insert_ne by (intros <-; rewrite Hfi in Hk';
        by destruct Hk').
      by apply (inv_items_dom _ _ _ _ Hinv).
Qed.

(** The invariant after a voxel joined a structure. *)
Lemma joins_inv pre st i c flux idx ms st' :
  scan_inv pre st → i ∉ pre → coords !! i = Some c →
  leaves_of (items st) ms → idx ∉ ms →
  joins st c flux idx ms st' → scan_inv (pre ++ [i]) st'.
Proof.
  intros Hinv Hi Hc Hleaves Hidx (it & im0 & its & im & Hit & Hset & Hloop & ->).
  assert (is_Some (ancestor st !! idx)) as Hanc
    by (apply (inv_items_dom _ _ _ _ Hinv); eauto).
  destruct (absorbs_inv pre st i c idx
              (add_point it c.2 c.1.2 c.1.1 flux) ms its im)
    as (Hd & Hcells & Hvox & Hdom & Hleaf); try done.
  { intros Hsize. by apply (inv_id_int32 pre st idx). }
  { simpl. rewrite voxel_eq.
    intros c' [Hc'| ->%list_elem_of_singleton]%elem_of_app;
      [right|by left]. by eapply (inv_voxels _ _ _ _ Hinv). }
  { simpl. rewrite voxel_eq.
    intros Hsize Hty c' [Hc'| ->%list_elem_of_singleton]%elem_of_app;
      [right|by left]. by eapply (inv_leaf_cells _ _ _ _ Hinv). }
  { by exists im0. }
  destruct (inv_issued _ _ _ _ Hinv) as (l & Hl & Hiss).
  split; simpl; try done.
  - intros j [Hj| ->%list_elem_of_singleton]%elem_of_app;
      [by apply (inv_pre _ _ _ _ Hinv)|eauto].
  - exists l. split; [|done]. by apply sublist_inserts_r.
  - apply (inv_anc_dom _ _ _ _ Hinv).
  - apply (inv_flat _ _ _ _ Hinv).
  - intros k Hk. destruct (Hdom k Hk) as [->|Hk']; [done|].
    by apply (inv_items_dom _ _ _ _ Hinv).
Qed.

(** The invariant after a voxel started a branch. *)
Lemma starts_branch_inv pre st i c flux sig ms st' :
  scan_inv pre st → i ∉ pre → coords !! i = Some c →
  leaves_of (items st) ms →
  (∀ k, k ∈ sig → is_root (ancestor st) k) →
  starts_branch st i c flux sig ms st' → scan_inv (pre ++ [i]) st'.
Proof.
  intros Hinv Hi Hc Hleaves Hroots (im0 & its & im & Hsig & Hset & Hloop & ->).
  destruct (inv_fresh pre st i Hinv Hi) as [Hfa Hfi].
  set (idx := Z.of_nat i + 1) in *.
  assert (idx ∉ ms) as Hidx.
  { intros Hin. destruct Hleaves as [_ Hleaves].
    destruct (Hleaves idx Hin) as (r & Hr & _). congruence. }
  destruct (absorbs_inv pre st i c idx
              (new_Branch sig c.2 c.1.2 c.1.1 flux idx) ms its im)
    as (Hd & Hcells & Hvox & Hdom & Hleaf); try done.
  { intros Hsize. by apply (next_idx_int32 i c). }
  { simpl. rewrite voxel_eq. set_solver. }
  { by exists im0. }
  destruct (reparent_roots (ancestor st) idx sig)
    as (Hflat & Hidx' & Hadom & _); [apply (inv_flat _ _ _ _ Hinv)|done..|].
  destruct (inv_issued _ _ _ _ Hinv) as (l & Hl & Hiss).
  split; simpl; try done.
  - intros j [Hj| ->%list_elem_of_singleton]%elem_of_app;
      [by apply (inv_pre _ _ _ _ Hinv)|eauto].
  - exists (l ++ [i]). split; [by apply sublist_app|].
    by rewrite fmap_app, Hiss.
  - intros k. rewrite Hadom, elem_of_app, list_elem_of_singleton.
    rewrite <- (inv_anc_dom _ _ _ _ Hinv). tauto.
  - intros k Hk. apply Hadom. destruct (Hdom k Hk) as [->|Hk']; [by left|].
    right. by apply (inv_items_dom _ _ _ _ Hinv).
Qed.

Variable flux_values : list float.
Variable minimum_npix : Z.
Variable minimum_delta : float.

#[local] Abbreviation step :=
  (step flux_values coords minimum_npix minimum_delta).
#[local] Abbreviation scan_from :=
  (scan_from flux_values coords minimum_npix minimum_delta).

(** One iteration keeps the invariant. *)
Lemma step_inv pre st i st' :
  scan_inv pre st → i ∉ pre → step st i = Ok st' →
  scan_inv (pre ++ [i]) st'.
Proof.
  intros Hinv Hi (flux & c & adjacent & Hf & Hc & Hadj & Hout)%step_outcome.
  pose proof (find_adjacent_roots st c adjacent (inv_flat _ _ _ _ Hinv) Hadj)
    as Hroots.
  apply find_adjacent_Ok in Hadj as [Hnd _].
  apply outcome_kinds in Hout
    as [[_ Hl]|[(idx & ms & Hj & _ & _ & Hidx & Hleaves)|
                (sig & ms & Hb & _ & Hsig & _ & _ & _ & Hleaves)]]; [| | |done].
  - by apply (starts_leaf_inv pre st i c flux st').
  - by apply (joins_inv pre st i c flux idx ms st').
  - apply (starts_branch_inv pre st i c flux sig ms st'); try done.
    intros k Hk. by apply Hroots, Hsig.
Qed.

Lemma initial_inv : scan_inv [] (initial_state shape3).
Proof.
  split; simpl; try done.
  - set_solver.
  - exists []. split; [done|done].
  - intros k. rewrite lookup_empty. split; [by intros []|set_solver].
  - intros k. rewrite lookup_empty. by intros [].
Qed.

(** The invariant holds after any run of the main loop over distinct
    positions. *)
Lemma scan_from_inv pre st :
  NoDup pre → scan_from (initial_state shape3) pre = Ok st →
  scan_inv pre st.
Proof.
  intros Hnd Hrun.
  apply (for_each_ind (λ done_ st1, scan_inv done_ st1)) in Hrun;
    [done|apply initial_inv|].
  intros done_ i rest st1 st2 Hpre Hinv Hstep.
  eapply step_inv; [done| |done].
  rewrite Hpre in Hnd. apply NoDup_app in Hnd as (_ & Hnd & _).
  intros Hin. apply (Hnd i Hin). set_solver.
Qed.
End Invariant.


(** ** The filtered voxels *)

Lemma elem_of_kept data minimum_flux k v :
  (k, v) ∈ kept data minimum_flux ↔
  ravel data !! k = Some v ∧ (minimum_flux <? v)%float = true.
Proof.
  unfold kept. rewrite list_elem_of_filter. unfold keep. simpl.
  rewrite list_elem_of_lookup. split.
  - intros (Hv & n & Hn). rewrite list_lookup_imap in Hn.
    destruct (ravel data !! n) as [w|] eqn:E; [|done].
    injection Hn as <- <-. done.
  - intros (Hk & Hv). split; [done|]. exists k.
    by rewrite list_lookup_imap, Hk.
Qed.

Lemma imap_pair_fst {A} (l : list A) : (imap pair l).*1 = seq 0 (length l).
Proof.
  apply list_eq. intros n. rewrite list_lookup_fmap, list_lookup_imap.
  destruct (l !! n) as [a|] eqn:E; simpl.
  - symmetry. apply lookup_seq. split; [done|]. by eapply lookup_lt_Some.
  - symmetry. apply lookup_seq_ge. by apply lookup_ge_None.
Qed.

Lemma kept_fst_sublist data minimum_flux :
  (kept data minimum_flux).*1 `sublist_of` seq 0 (length (ravel data)).
Proof.
  rewrite <- imap_pair_fst. unfold kept. apply fmap_sublist, sublist_filter.
Qed.

Lemma kept_fst_NoDup data minimum_flux : NoDup (kept data minimum_flux).*1.
Proof.
  eapply sublist_NoDup; [apply NoDup_seq|apply kept_fst_sublist].
Qed.

Lemma kept_fst_lt data minimum_flux k :
  k ∈ (kept data minimum_flux).*1 → (k < length (ravel data))%nat.
Proof.
  intros Hk. eapply elem_of_sublist in Hk; [|apply kept_fst_sublist].
  apply elem_of_seq in Hk. lia.
Qed.

Lemma length_flux_values_of data minimum_flux :
  length (flux_values_of data minimum_flux) = length (kept data minimum_flux).
Proof. unfold flux_values_of. by rewrite length_fmap. Qed.

Lemma length_coords_of shape3 data minimum_flux :
  length (coords_of shape3 data minimum_flux)
  = length (kept data minimum_flux).
Proof. unfold coords_of. by rewrite !length_fmap. Qed.

Lemma length_kept data minimum_flux :
  (length (kept data minimum_flux) ≤ length (ravel data))%nat.
Proof.
  unfold kept. etrans; [apply length_filter|]. by rewrite length_imap.
Qed.

(** No NaN passes the filter. *)
Lemma flux_values_no_nan data minimum_flux :
  no_nan (flux_values_of data minimum_flux).
Proof.
  apply Forall_forall. intros v Hv. unfold flux_values_of in Hv.
  apply list_elem_of_fmap in Hv as ([k v'] & -> & Hkv).
  apply elem_of_kept in Hkv as [_ Hlt]. by eapply ltb_not_nan.
Qed.

(** ** Linear indices and coordinates *)

Lemma unravel_index_in_cube nz ny nx k :
  0 ≤ nz → 0 ≤ ny → 0 ≤ nx →
  0 ≤ Z.of_nat k < nz * ny * nx →
  in_cube (nz, ny, nx) (unravel_index (nz, ny, nx) k).
Proof.
  intros Hz0 Hy0 Hx0 Hk. unfold in_cube, unravel_index. simpl.
  assert (0 < nz ∧ 0 < ny ∧ 0 < nx) as (Hz & Hy & Hx) by nia.
  assert (0 < ny * nx) as Hyx by (by apply Z.mul_pos_pos).
  split; [|split].
  - split; [apply Z.div_pos; lia|]. apply Z.div_lt_upper_bound; [done|].
    rewrite (Z.mul_comm _ nz), Z.mul_assoc. lia.
  - apply Z.mod_pos_bound. lia.
  - apply Z.mod_pos_bound. lia.
Qed.

Lemma unravel_index_inj nz ny nx k1 k2 :
  0 < ny → 0 < nx →
  unravel_index (nz, ny, nx) k1 = unravel_index (nz, ny, nx) k2 → k1 = k2.
Proof.
  intros Hy Hx. unfold unravel_index. intros [= Hz Hyy Hxx].
  rewrite (Z.mul_comm ny nx), <- !Z.div_div in Hz by lia.
  pose proof (Z.div_mod (Z.of_nat k1) nx ltac:(lia)).
  pose proof (Z.div_mod (Z.of_nat k2) nx ltac:(lia)).
  pose proof (Z.div_mod (Z.of_nat k1 / nx) ny ltac:(lia)).
  pose proof (Z.div_mod (Z.of_nat k2 / nx) ny ltac:(lia)).
  assert (Z.of_nat k1 / nx = Z.of_nat k2 / nx) by congruence.
  assert (Z.of_nat k1 = Z.of_nat k2) by congruence. lia.
Qed.

Lemma recast_size data n shape3 :
  recast data = Ok (n, shape3) →
  Z.of_nat (size_of (shape data)) = shape3.1.1 * shape3.1.2 * shape3.2 ∧
  (0 ≤ shape3.1.1 ∧ 0 ≤ shape3.1.2 ∧ 0 ≤ shape3.2) ∧
  (n = 2 ∨ n = 3) ∧ (n = 2 → shape3.1.1 = 1).
Proof.
  unfold recast. destruct (shape data) as [|a [|b [|c [|d l]]]]; try done.
  - intros [= <- <-]. simpl. split; [lia|]. split; [lia|].
    split; [by left|done].
  - intros [= <- <-]. simpl. split; [lia|]. split; [lia|].
    split; [by right|done].
Qed.

Section Input.
Context `{PyRuntime}.
Variable data : ndarray.
Variable n : Z.
Variable shape3 : coord.
Variable minimum_flux : float.
Hypothesis data_wf : well_formed data.
Hypothesis data_recast : recast data = Ok (n, shape3).

#[local] Abbreviation coords := (coords_of shape3 data minimum_flux).
#[local] Abbreviation flux_values := (flux_values_of data minimum_flux).

Lemma coords_of_in_cube c : c ∈ coords → in_cube shape3 c.
Proof.
  unfold coords_of. intros (k & -> & Hk)%list_elem_of_fmap.
  apply kept_fst_lt in Hk. rewrite data_wf in Hk.
  destruct (recast_size _ _ _ data_recast) as (Hsz & (? & ? & ?) & _).
  destruct shape3 as [[nz ny] nx]. simpl in *.
  apply unravel_index_in_cube; lia.
Qed.

Lemma coords_of_NoDup : NoDup coords.
Proof.
  unfold coords_of. apply NoDup_fmap_2_strong; [|apply kept_fst_NoDup].
  intros k1 k2 Hk1 Hk2 Heq.
  apply kept_fst_lt in Hk1. rewrite data_wf in Hk1.
  destruct (recast_size _ _ _ data_recast) as (Hsz & (? & ? & ?) & _).
  destruct shape3 as [[nz ny] nx]. simpl in *.
  apply (unravel_index_inj nz ny nx); [nia|nia|done].
Qed.

Lemma coords_of_int32 :
  Z.of_nat (length (ravel data)) < 2 ^ 31 →
  Z.of_nat (length coords) < 2 ^ 31.
Proof.
  intros Hlen. rewrite length_coords_of.
  pose proof (length_kept data minimum_flux). lia.
Qed.

Lemma scan_order_Permutation :
  scan_order flux_values ≡ₚ seq 0 (length flux_values).
Proof.
  unfold scan_order. rewrite reverse_Permutation. apply argsort_perm.
Qed.

Lemma scan_order_NoDup : NoDup (scan_order flux_values).
Proof. rewrite scan_order_Permutation. apply NoDup_seq. Qed.

(** The invariant holds at every head of the main loop. *)
Lemma reaches_inv minimum_npix minimum_delta pre st :
  reaches data minimum_flux minimum_npix minimum_delta shape3 pre st →
  NoDup pre ∧ scan_inv shape3 coords pre st.
Proof.
  intros (post & Hord & Hrun).
  assert (NoDup pre) as Hnd.
  { pose proof scan_order_NoDup as Hnd. rewrite Hord in Hnd.
    by apply NoDup_app in Hnd as (? & _). }
  split; [done|].
  eapply scan_from_inv; try done.
  - apply coords_of_in_cube.
  - apply coords_of_NoDup.
Qed.
End Input.


(** ** The concrete runtime meets the contract *)

Lemma insert_position_Permutation l i s : insert_position l i s ≡ₚ i :: s.
Proof.
  induction s as [|j s IH]; simpl; [done|].
  destruct (flux_at l j <? flux_at l i)%float; [|done].
  rewrite IH. apply Permutation_swap.
Qed.

Lemma insertion_fold_Permutation l s : foldr (insert_position l) [] s ≡ₚ s.
Proof.
  induction s as [|i s IH]; [done|].
  simpl. by rewrite insert_position_Permutation, IH.
Qed.

Lemma insertion_argsort_Permutation l :
  insertion_argsort l ≡ₚ seq 0 (length l).
Proof. apply insertion_fold_Permutation. Qed.

Lemma insert_position_sorted l i s :
  (∀ j, j ∈ i :: s → is_nan (flux_at l j) = false) →
  StronglySorted (λ a b, (flux_at l a <=? flux_at l b)%float = true) s →
  StronglySorted (λ a b, (flux_at l a <=? flux_at l b)%float = true)
                 (insert_position l i s).
Proof.
  intros Hnan Hs. induction Hs as [|j s Hs IH Hj]; simpl.
  - repeat constructor.
  - destruct (flux_at l j <? flux_at l i)%float eqn:Hlt.
    + constructor; [apply IH; intros k Hk; apply Hnan; set_solver|].
      apply Forall_forall. intros k Hk.
      rewrite insert_position_Permutation in Hk.
      apply elem_of_cons in Hk as [->|Hk]; [by apply ltb_leb|].
      by apply (proj1 (Forall_forall _ _) Hj).
    + assert ((flux_at l i <=? flux_at l j)%float = true) as Hij.
      { apply leb_total; [apply Hnan; set_solver..|done]. }
      constructor; [by constructor|].
      constructor; [done|]. apply Forall_forall. intros k Hk.
      eapply leb_trans; [done|]. by apply (proj1 (Forall_forall _ _) Hj).
Qed.

Lemma insertion_argsort_sorted l :
  no_nan l →
  StronglySorted (λ a b, (flux_at l a <=? flux_at l b)%float = true)
                 (insertion_argsort l).
Proof.
  intros Hnan. unfold insertion_argsort.
  assert (∀ j, j ∈ seq 0 (length l) → is_nan (flux_at l j) = false) as Hin.
  { intros j Hj%elem_of_seq. unfold flux_at.
    apply (proj1 (Forall_forall _ _) Hnan).
    apply list_elem_of_In, nth_In. lia. }
  induction (seq 0 (length l)) as [|i s IH]; simpl; [constructor|].
  apply insert_position_sorted.
  - intros j Hj. apply Hin. rewrite insertion_fold_Permutation in Hj.
    set_solver.
  - apply IH. intros j Hj. apply Hin. set_solver.
Qed.

Lemma slot_order_Permutation l : slot_order l ≡ₚ remove_dups l.
Proof. unfold slot_order. apply merge_sort_Permutation. Qed.

Lemma slot_order_NoDup l : NoDup (slot_order l).
Proof. rewrite slot_order_Permutation. apply NoDup_remove_dups. Qed.

Lemma slot_order_elem l x : x ∈ slot_order l ↔ x ∈ l.
Proof. rewrite slot_order_Permutation. apply elem_of_remove_dups. Qed.

Lemma slot_order_elements_elem (s : gset Z) k :
  k ∈ slot_order (elements s) ↔ k ∈ s.
Proof. rewrite slot_order_elem. apply elem_of_elements. Qed.

(** numpy and CPython on small inputs. *)
#[global] Instance small_runtime : PyRuntime := {|
  argsort := insertion_argsort;
  argsort_perm := insertion_argsort_Permutation;
  argsort_sorted := insertion_argsort_sorted;
  set_to_list := slot_order;
  set_to_list_NoDup := slot_order_NoDup;
  set_to_list_elem := slot_order_elem;
  dict_keys := λ s, slot_order (elements s);
  dict_keys_NoDup := λ s, slot_order_NoDup (elements s);
  dict_keys_elem := slot_order_elements_elem
|}.


(** ** The classification of the merge case (claim C1) *)

(** C1. During the per-voxel scan, in the multi-way merge case, the
    touching structure [i] is classified as insignificant (it enters the
    list [merge] of lines 155-160) if and only if [items[i]] is a Leaf
    and ([items[i].npix < minimum_npix] or
    [items[i].fmax - flux < minimum_delta]); a Branch is never classified
    as insignificant. *)
Theorem C1_insignificant_iff (minimum_npix : Z) (minimum_delta : float)
    (its : gmap Z item) (adjacent : list Z) (flux : float) (merge : list Z) :
  find_merge minimum_npix minimum_delta its adjacent flux = Ok merge →
  (∀ i, i ∈ merge ↔
        i ∈ adjacent ∧
        ∃ it, its !! i = Some it ∧ typ it = Leaf ∧
              (npix it < minimum_npix ∨
               (fmax it - flux <? minimum_delta)%float = true)) ∧
  (∀ i it, its !! i = Some it → typ it = Branch → i ∉ merge).
Proof.
  intros (Hdom & ->)%find_merge_Ok.
  assert (∀ i, i ∈ filter (λ k, touching_insignificant minimum_npix
                 minimum_delta its flux k = true) adjacent ↔
               i ∈ adjacent ∧
               ∃ it, its !! i = Some it ∧ typ it = Leaf ∧
                     (npix it < minimum_npix ∨
                      (fmax it - flux <? minimum_delta)%float = true)) as Hiff.
  { intros i. rewrite list_elem_of_filter.
    unfold touching_insignificant, insignificant. split.
    - intros [Hi Hin]. split; [done|].
      destruct (its !! i) as [it|]; [|done]. exists it. split; [done|].
      apply andb_prop in Hi as [Ht Hc]. apply bool_decide_eq_true in Ht.
      split; [done|]. apply orb_prop in Hc as [Hn|Hd]; [left|by right].
      by apply Z.ltb_lt.
    - intros (Hin & it & -> & Ht & Hc). split; [|done].
      apply andb_true_intro. split; [by apply bool_decide_eq_true|].
      apply orb_true_intro. destruct Hc as [Hn|Hd]; [left|by right].
      by apply Z.ltb_lt. }
  split; [done|].
  intros i it Hit Hbr (_ & it' & Hit' & Hleaf & _)%Hiff. congruence.
Qed.

Lemma C1_insignificant_iff_witness :
  (∀ i, i ∈ [1] ↔
        i ∈ [1; 2] ∧
        ∃ it, example_items !! i = Some it ∧ typ it = Leaf ∧
              (npix it < 2 ∨ (fmax it - 1 <? 0)%float = true)) ∧
  (∀ i it, example_items !! i = Some it → typ it = Branch → i ∉ [1]).
Proof.
  apply (C1_insignificant_iff 2 0%float example_items [1; 2] 1%float [1]).
  vm_compute. reflexivity.
Defined.

(** ** The post-pass prune (claim C2) *)

Section Prune.
Context `{PyRuntime}.
Variable minimum_npix : Z.
Variable minimum_delta : float.

#[local] Abbreviation prunable := (prunable minimum_npix minimum_delta).

Lemma find_remove_total its :
  ∃ remove, find_remove minimum_npix minimum_delta its = Ok remove ∧
            NoDup remove ∧
            ∀ k, k ∈ remove ↔
                 ∃ it, its !! k = Some it ∧ prunable it = true.
Proof.
  unfold find_remove.
  set (f := λ idx : Z, it ← dict_get its idx; Ok (idx, prunable it)).
  assert (∀ k, k ∈ dict_keys (dom its) →
               ∃ it, its !! k = Some it ∧ f k = Ok (k, prunable it)) as Hf.
  { intros k Hk%dict_keys_elem. apply elem_of_dom in Hk as [it Hit].
    exists it. split; [done|]. unfold f, dict_get. by rewrite Hit. }
  destruct (list_comp_total f (dict_keys (dom its))) as [ps Hps].
  { intros k Hk. destruct (Hf k Hk) as (it & _ & Hfk). by eexists. }
  fold f. rewrite Hps. simpl. eexists. split; [done|].
  apply list_comp_Ok in Hps.
  assert (ps.*1 = dict_keys (dom its)) as Hfst.
  { apply list_eq. intros n. rewrite list_lookup_fmap.
    destruct (dict_keys (dom its) !! n) as [k|] eqn:Hk.
    - destruct (Forall2_lookup_l _ _ _ _ _ Hps Hk) as (p & -> & Hp).
      destruct (Hf k) as (it & _ & Hfk); [by eapply list_elem_of_lookup_2|].
      rewrite Hfk in Hp. by injection Hp as <-.
    - apply Forall2_length in Hps. apply lookup_ge_None in Hk.
      rewrite (proj2 (lookup_ge_None ps n)); [done|lia]. }
  split.
  - eapply sublist_NoDup; [apply (dict_keys_NoDup (dom its))|].
    rewrite <- Hfst. apply fmap_sublist, sublist_filter.
  - intros k. rewrite list_elem_of_fmap. split.
    + intros ([k' b] & -> & [Hb Hp]%list_elem_of_filter). simpl in *.
      apply list_elem_of_lookup in Hp as [n Hn].
      destruct (Forall2_lookup_r _ _ _ _ _ Hps Hn) as (k & Hk & Hfk).
      destruct (Hf k) as (it & Hit & Hfk');
        [by eapply list_elem_of_lookup_2|].
      rewrite Hfk' in Hfk. injection Hfk as <- <-. eauto.
    + intros (it & Hit & Hp).
      assert (k ∈ dict_keys (dom its)) as Hk
        by (apply dict_keys_elem, elem_of_dom; eauto).
      apply list_elem_of_lookup in Hk as [n Hn].
      destruct (Forall2_lookup_l _ _ _ _ _ Hps Hn) as (p & Hpn & Hfk).
      destruct (Hf k) as (it' & Hit' & Hfk');
        [by eapply list_elem_of_lookup_2|].
      assert (it' = it) as -> by congruence.
      rewrite Hfk' in Hfk. injection Hfk as <-.
      exists (k, prunable it). split; [done|].
      apply list_elem_of_filter. split; [done|].
      by eapply list_elem_of_lookup_2.
Qed.

(** Step 2 removes every Leaf that fails the test, and nothing else;
    it never fails. The ancestor table plays no part in it. *)
Lemma prune_total its :
  ∃ its', prune minimum_npix minimum_delta its = Ok its' ∧
          ∀ k, its' !! k =
               match its !! k with
               | Some it => if prunable it then None else Some it
               | None => None
               end.
Proof.
  destruct (find_remove_total its) as (remove & Hrem & Hnd & Helem).
  unfold prune. rewrite Hrem. simpl.
  destruct (for_each_total
              (λ done_ its1, ∀ k, its1 !! k =
                 if decide (k ∈ done_) then None else its !! k)
              (λ its1 idx, snd <$> dict_pop its1 idx) remove its)
    as (its' & Hrun & Hpost).
  - intros k. by rewrite decide_False by set_solver.
  - intros done_ m rest its1 Hrest Hlk.
    assert (m ∉ done_) as Hmd.
    { rewrite Hrest in Hnd. apply NoDup_app in Hnd as (_ & Hnd & _).
      intros Hin. apply (Hnd m Hin). set_solver. }
    destruct (proj1 (Helem m)) as (it & Hit & _);
      [rewrite Hrest; set_solver|].
    unfold dict_pop. rewrite Hlk, decide_False, Hit by done. simpl.
    eexists. split; [done|]. intros k.
    destruct (decide (k = m)) as [->|Hkm].
    + rewrite lookup_delete_eq. by rewrite decide_True by set_solver.
    + rewrite lookup_delete_ne, Hlk by done.
      destruct (decide (k ∈ done_)).
      * by rewrite decide_True by set_solver.
      * by rewrite decide_False by set_solver.
  - exists its'. split; [done|]. intros k. rewrite Hpost.
    case_decide as Hk.
    + apply Helem in Hk as (it & -> & ->). done.
    + destruct (its !! k) as [it|] eqn:Hit; [|done].
      destruct (prunable it) eqn:Hp; [|done]. destruct Hk.
      apply Helem. eauto.
Qed.
End Prune.


(** C2 (the code departs from the claim). On the row [5, 1, 5] with
    [minimum_delta = 3] the two leaves, of ids 1 and 3, become the
    children of the branch of id 2: they are not roots
    ([ancestor[1] = ancestor[3] = 2]). Step 2 removes both from the
    table all the same, because their [fmax - fmin] is 0: the loop of
    lines 265-269 tests [type(item) == Leaf] and never looks at
    [ancestor]. *)
Theorem C2_prune_removes_child_leaves :
  ∃ st its,
    scan (1, 1, 3) two_peaks neg_infinity 0 3%float = Ok st ∧
    prune 0 3%float (items st) = Ok its ∧
    ancestor st !! 1 = Some (Some 2) ∧ ancestor st !! 3 = Some (Some 2) ∧
    (typ <$> items st !! 1) = Some Leaf ∧ (typ <$> items st !! 3) = Some Leaf ∧
    (children <$> items st !! 2) = Some [1; 3] ∧
    its !! 1 = None ∧ its !! 3 = None ∧ (typ <$> its !! 2) = Some Branch.
Proof.
  eexists. eexists.
  split; [vm_compute; reflexivity|].
  split; [vm_compute; reflexivity|].
  repeat split; vm_compute; reflexivity.
Qed.

(** ** Structure ids (claim C5) *)

Section Ids.
Context `{PyRuntime}.
Variable flux_values : list float.
Variable coords : list coord.
Variable minimum_npix : Z.
Variable minimum_delta : float.

Lemma step_issued st i st' :
  step flux_values coords minimum_npix minimum_delta st i = Ok st' →
  issued st' = issued st ∨ issued st' = issued st ++ [Z.of_nat i + 1].
Proof.
  intros (flux & c & adjacent & _ & _ & _ & Hout)%step_outcome.
  destruct Hout as [[_ (im & _ & ->)]|[(idx & _ & Hj)|
                    (merge & sig & _ & _ & Hcase)]].
  - by right.
  - destruct Hj as (? & ? & ? & ? & _ & _ & _ & ->). by left.
  - destruct Hcase as [(idx & rest & _ & _ & Hj)|[(idx & _ & Hj)|[_ Hb]]].
    + destruct Hj as (? & ? & ? & ? & _ & _ & _ & ->). by left.
    + destruct Hj as (? & ? & ? & ? & _ & _ & _ & ->). by left.
    + destruct Hb as (? & ? & ? & _ & _ & _ & ->). by right.
Qed.

Lemma scan_from_issued st0 pre st :
  scan_from flux_values coords minimum_npix minimum_delta st0 pre = Ok st →
  ∃ l, l `sublist_of` pre ∧
       issued st = issued st0 ++ ((λ i, Z.of_nat i + 1) <$> l).
Proof.
  intros Hrun.
  apply (for_each_ind (λ done_ st1,
    ∃ l, l `sublist_of` done_ ∧
         issued st1 = issued st0 ++ ((λ i, Z.of_nat i + 1) <$> l)))
    in Hrun; [done| |].
  - exists []. split; [done|]. by rewrite app_nil_r.
  - intros done_ i rest st1 st2 _ (l & Hl & Hiss) Hstep.
    apply step_issued in Hstep as [->| ->].
    + exists l. split; [by apply sublist_inserts_r|done].
    + exists (l ++ [i]). split; [by apply sublist_app|].
      by rewrite Hiss, fmap_app, app_assoc.
Qed.
End Ids.

(** C5 (as amended). Every structure id assigned during construction
    is a positive integer, never 0, and is never reused for a second
    structure; it is one more than the position, in the filtered
    row-major list, of the voxel whose processing created the
    structure. In [issued st], the ids in creation order, all elements
    are positive and distinct, and they are the successors of a
    subsequence of the positions processed so far. *)
Theorem C5_ids_positive_unique `{PyRuntime} (data : ndarray)
    (minimum_flux : float) (minimum_npix : Z) (minimum_delta : float)
    (shape3 : coord) (pre : list nat) (st : state) :
  reaches data minimum_flux minimum_npix minimum_delta shape3 pre st →
  Forall (λ k, 0 < k) (issued st) ∧
  NoDup (issued st) ∧
  ∃ l, l `sublist_of` pre ∧ issued st = (λ i, Z.of_nat i + 1) <$> l.
Proof.
  intros (post & Hord & Hrun).
  apply scan_from_issued in Hrun as (l & Hl & Hiss). simpl in Hiss.
  assert (NoDup l) as Hnd.
  { eapply sublist_NoDup; [|done].
    pose proof (scan_order_NoDup data minimum_flux) as Hnd.
    rewrite Hord in Hnd. by apply NoDup_app in Hnd as (? & _). }
  rewrite Hiss. split; [|split; [|eauto]].
  - apply Forall_forall. intros k (i & -> & _)%list_elem_of_fmap. lia.
  - apply NoDup_fmap_2; [|done]. intros i j. lia.
Qed.

Lemma C5_ids_positive_unique_witness :
  ∃ st, reaches rising_peaks neg_infinity 0 0%float (1, 1, 3)
                [2; 0; 1]%nat st ∧
        Forall (λ k, 0 < k) (issued st) ∧ NoDup (issued st) ∧
        ∃ l, l `sublist_of` [2; 0; 1]%nat ∧
             issued st = (λ i, Z.of_nat i + 1) <$> l.
Proof.
  assert (∃ st, reaches rising_peaks neg_infinity 0 0%float (1, 1, 3)
                        [2; 0; 1]%nat st) as [st Hst].
  { eexists. exists []. split; vm_compute; reflexivity. }
  exists st. split; [done|].
  exact (C5_ids_positive_unique rising_peaks neg_infinity 0 0%float
           (1, 1, 3) [2; 0; 1]%nat st Hst).
Defined.

(** C5 as stated fails: on the row [3, 1, 5] the leaf of the peak 5 is
    created first and gets the id 3, the leaf of the peak 3 comes next
    with the id 1, and the branch at the saddle gets the id 2. The ids
    do not increase in creation order. *)
Lemma C5_ids_not_increasing :
  ∃ st, scan (1, 1, 3) rising_peaks neg_infinity 0 0%float = Ok st ∧
        issued st = [3; 1; 2] ∧ ¬ increasing (issued st).
Proof.
  eexists. split; [vm_compute; reflexivity|].
  split; [vm_compute; reflexivity|].
  intros Hinc. specialize (Hinc 0%nat 1%nat 3 1).
  assert (3 < 1); [|lia]. apply Hinc; [lia|vm_compute; reflexivity..].
Qed.

(** ** The ancestor table is flat (claim C10) *)

Lemma resolve_chain_flat anc a fuel :
  flat anc → (1 ≤ fuel)%nat →
  ∀ r, replace_by_ancestor anc a = Ok r ↔ resolve_chain fuel anc a = Some r.
Proof.
  intros Hflat Hfuel r. rewrite replace_by_ancestor_Ok.
  destruct fuel as [|fuel]; [lia|]. simpl.
  destruct (anc !! a) as [[p|]|] eqn:Ha.
  - pose proof (Hflat a p Ha) as Hp.
    assert (resolve_chain fuel anc p = Some p) as ->.
    { destruct fuel; simpl; by rewrite Hp. }
    naive_solver.
  - naive_solver.
  - naive_solver.
Qed.

(** C10. Throughout Step 1 (at the head of every iteration of the main
    loop) the ancestor table is flat: for every id [k] with
    [ancestor[k]] not None, [ancestor[ancestor[k]]] is None. So the
    one-step replacement of lines 105-108 gives the same id as
    following the ancestor chain to its end. *)
Theorem C10_ancestor_flat `{PyRuntime} (data : ndarray) (n : Z)
    (shape3 : coord) (minimum_flux : float) (minimum_npix : Z)
    (minimum_delta : float) (pre : list nat) (st : state) :
  well_formed data → recast data = Ok (n, shape3) →
  reaches data minimum_flux minimum_npix minimum_delta shape3 pre st →
  flat (ancestor st) ∧
  ∀ a r fuel, (1 ≤ fuel)%nat →
    replace_by_ancestor (ancestor st) a = Ok r ↔
    resolve_chain fuel (ancestor st) a = Some r.
Proof.
  intros Hwf Hrc Hreach.
  destruct (reaches_inv data n shape3 minimum_flux Hwf Hrc _ _ _ _ Hreach)
    as [_ Hinv].
  pose proof (inv_flat _ _ _ _ Hinv) as Hflat.
  split; [done|]. intros a r fuel Hfuel. by apply resolve_chain_flat.
Qed.

Lemma C10_ancestor_flat_witness :
  ∃ st, reaches two_peaks neg_infinity 0 3%float (1, 1, 3) [2; 0; 1]%nat st ∧
        ancestor st !! 1 = Some (Some 2) ∧
        flat (ancestor st) ∧
        ∀ a r fuel, (1 ≤ fuel)%nat →
          replace_by_ancestor (ancestor st) a = Ok r ↔
          resolve_chain fuel (ancestor st) a = Some r.
Proof.
  assert (∃ st, reaches two_peaks neg_infinity 0 3%float (1, 1, 3)
                        [2; 0; 1]%nat st ∧
                ancestor st !! 1 = Some (Some 2)) as (st & Hst & Ha).
  { eexists. split; [exists []; split; vm_compute; reflexivity|].
    vm_compute. reflexivity. }
  exists st. split; [done|]. split; [done|].
  apply (C10_ancestor_flat two_peaks 2 (1, 1, 3) neg_infinity 0 3%float
           [2; 0; 1]%nat st); [reflexivity|reflexivity|done].
Defined.


(** ** Neighbour reads on the padded index map (claim C8) *)

Lemma on_sentinel_not_in_cube shape3 s :
  on_sentinel shape3 s → ¬ in_cube shape3 s.
Proof. unfold on_sentinel, in_cube. lia. Qed.

(** C8. Throughout Step 1 no cell of the sentinel planes of the padded
    index map has been written, and for every voxel [c] of the cube
    each of the six neighbour reads is an in-bounds access of the padded
    array; a neighbour that lies outside the cube is read at a cell of
    the sentinel planes, and the value read is 0. *)
Theorem C8_neighbour_reads `{PyRuntime} (data : ndarray) (n : Z)
    (shape3 : coord) (minimum_flux : float) (minimum_npix : Z)
    (minimum_delta : float) (pre : list nat) (st : state) :
  well_formed data → recast data = Ok (n, shape3) →
  reaches data minimum_flux minimum_npix minimum_delta shape3 pre st →
  (∀ s, on_sentinel shape3 s → cells (index_map st) !! s = None) ∧
  ∀ c c', in_cube shape3 c → c' ∈ indices_adjacent c →
    ∃ s v, norm_coord (index_map st) c' = Ok s ∧
           array_get (index_map st) c' = Ok v ∧
           (0 ≤ s.1.1 < (dims (index_map st)).1.1 ∧
            0 ≤ s.1.2 < (dims (index_map st)).1.2 ∧
            0 ≤ s.2 < (dims (index_map st)).2) ∧
           (¬ in_cube shape3 c' → on_sentinel shape3 s ∧ v = 0).
Proof.
  intros Hwf Hrc Hreach.
  destruct (reaches_inv data n shape3 minimum_flux Hwf Hrc _ _ _ _ Hreach)
    as [_ Hinv].
  pose proof (inv_dims _ _ _ _ Hinv) as Hd.
  assert (∀ s, on_sentinel shape3 s → cells (index_map st) !! s = None)
    as Hsent.
  { intros s Hs. apply eq_None_not_Some. intros [v Hv].
    apply (inv_cells _ _ _ _ Hinv) in Hv.
    eapply on_sentinel_not_in_cube; [done|].
    eapply processed_in_cube; [|done].
    by apply (coords_of_in_cube data n). }
  split; [done|]. intros c c' Hc Hc'.
  destruct (neighbour_cell shape3 (index_map st) c c' Hd Hc Hc')
    as (s & Hs & Hcase).
  exists s, (default 0 (cells (index_map st) !! s)).
  split; [done|]. split; [unfold array_get; by rewrite Hs|].
  split.
  - rewrite Hd, padded_eq. simpl.
    destruct Hcase as [[(? & ? & ?) ->]|[_ (? & ? & ? & _)]]; lia.
  - intros Hout. destruct Hcase as [[? _]|[_ Hs']]; [done|].
    split; [done|]. by rewrite Hsent.
Qed.

Lemma C8_neighbour_reads_witness :
  ∃ st, reaches two_peaks neg_infinity 0 3%float (1, 1, 3) [2; 0; 1]%nat st ∧
        (∀ s, on_sentinel (1, 1, 3) s → cells (index_map st) !! s = None) ∧
        ∀ c c', in_cube (1, 1, 3) c → c' ∈ indices_adjacent c →
          ∃ s v, norm_coord (index_map st) c' = Ok s ∧
                 array_get (index_map st) c' = Ok v ∧
                 (0 ≤ s.1.1 < (dims (index_map st)).1.1 ∧
                  0 ≤ s.1.2 < (dims (index_map st)).1.2 ∧
                  0 ≤ s.2 < (dims (index_map st)).2) ∧
                 (¬ in_cube (1, 1, 3) c' → on_sentinel (1, 1, 3) s ∧ v = 0).
Proof.
  assert (∃ st, reaches two_peaks neg_infinity 0 3%float (1, 1, 3)
                        [2; 0; 1]%nat st) as [st Hst].
  { eexists. exists []. split; vm_compute; reflexivity. }
  exists st. split; [done|].
  apply (C8_neighbour_reads two_peaks 2 (1, 1, 3) neg_infinity 0 3%float
           [2; 0; 1]%nat st); [reflexivity|reflexivity|done].
Defined.

(** ** The filter and the order of the scan (claim C4) *)

Lemma StronglySorted_reverse {A} (R : relation A) (l : list A) :
  StronglySorted R l → StronglySorted (flip R) (reverse l).
Proof.
  induction 1 as [|x l Hl IH Hx]; [rewrite reverse_nil; constructor|].
  rewrite reverse_cons. apply StronglySorted_app_2; [|done|repeat constructor].
  intros a b Ha ->%list_elem_of_singleton. unfold flip.
  rewrite elem_of_reverse in Ha. by apply (proj1 (Forall_forall _ _) Hx).
Qed.

(** C4 (as amended). Step 0 selects exactly the cells whose value is
    strictly greater than [minimum_flux], in row-major order; no
    NaN is selected, because NaN fails the [>] comparison. The main
    loop visits each selected voxel once, in the order
    [np.argsort(flux_values)[::-1]], along which the values never
    increase. Equal values come in the reverse of the order [argsort]
    gives them, so no tie-break by ascending linear index is applied. *)
Theorem C4_filter_and_order `{PyRuntime} (data : ndarray)
    (minimum_flux : float) (minimum_npix : Z) (minimum_delta : float)
    (shape3 : coord) :
  let flux_values := flux_values_of data minimum_flux in
  (∀ k v, (k, v) ∈ kept data minimum_flux ↔
          ravel data !! k = Some v ∧ (minimum_flux <? v)%float = true) ∧
  (∀ k v, (k, v) ∈ kept data minimum_flux → is_nan v = false) ∧
  (kept data minimum_flux).*1 `sublist_of` seq 0 (length (ravel data)) ∧
  scan_order flux_values = reverse (argsort flux_values) ∧
  scan_order flux_values ≡ₚ seq 0 (length flux_values) ∧
  StronglySorted (λ i j, (flux_at flux_values j <=? flux_at flux_values i)%float
                         = true)
                 (scan_order flux_values) ∧
  scan shape3 data minimum_flux minimum_npix minimum_delta
  = for_each (step flux_values (coords_of shape3 data minimum_flux)
                   minimum_npix minimum_delta)
             (scan_order flux_values) (initial_state shape3).
Proof.
  intros flux_values.
  split; [apply elem_of_kept|].
  split.
  { intros k v [_ Hlt]%elem_of_kept. by eapply ltb_not_nan. }
  split; [apply kept_fst_sublist|].
  split; [done|].
  split; [apply scan_order_Permutation|].
  split; [|done].
  apply (StronglySorted_reverse
           (λ i j, (flux_at flux_values i <=? flux_at flux_values j)%float
                   = true)).
  apply argsort_sorted, flux_values_no_nan.
Qed.

(** C4 as stated fails: on the plateau [3, 3] the stable sort of numpy
    gives [argsort = [0, 1]], which the loop reverses: the voxel of
    linear index 1 is visited before the voxel of linear index 0. *)
Lemma C4_ties_not_by_linear_index :
  scan_order (flux_values_of plateau neg_infinity) = [1; 0]%nat ∧
  kept plateau neg_infinity = [(0%nat, 3%float); (1%nat, 3%float)] ∧
  ¬ ties_by_linear_index (kept plateau neg_infinity)
      (scan_order (flux_values_of plateau neg_infinity)).
Proof.
  split; [vm_compute; reflexivity|]. split; [vm_compute; reflexivity|].
  intros Hties.
  specialize (Hties 0%nat 1%nat 1%nat 0%nat 1%nat 0%nat 3%float).
  assert (1 < 0)%nat; [|lia].
  apply Hties; [lia|vm_compute; reflexivity..].
Qed.

(** ** The empty input (claim C7) *)

Lemma kept_nil data minimum_flux :
  (∀ v, v ∈ ravel data → (minimum_flux <? v)%float = false) →
  kept data minimum_flux = [].
Proof.
  intros Hnone. apply elem_of_nil_inv. intros [k v] [Hk Hv]%elem_of_kept.
  apply list_elem_of_lookup_2 in Hk. rewrite Hnone in Hv; done.
Qed.

Section Empty.
Context `{PyRuntime}.

Lemma argsort_nil : argsort [] = [].
Proof. apply Permutation_nil_r. apply (argsort_perm []). Qed.

Lemma dict_keys_empty : dict_keys ∅ = [].
Proof.
  apply elem_of_nil_inv. intros k Hk%dict_keys_elem. set_solver.
Qed.

(** The constructor on an input without any voxel above the
    threshold. *)
Lemma compute_empty data minimum_flux minimum_npix minimum_delta n shape3 :
  recast data = Ok (n, shape3) →
  kept data minimum_flux = [] →
  _compute data minimum_flux minimum_npix minimum_delta
  = Ok {| n_dim := n; data_of := data;
          index_map_of := zeros (padded shape3);
          item_type_map := zeros shape3; trunk := [] |}.
Proof.
  intros Hrc Hkept. unfold _compute. rewrite Hrc. simpl.
  unfold scan, flux_values_of, coords_of, scan_order.
  rewrite Hkept. simpl. rewrite argsort_nil. simpl.
  unfold prune, find_remove. rewrite dom_empty_L, dict_keys_empty. simpl.
  unfold make_trunk, make_item_type_map.
  rewrite dom_empty_L, dict_keys_empty. done.
Qed.
End Empty.

(** C7. When no voxel of the input satisfies [flux > minimum_flux],
    the constructor succeeds (it raises no error) and returns an empty
    dendrogram: the trunk is empty, and the index map and the item-type
    map hold 0 everywhere. *)
Theorem C7_empty_input `{PyRuntime} (data : ndarray) (minimum_flux : float)
    (minimum_npix : Z) (minimum_delta : float) :
  is_Ok (recast data) →
  (∀ v, v ∈ ravel data → (minimum_flux <? v)%float = false) →
  ∃ d, _compute data minimum_flux minimum_npix minimum_delta = Ok d ∧
       trunk d = [] ∧
       cells (index_map_of d) = ∅ ∧ cells (item_type_map d) = ∅ ∧
       (∀ c v, view_get (n_dim d) (index_map_of d) c = Ok v → v = 0) ∧
       (∀ c v, view_get (n_dim d) (item_type_map d) c = Ok v → v = 0).
Proof.
  intros [[n shape3] Hrc] Hnone.
  eexists. split.
  { apply compute_empty; [done|by apply kept_nil]. }
  simpl. repeat split; try done.
  all: intros c v; unfold view_get, array_get;
    repeat case_match; try done; intros Hv;
    apply bind_Ok in Hv as (s & _ & Hv); injection Hv as <-;
    by rewrite lookup_empty.
Qed.

Lemma C7_empty_input_witness :
  ∃ d, _compute plateau 5%float 0 0%float = Ok d ∧
       trunk d = [] ∧
       cells (index_map_of d) = ∅ ∧ cells (item_type_map d) = ∅ ∧
       (∀ c v, view_get (n_dim d) (index_map_of d) c = Ok v → v = 0) ∧
       (∀ c v, view_get (n_dim d) (item_type_map d) c = Ok v → v = 0).
Proof.
  apply (C7_empty_input plateau 5%float 0 0%float).
  - eexists. reflexivity.
  - intros v Hv. apply list_elem_of_In in Hv. simpl in Hv.
    destruct Hv as [<-|[<-|[]]]; reflexivity.
Defined.


(** ** The index map after the prune (claim C9) *)

Lemma keyed_insert its idx b :
  keyed its → idx_of b = idx → keyed (<[idx := b]> its).
Proof.
  intros Hk Hb k it. destruct (decide (k = idx)) as [->|Hne].
  - rewrite lookup_insert_eq. by intros [= <-].
  - rewrite lookup_insert_ne by done. apply Hk.
Qed.

Lemma merge_loop_keyed idx ms its0 im0 its im :
  keyed its0 →
  for_each (merge_onto idx) ms (its0, im0) = Ok (its, im) → keyed its.
Proof.
  intros Hk0 Hrun.
  apply (for_each_inv (λ s, keyed s.1)) in Hrun; [done|done|].
  intros m [its1 im1] [its2 im2] _ Hk1 Hbody. simpl in *.
  unfold merge_onto in Hbody.
  apply bind_Ok in Hbody as ([r its1'] & Hr & Hbody).
  apply dict_pop_Ok in Hr as (Hr & ->).
  apply bind_Ok in Hbody as (im2' & _ & Hbody). injection Hbody as <- <-.
  intros k it. destruct (decide (k = idx)) as [->|Hne].
  - rewrite lookup_alter_eq. intros Hit.
    destruct (delete m its1 !! idx) as [b|] eqn:Hb; [|done].
    injection Hit as <-. simpl.
    apply lookup_delete_Some in Hb as [_ Hb]. by apply Hk1.
  - rewrite lookup_alter_ne by done. intros [_ Hit]%lookup_delete_Some.
    by apply Hk1.
Qed.

Section Keyed.
Context `{PyRuntime}.
Variable flux_values : list float.
Variable coords : list coord.
Variable minimum_npix : Z.
Variable minimum_delta : float.

Lemma step_keyed st i st' :
  keyed (items st) →
  step flux_values coords minimum_npix minimum_delta st i = Ok st' →
  keyed (items st').
Proof.
  intros Hk (flux & c & adjacent & _ & _ & _ & Hout)%step_outcome.
  assert (∀ idx ms, joins st c flux idx ms st' → keyed (items st')) as Hjoin.
  { intros idx ms (it & im0 & its & im & Hit & _ & Hloop & ->). simpl.
    eapply merge_loop_keyed; [|done]. apply keyed_insert; [done|].
    simpl. by apply Hk. }
  destruct Hout as [[_ (im & _ & ->)]|[(idx & _ & Hj)|
                    (merge & sig & _ & _ & Hcase)]].
  - simpl. by apply keyed_insert.
  - by eapply Hjoin.
  - destruct Hcase as [(idx & rest & _ & _ & Hj)|[(idx & _ & Hj)|[_ Hb]]];
      [by eapply Hjoin..|].
    destruct Hb as (im0 & its & im & _ & _ & Hloop & ->). simpl.
    eapply merge_loop_keyed; [|done]. by apply keyed_insert.
Qed.

Lemma scan_from_keyed st0 pre st :
  keyed (items st0) →
  scan_from flux_values coords minimum_npix minimum_delta st0 pre = Ok st →
  keyed (items st).
Proof.
  intros Hk0 Hrun.
  apply (for_each_inv (λ s, keyed (items s))) in Hrun; [done|done|].
  intros i st1 st2 _. apply step_keyed.
Qed.
End Keyed.

Lemma view_get_voxel n shape3 a c k :
  (n = 2 ∨ n = 3) → (n = 2 → shape3.1.1 = 1) →
  dims a = padded shape3 → in_cube shape3 c →
  cells a !! c = Some k →
  view_get n a (voxel_indices n c) = Ok k.
Proof.
  intros Hn Hz Hd Hc Hk. unfold view_get, voxel_indices.
  destruct Hn as [-> | ->]; simpl.
  - assert ((0, c.1.2, c.2) = c) as ->.
    { destruct Hc as (Hc & _). rewrite Hz in Hc by done.
      destruct c as [[z y] x]. simpl in *. f_equal. f_equal. lia. }
    by rewrite (array_get_in_cube shape3), Hk.
  - rewrite voxel_eq. by rewrite (array_get_in_cube shape3), Hk.
Qed.

(** C9. The post-pass prune (Step 2) does not modify the index map:
    the map of the finished dendrogram is the map as Step 1 left it, and
    for every voxel owned by a leaf that Step 2 removed from the table,
    the map still holds the id of that leaf. (The cells of the map are
    32-bit integers; the array has fewer than 2^31 cells.) *)
Theorem C9_prune_keeps_index_map `{PyRuntime} (data : ndarray)
    (minimum_flux : float) (minimum_npix : Z) (minimum_delta : float)
    (d : Dendrogram) :
  well_formed data → Z.of_nat (length (ravel data)) < 2 ^ 31 →
  _compute data minimum_flux minimum_npix minimum_delta = Ok d →
  ∃ shape3 st its,
    recast data = Ok (n_dim d, shape3) ∧
    scan shape3 data minimum_flux minimum_npix minimum_delta = Ok st ∧
    prune minimum_npix minimum_delta (items st) = Ok its ∧
    index_map_of d = index_map st ∧
    ∀ k leaf, items st !! k = Some leaf → its !! k = None →
      typ leaf = Leaf ∧ idx_of leaf = k ∧
      ∀ c, c ∈ voxels leaf →
           view_get (n_dim d) (index_map_of d) (voxel_indices (n_dim d) c)
           = Ok k.
Proof.
  intros Hwf Hsize Hcomp. unfold _compute in Hcomp.
  apply bind_Ok in Hcomp as ([n shape3] & Hrc & Hcomp).
  apply bind_Ok in Hcomp as (st & Hscan & Hcomp).
  apply bind_Ok in Hcomp as (its & Hprune & Hcomp).
  apply bind_Ok in Hcomp as (tr & _ & Hcomp).
  apply bind_Ok in Hcomp as (itm & _ & Hcomp). injection Hcomp as <-.
  simpl. exists shape3, st, its.
  split; [done|]. split; [done|]. split; [done|]. split; [done|].
  intros k leaf Hleaf Hpruned.
  assert (typ leaf = Leaf) as Htyp.
  { destruct (prune_total minimum_npix minimum_delta (items st))
      as (its' & Hprune' & Hlk).
    rewrite Hprune in Hprune'. injection Hprune' as <-.
    specialize (Hlk k). rewrite Hleaf, Hpruned in Hlk.
    destruct (prunable minimum_npix minimum_delta leaf) eqn:Hp; [|done].
    unfold prunable in Hp. apply andb_prop in Hp as [Ht _].
    by apply bool_decide_eq_true in Ht. }
  split; [done|]. split.
  { eapply (scan_from_keyed _ _ _ _ (initial_state shape3)); [|done..].
    intros k' it'. simpl. by rewrite lookup_empty. }
  intros c Hc.
  assert (reaches data minimum_flux minimum_npix minimum_delta shape3
            (scan_order (flux_values_of data minimum_flux)) st) as Hreach.
  { exists []. by rewrite app_nil_r. }
  destruct (reaches_inv data n shape3 minimum_flux Hwf Hrc _ _ _ _ Hreach)
    as [_ Hinv].
  destruct (recast_size _ _ _ Hrc) as (_ & _ & Hn & Hz).
  apply (view_get_voxel n shape3); try done.
  - apply (inv_dims _ _ _ _ Hinv).
  - eapply processed_in_cube; [by apply (coords_of_in_cube data n)|].
    by eapply (inv_voxels _ _ _ _ Hinv).
  - apply (inv_leaf_cells _ _ _ _ Hinv) with leaf; try done.
    by apply coords_of_int32.
Qed.

Lemma C9_prune_keeps_index_map_witness :
  ∃ d shape3 st its,
    _compute two_peaks neg_infinity 0 3%float = Ok d ∧
    recast two_peaks = Ok (n_dim d, shape3) ∧
    scan shape3 two_peaks neg_infinity 0 3%float = Ok st ∧
    prune 0 3%float (items st) = Ok its ∧
    index_map_of d = index_map st ∧
    ∀ k leaf, items st !! k = Some leaf → its !! k = None →
      typ leaf = Leaf ∧ idx_of leaf = k ∧
      ∀ c, c ∈ voxels leaf →
           view_get (n_dim d) (index_map_of d) (voxel_indices (n_dim d) c)
           = Ok k.
Proof.
  assert (∃ d, _compute two_peaks neg_infinity 0 3%float = Ok d) as [d Hd].
  { eexists. vm_compute. reflexivity. }
  exists d.
  destruct (C9_prune_keeps_index_map two_peaks neg_infinity 0 3%float d)
    as (shape3 & st & its & Hrest); [reflexivity|vm_compute; reflexivity|done|].
  exists shape3, st, its. split; [done|]. exact Hrest.
Defined.


(** ** The creation of a branch (claim C3) *)

(** C3 (as amended). When two or more significant structures touch the
    current voxel, the iteration creates a new Branch with a fresh id
    (one more than the position of the voxel in the filtered list) whose
    children are exactly the significant structures, taken in the order
    in which [list(set(adjacent))] yields them (the iteration order of a
    Python set, not necessarily ascending); it seeds the branch with the
    voxel, sets the index map to the new id at the voxel and
    [ancestor[new_id] = None], merges every insignificant leaf into the
    new branch (its voxels are restamped, its id leaves the table) and
    reparents every child id onto the new id. (The cells of the index
    map are 32-bit integers; the array has fewer than 2^31 cells.) *)
Theorem C3_new_branch `{PyRuntime} (data : ndarray) (n : Z) (shape3 : coord)
    (minimum_flux : float) (minimum_npix : Z) (minimum_delta : float)
    (pre : list nat) (i : nat) (post : list nat) (st : state)
    (flux : float) (c : coord) (adjacent merge sig : list Z) :
  let flux_values := flux_values_of data minimum_flux in
  let coords := coords_of shape3 data minimum_flux in
  well_formed data → recast data = Ok (n, shape3) →
  Z.of_nat (length (ravel data)) < 2 ^ 31 →
  scan_order flux_values = pre ++ i :: post →
  scan_from flux_values coords minimum_npix minimum_delta
            (initial_state shape3) pre = Ok st →
  flux_values !! i = Some flux → coords !! i = Some c →
  find_adjacent st c = Ok adjacent →
  partition_adjacent minimum_npix minimum_delta (items st) adjacent flux
                     merge sig →
  (2 ≤ length sig)%nat →
  sig = filter (λ k, touching_insignificant minimum_npix minimum_delta
                       (items st) flux k ≠ true) adjacent ∧
  ∃ st', step flux_values coords minimum_npix minimum_delta st i = Ok st' ∧
         branch_made st st' (Z.of_nat i + 1) c sig merge.
Proof.
  intros flux_values coords Hwf Hrc Hsize Hord Hrun Hflux Hc Hadj Hpart Hlen.
  assert (reaches data minimum_flux minimum_npix minimum_delta shape3 pre st)
    as Hreach by (by exists (i :: post)).
  destruct (reaches_inv data n shape3 minimum_flux Hwf Hrc _ _ _ _ Hreach)
    as [Hndpre Hinv].
  assert (i ∉ pre) as Hi.
  { pose proof (scan_order_NoDup data minimum_flux) as Hnd.
    fold flux_values in Hnd. rewrite Hord in Hnd.
    apply NoDup_app in Hnd as (_ & Hnd & _). intros Hin.
    apply (Hnd i Hin). set_solver. }
  pose proof (coords_of_in_cube data n shape3 minimum_flux Hwf Hrc) as Hcube.
  pose proof (coords_of_NoDup data n shape3 minimum_flux Hwf Hrc) as Hcnd.
  pose proof (coords_of_int32 data shape3 minimum_flux Hsize) as Hcsize.
  fold coords in Hcube, Hcnd, Hcsize, Hinv.
  assert (in_cube shape3 c) as Hcin
    by (by eapply Hcube, list_elem_of_lookup_2).
  pose proof (find_adjacent_roots st c adjacent (inv_flat _ _ _ _ Hinv) Hadj)
    as Hroots.
  pose proof (find_adjacent_Ok st c adjacent Hadj) as [Hnd _].
  destruct (partition_adjacent_Ok _ _ _ _ _ _ _ Hnd Hpart)
    as (Hmerge & Hsig & Hleaves & Hnds & Hdom & Hdisj).
  split; [done|].
  assert (sig ⊆ adjacent) as Hsub.
  { intros k. rewrite Hsig. by intros [_ ?]%list_elem_of_filter. }
  destruct (inv_fresh shape3 coords pre st i Hinv Hi) as [Hfa Hfi].
  destruct (next_idx_int32 coords i c Hcsize Hc) as [Hrange Hid].
  set (idx := Z.of_nat i + 1) in *.
  assert (idx ∉ merge) as Hidx.
  { intros Hin. destruct Hleaves as [_ Hleaves].
    destruct (Hleaves idx Hin) as (r & Hr & _). congruence. }
  assert (∀ c', c' ∈ voxels_of (items st) merge → in_cube shape3 c') as Hvin.
  { intros c' Hc'. eapply (processed_in_cube shape3 coords); [done|].
    by eapply inv_voxels_of. }
  pose proof (inv_dims _ _ _ _ Hinv) as Hd.
  destruct (absorbs_total st c idx (new_Branch sig c.2 c.1.2 c.1.1 flux idx)
              merge) as (its' & im' & Habs); try done.
  { exists c. by apply (norm_coord_in_cube shape3). }
  { intros c' Hc'. exists c'. apply (norm_coord_in_cube shape3); auto. }
  set (st' := {| index_map := im'; items := its';
                 ancestor := foldl (reparent idx)
                               (<[idx := None]> (ancestor st)) sig;
                 issued := issued st ++ [idx] |}).
  exists st'. split.
  { apply step_outcome. exists flux, c, adjacent.
    split; [done|]. split; [done|]. split; [done|].
    right; right. exists merge, sig. split.
    { rewrite Hsig in Hlen. etrans; [done|]. apply length_filter. }
    split; [done|]. right; right. split; [done|].
    destruct Habs as (im0 & Hset & Hloop). exists im0, its', im'.
    split; [|done]. intros k Hk. by apply Hdom, Hsub. }
  pose proof (absorbs_cells shape3 coords Hcube pre st c idx _ merge its' im'
                Hinv Hcin Hleaves Hidx Habs) as Hcells.
  destruct (absorbs_Ok _ _ _ _ _ _ _ Hleaves Hidx Habs)
    as (s0 & _ & Hpop & Hkeep &
        (b & Hb & Hty & Hidb & Hseed & Hch & Hvox) & Hd' & _).
  destruct (reparent_roots (ancestor st) idx sig)
    as (_ & Hroot & _ & Hchild & Hgrand & _);
    [apply (inv_flat _ _ _ _ Hinv)|done|by intros k Hk; apply Hroots, Hsub|].
  assert (dims im' = padded shape3) as Hd'' by congruence.
  unfold branch_made. simpl.
  split; [done|]. split; [done|]. split.
  { exists b. simpl in *. rewrite voxel_eq in Hvox, Hseed. done. }
  split.
  { rewrite (array_get_in_cube shape3) by done.
    rewrite Hcells, decide_True by (by left). simpl. by rewrite Hid. }
  split; [done|]. split.
  { intros m Hm. split; [by apply Hpop|]. intros r v Hr Hv.
    assert (v ∈ voxels_of (items st) merge) as Hvm
      by (apply elem_of_voxels_of; eauto).
    rewrite (array_get_in_cube shape3) by auto.
    rewrite Hcells, decide_True by (by right). simpl. by rewrite Hid. }
  split; [done|]. split; [done|].
  intros k Hk. apply Hkeep; [by apply Hdisj|].
  intros ->. destruct (Hdom idx) as [r Hr]; [by apply Hsub|]. congruence.
Qed.

Lemma C3_new_branch_witness :
  ∃ st st',
    scan_from (flux_values_of two_peaks neg_infinity)
              (coords_of (1, 1, 3) two_peaks neg_infinity) 0 3%float
              (initial_state (1, 1, 3)) [2; 0]%nat = Ok st ∧
    step (flux_values_of two_peaks neg_infinity)
         (coords_of (1, 1, 3) two_peaks neg_infinity) 0 3%float st 1 = Ok st' ∧
    branch_made st st' 2 (0, 0, 1) [1; 3] [].
Proof.
  assert (∃ st,
    scan_from (flux_values_of two_peaks neg_infinity)
              (coords_of (1, 1, 3) two_peaks neg_infinity) 0 3%float
              (initial_state (1, 1, 3)) [2; 0]%nat = Ok st ∧
    find_adjacent st (0, 0, 1) = Ok [1; 3] ∧
    partition_adjacent 0 3%float (items st) [1; 3] 1%float [] [1; 3])
    as (st & Hrun & Hadj & Hpart).
  { eexists. split; [vm_compute; reflexivity|].
    split; [vm_compute; reflexivity|].
    split; vm_compute; reflexivity. }
  destruct (C3_new_branch two_peaks 2 (1, 1, 3) neg_infinity 0 3%float
              [2; 0]%nat 1%nat [] st 1%float (0, 0, 1) [1; 3] [] [1; 3])
    as (_ & st' & Hstep & Hmade);
    [reflexivity|reflexivity|vm_compute; reflexivity|vm_compute; reflexivity
    |done|vm_compute; reflexivity|vm_compute; reflexivity|done|done
    |simpl; lia|].
  exists st, st'. split; [done|]. split; [done|]. exact Hmade.
Defined.

(** C3 as stated fails: on [slope] the leaf of the left peak has the id
    2 and the leaf of the right peak the id 9; at the saddle CPython
    iterates the set [{2, 9}] as [9, 2] (9 sits in slot 1 of the table
    of eight slots, 2 in slot 2), so the children of the new branch are
    [9, 2]: not in ascending-id order. *)
Lemma C3_children_not_ascending :
  ∃ st b, scan (1, 1, 9) slope neg_infinity 0 0%float = Ok st ∧
          items st !! 3 = Some b ∧ typ b = Branch ∧
          children b = [9; 2] ∧ ¬ increasing (children b).
Proof.
  eexists. eexists. split; [vm_compute; reflexivity|].
  split; [vm_compute; reflexivity|]. split; [reflexivity|].
  split; [reflexivity|]. intros Hinc.
  specialize (Hinc 0%nat 1%nat 9 2).
  assert (9 < 2); [|lia]. apply Hinc; [lia|reflexivity..].
Qed.


(** ** The scan cannot fail *)

Lemma reparent_roots_inv anc idx sig k p :
  foldl (reparent idx) (<[idx := None]> anc) sig !! k = Some (Some p) →
  p = idx ∨ (anc !! k = Some (Some p) ∧ k ≠ idx ∧ (k ∉ sig) ∧ (p ∉ sig)).
Proof.
  rewrite foldl_reparent_lookup. case_decide as Hk; [intros [= <-]; by left|].
  destruct (decide (k = idx)) as [->|Hki].
  { by rewrite lookup_insert_eq. }
  rewrite lookup_insert_ne by done.
  destruct (anc !! k) as [[j|]|]; simpl; try done.
  case_decide; intros [= <-]; [by left|by right].
Qed.

Section Lookups.
Context `{PyRuntime}.
Variable shape3 : coord.
Variable coords : list coord.
Hypothesis coords_in_cube : ∀ c, c ∈ coords → in_cube shape3 c.
Hypothesis coords_NoDup : NoDup coords.
Hypothesis coords_int32 : Z.of_nat (length coords) < 2 ^ 31.

(** An id read in the index map is a key of [ancestor], and the root it
    resolves to is a structure of the table. *)
Lemma look_root st s v :
  lookup_inv st → cells (index_map st) !! s = Some v →
  is_Some (ancestor st !! v).
Proof.
  intros Hlook Hv. destruct (look_cells _ Hlook s v Hv) as (r & Hr & _).
  apply replace_by_ancestor_Ok in Hr as [[? _]|?]; eauto.
Qed.

(** A cell that is not rewritten by an absorption does not hold the id
    of an absorbed leaf. *)
Lemma kept_cell_root st ms s v r :
  lookup_inv st → leaves_of (items st) ms →
  cells (index_map st) !! s = Some v →
  s ∉ voxels_of (items st) ms →
  replace_by_ancestor (ancestor st) v = Ok r → r ∉ ms.
Proof.
  intros Hlook [_ Hleaves] Hv Hs Hr Hin.
  destruct (Hleaves r Hin) as (leaf & Hleaf & Htyp).
  apply replace_by_ancestor_Ok in Hr as [[_ ->]|Hanc].
  - apply Hs, elem_of_voxels_of. exists v, leaf. split; [done|].
    split; [done|]. by eapply (look_leaf _ Hlook).
  - destruct (look_branch _ Hlook v r Hanc) as (b & Hb & Hbt). congruence.
Qed.

(** The lookup invariant after any outcome whose data part is
    [absorbs], when the ancestor table [anc'] resolves as expected. *)
Lemma absorbs_lookup_inv pre st i c idx b0 ms its' im' anc' iss' :
  scan_inv shape3 coords pre st → lookup_inv st →
  i ∉ pre → coords !! i = Some c →
  leaves_of (items st) ms → idx ∉ ms →
  astype_int32 idx = idx →
  (∀ it, items st !! idx = Some it → typ b0 = typ it) →
  (typ b0 = Leaf →
   ∀ s, cells (index_map st) !! s = Some idx → s ∈ voxels b0) →
  c ∈ voxels b0 →
  absorbs st c idx b0 ms its' im' →
  anc' !! idx = Some None →
  (∀ v r, replace_by_ancestor (ancestor st) v = Ok r → r ∉ ms →
          ∃ r', replace_by_ancestor anc' v = Ok r' ∧
                (r' = idx ∨ (r' = r ∧ r ≠ idx))) →
  (∀ k p, anc' !! k = Some (Some p) →
          (p = idx ∧ typ b0 = Branch) ∨ ancestor st !! k = Some (Some p)) →
  lookup_inv {| index_map := im'; items := its'; ancestor := anc';
                issued := iss' |}.
Proof.
  intros Hinv Hlook Hi Hc Hleaves Hidx Hid Htyp Hown Hcown Habs Hroot Hres
    Hanc.
  assert (in_cube shape3 c) as Hcube
    by (by eapply coords_in_cube, list_elem_of_lookup_2).
  pose proof (absorbs_cells shape3 coords coords_in_cube pre st c idx b0 ms
                its' im' Hinv Hcube Hleaves Hidx Habs) as Hcells.
  destruct (absorbs_Ok _ _ _ _ _ _ _ Hleaves Hidx Habs)
    as (s0 & _ & Hpop & Hkeep & (b & Hb & Hty & _ & _ & _ & Hvox) & _).
  split; simpl.
  - intros s v. rewrite Hcells. case_decide as Hs.
    + rewrite Hid. intros [= <-]. exists idx. split; [|by eauto].
      apply replace_by_ancestor_Ok. by left.
    + intros Hv. destruct (look_cells _ Hlook s v Hv) as (r & Hr & Hitr).
      assert (r ∉ ms) as Hrm
        by (eapply (kept_cell_root st ms s v r); try done; tauto).
      destruct (Hres v r Hr Hrm) as (r' & Hr' & [->|[-> Hne]]).
      * exists idx. split; [done|eauto].
      * exists r. split; [done|]. by rewrite Hkeep.
  - intros s k it. rewrite Hcells. case_decide as Hs.
    + rewrite Hid. intros [= <-] Hit _.
      assert (it = b) as -> by congruence. rewrite Hvox.
      destruct Hs as [->|Hs]; set_solver.
    + intros Hk Hit Hleaf. destruct (decide (k = idx)) as [->|Hki].
      * assert (it = b) as -> by congruence. rewrite Hvox.
        apply elem_of_app. left. apply Hown; [congruence|done].
      * destruct (decide (k ∈ ms)) as [Hkm|Hkm];
          [by rewrite Hpop in Hit|].
        rewrite Hkeep in Hit by done. by eapply (look_leaf _ Hlook).
  - intros k p Hkp. destruct (Hanc k p Hkp) as [[-> Hbr]|Hold].
    + exists b. split; [done|congruence].
    + destruct (look_branch _ Hlook k p Hold) as (bp & Hbp & Hbpt).
      destruct (decide (p = idx)) as [->|Hpi].
      * exists b. split; [done|]. rewrite Hty, (Htyp bp Hbp). done.
      * exists bp. split; [|done]. rewrite Hkeep; [done| |done].
        intros Hpm. destruct Hleaves as [_ Hleaves].
        destruct (Hleaves p Hpm) as (r & Hr & Hrt). congruence.
Qed.
Variable flux_values : list float.
Variable minimum_npix : Z.
Variable minimum_delta : float.

(** One iteration keeps the lookup invariant. *)
Lemma step_lookup_inv pre st i st' :
  scan_inv shape3 coords pre st → lookup_inv st → i ∉ pre →
  step flux_values coords minimum_npix minimum_delta st i = Ok st' →
  lookup_inv st'.
Proof.
  intros Hinv Hlook Hi (flux & c & adjacent & Hf & Hc & Hadj & Hout)%step_outcome.
  pose proof (inv_flat _ _ _ _ Hinv) as Hflat.
  pose proof (find_adjacent_roots st c adjacent Hflat Hadj) as Hroots.
  apply find_adjacent_Ok in Hadj as [Hnd _].
  destruct (inv_fresh shape3 coords pre st i Hinv Hi) as [Hfa Hfi].
  destruct (next_idx_int32 coords i c coords_int32 Hc) as [_ Hnew].
  assert (∀ v r, replace_by_ancestor (ancestor st) v = Ok r →
                 is_root (ancestor st) r ∧ is_Some (ancestor st !! v))
    as Hrep.
  { intros v r Hr. split; [by eapply replace_by_ancestor_root|].
    apply replace_by_ancestor_Ok in Hr as [[? _]|?]; eauto. }
  assert (∀ s, cells (index_map st) !! s ≠ Some (Z.of_nat i + 1)) as Hnocell.
  { intros s Hs. apply (look_root st s) in Hs; [|done].
    rewrite Hfa in Hs. by destruct Hs. }
  apply outcome_kinds in Hout
    as [[_ Hl]|[(idx & ms & Hj & Hin & _ & Hidx & Hleaves)|
                (sig & ms & Hb & _ & Hsig & _ & _ & _ & Hleaves)]]; [| | |done].
  - destruct Hl as (im & Hset & ->).
    apply (absorbs_lookup_inv pre st i c (Z.of_nat i + 1)
             (new_Leaf c.2 c.1.2 c.1.1 flux (Z.of_nat i + 1)) []
             _ _ _ _ Hinv Hlook Hi Hc).
    + apply leaves_of_nil.
    + set_solver.
    + done.
    + intros it Hit. congruence.
    + intros _ s Hs. by destruct (Hnocell s).
    + simpl. rewrite voxel_eq. set_solver.
    + by exists im.
    + by rewrite lookup_insert_eq.
    + intros v r Hr. destruct (Hrep v r Hr) as [Hroot [a Ha]]. intros _.
      exists r. split; [|right; split; [done|]; intros ->;
                         unfold is_root in Hroot; congruence].
      apply replace_by_ancestor_Ok.
      rewrite !lookup_insert_ne by (intros <-; congruence).
      by apply replace_by_ancestor_Ok.
    + intros k p. destruct (decide (k = Z.of_nat i + 1)) as [->|Hk].
      * by rewrite lookup_insert_eq.
      * rewrite lookup_insert_ne by done. by right.
  - destruct Hj as (it & im0 & its & im & Hit & Hset & Hloop & ->).
    assert (is_Some (ancestor st !! idx)) as Hanc
      by (apply (inv_items_dom _ _ _ _ Hinv); eauto).
    destruct (inv_id_int32 shape3 coords pre st idx coords_int32 Hinv Hanc)
      as [_ Hid].
    apply (absorbs_lookup_inv pre st i c idx
             (add_point it c.2 c.1.2 c.1.1 flux) ms
             _ _ _ _ Hinv Hlook Hi Hc Hleaves Hidx Hid).
    + intros it' Hit'. simpl. congruence.
    + simpl. intros Hty s Hs. apply elem_of_app. left.
      by eapply (look_leaf _ Hlook).
    + simpl. rewrite voxel_eq. set_solver.
    + by exists im0.
    + by apply Hroots.
    + intros v r Hr _. exists r. split; [done|].
      destruct (decide (r = idx)); [by left|by right].
    + intros k p Hkp. by right.
  - destruct Hb as (im0 & its & im & Hdom & Hset & Hloop & ->).
    set (idx := Z.of_nat i + 1) in *.
    assert (idx ∉ ms) as Hidx.
    { intros Hin. destruct Hleaves as [_ Hleaves].
      destruct (Hleaves idx Hin) as (r & Hr & _). congruence. }
    destruct (reparent_roots (ancestor st) idx sig)
      as (_ & Hroot & _ & Hchild & Hgrand & Hsame);
      [done|done|by intros k Hk; apply Hroots, Hsig|].
    apply (absorbs_lookup_inv pre st i c idx
             (new_Branch sig c.2 c.1.2 c.1.1 flux idx) ms
             _ _ _ _ Hinv Hlook Hi Hc Hleaves Hidx Hnew).
    + intros it Hit. congruence.
    + done.
    + simpl. rewrite voxel_eq. set_solver.
    + by exists im0.
    + done.
    + intros v r Hr _. destruct (Hrep v r Hr) as [Hrroot [a Ha]].
      assert (r ≠ idx) as Hri
        by (intros ->; unfold is_root in Hrroot; congruence).
      assert (v ≠ idx) as Hvi by (intros ->; congruence).
      destruct (decide (r ∈ sig)) as [Hrs|Hrs].
      * exists idx. split; [|by left]. apply replace_by_ancestor_Ok. right.
        apply replace_by_ancestor_Ok in Hr as [[_ ->]|Hvr];
          [by apply Hchild|by eapply Hgrand].
      * exists r. split; [|by right]. apply replace_by_ancestor_Ok.
        apply replace_by_ancestor_Ok in Hr as [[Hv ->]|Hvr].
        -- left. split; [|done]. rewrite Hsame; [done..|].
           intros j Hj. congruence.
        -- right. rewrite Hsame; [done| |done|].
           ++ intros Hvs. apply Hsig, Hroots in Hvs.
              unfold is_root in Hvs. congruence.
           ++ intros j Hj. congruence.
    + intros k p [->|(Hold & _)]%reparent_roots_inv; [by left|by right].
Qed.

Lemma joins_total pre st c flux idx it ms :
  scan_inv shape3 coords pre st → in_cube shape3 c →
  leaves_of (items st) ms → idx ∉ ms → items st !! idx = Some it →
  ∃ st', joins st c flux idx ms st'.
Proof.
  intros Hinv Hc Hleaves Hidx Hit.
  pose proof (inv_dims _ _ _ _ Hinv) as Hd.
  destruct (absorbs_total st c idx (add_point it c.2 c.1.2 c.1.1 flux) ms)
    as (its' & im' & im0 & Hset & Hloop); try done.
  { exists c. by apply (norm_coord_in_cube shape3). }
  { intros c' Hc'. exists c'. apply (norm_coord_in_cube shape3); [done|].
    eapply (processed_in_cube shape3 coords); [done|].
    by eapply inv_voxels_of. }
  eexists. by exists it, im0, its', im'.
Qed.

Lemma starts_branch_total pre st i c flux sig ms :
  scan_inv shape3 coords pre st → in_cube shape3 c →
  leaves_of (items st) ms → Z.of_nat i + 1 ∉ ms →
  (∀ k, k ∈ sig → is_Some (items st !! k)) →
  ∃ st', starts_branch st i c flux sig ms st'.
Proof.
  intros Hinv Hc Hleaves Hidx Hsig.
  pose proof (inv_dims _ _ _ _ Hinv) as Hd.
  destruct (absorbs_total st c (Z.of_nat i + 1)
              (new_Branch sig c.2 c.1.2 c.1.1 flux (Z.of_nat i + 1)) ms)
    as (its' & im' & im0 & Hset & Hloop); try done.
  { exists c. by apply (norm_coord_in_cube shape3). }
  { intros c' Hc'. exists c'. apply (norm_coord_in_cube shape3); [done|].
    eapply (processed_in_cube shape3 coords); [done|].
    by eapply inv_voxels_of. }
  eexists. by exists im0, its', im'.
Qed.

(** The touching structures can always be found, and they are
    structures of the table. *)
Lemma find_adjacent_total pre st c :
  scan_inv shape3 coords pre st → lookup_inv st → in_cube shape3 c →
  ∃ adjacent, find_adjacent st c = Ok adjacent ∧
              ∀ r, r ∈ adjacent → is_Some (items st !! r).
Proof.
  intros Hinv Hlook Hc. pose proof (inv_dims _ _ _ _ Hinv) as Hd.
  unfold find_adjacent.
  destruct (list_comp_total (array_get (index_map st)) (indices_adjacent c))
    as [vals Hvals].
  { intros c' Hc'.
    destruct (neighbour_cell shape3 (index_map st) c c' Hd Hc Hc')
      as (s & Hs & _).
    unfold array_get. rewrite Hs. by eexists. }
  rewrite Hvals. simpl. apply list_comp_Ok in Hvals.
  assert (∀ v, v ∈ filter (λ v, v ≠ 0) vals →
               ∃ r, replace_by_ancestor (ancestor st) v = Ok r ∧
                    is_Some (items st !! r)) as Hres.
  { intros v [Hv0 Hv]%list_elem_of_filter.
    apply list_elem_of_lookup in Hv as [n Hn].
    destruct (Forall2_lookup_r _ _ _ _ _ Hvals Hn) as (c' & _ & Hget).
    unfold array_get in Hget. apply bind_Ok in Hget as (s & _ & Hget).
    injection Hget as Hget.
    destruct (cells (index_map st) !! s) as [v'|] eqn:Hs; simpl in Hget;
      [|congruence].
    subst v'. by apply (look_cells _ Hlook s v). }
  destruct (list_comp_total (replace_by_ancestor (ancestor st))
              (filter (λ v, v ≠ 0) vals)) as [adj Hadj].
  { intros v Hv. destruct (Hres v Hv) as (r & Hr & _). by eexists. }
  rewrite Hadj. simpl. eexists. split; [done|].
  intros r Hr. rewrite set_to_list_elem in Hr. apply list_comp_Ok in Hadj.
  apply list_elem_of_lookup in Hr as [n Hn].
  destruct (Forall2_lookup_r _ _ _ _ _ Hadj Hn) as (v & Hv & Hrep).
  destruct (Hres v) as (r' & Hr' & Hit); [by eapply list_elem_of_lookup_2|].
  congruence.
Qed.

(** One iteration cannot fail. *)
Lemma step_total pre st i :
  length flux_values = length coords →
  scan_inv shape3 coords pre st → lookup_inv st → i ∉ pre →
  (i < length coords)%nat →
  ∃ st', step flux_values coords minimum_npix minimum_delta st i = Ok st'.
Proof.
  intros Hlen Hinv Hlook Hi Hlt.
  destruct (lookup_lt_is_Some_2 coords i Hlt) as [c Hc].
  destruct (lookup_lt_is_Some_2 flux_values i) as [flux Hflux]; [lia|].
  assert (in_cube shape3 c) as Hcube
    by (by eapply coords_in_cube, list_elem_of_lookup_2).
  pose proof (inv_dims _ _ _ _ Hinv) as Hd.
  destruct (find_adjacent_total pre st c Hinv Hlook Hcube)
    as (adjacent & Hadj & Hdom).
  pose proof (find_adjacent_Ok st c adjacent Hadj) as [Hnd _].
  destruct (inv_fresh shape3 coords pre st i Hinv Hi) as [Hfa Hfi].
  assert (∃ st', outcome minimum_npix minimum_delta st i c flux adjacent st')
    as [st' Hout]; [|exists st'; apply step_outcome; eauto 10].
  destruct adjacent as [|k1 [|k2 adj]].
  - eexists. left. split; [done|]. eexists. split; [|done].
    by apply (array_set_in_cube shape3).
  - destruct (Hdom k1) as [it Hit]; [set_solver|].
    destruct (joins_total pre st c flux k1 it []) as [st' Hj]; try done.
    { apply leaves_of_nil. }
    { set_solver. }
    exists st'. right; left. by exists k1.
  - destruct (find_merge_total minimum_npix minimum_delta (items st)
                (k1 :: k2 :: adj) flux Hdom) as [merge Hmerge].
    pose proof (find_merge_Ok _ _ _ _ _ _ Hmerge) as [_ Hmf].
    destruct (remove_merges_total merge (k1 :: k2 :: adj)) as [sig Hsig].
    { rewrite Hmf. by apply NoDup_filter. }
    { intros k. rewrite Hmf. by intros [_ ?]%list_elem_of_filter. }
    assert (partition_adjacent minimum_npix minimum_delta (items st)
              (k1 :: k2 :: adj) flux merge sig) as Hpart by done.
    destruct (partition_adjacent_Ok _ _ _ _ _ _ _ Hnd Hpart)
      as (_ & Hsf & Hleaves & _ & _ & Hdisj).
    assert (sig ⊆ k1 :: k2 :: adj) as Hsub.
    { intros k. rewrite Hsf. by intros [_ ?]%list_elem_of_filter. }
    assert (∃ st', (∃ idx rest, sig = [] ∧ merge = idx :: rest ∧
                                joins st c flux idx rest st') ∨
                   (∃ idx, sig = [idx] ∧ joins st c flux idx merge st') ∨
                   ((2 ≤ length sig)%nat ∧
                    starts_branch st i c flux sig merge st'))
      as [st' Hcase].
    { destruct sig as [|s1 [|s2 sig]].
      - destruct merge as [|idx rest].
        { exfalso. assert (k1 ∈ filter (λ k, touching_insignificant
                     minimum_npix minimum_delta (items st) flux k ≠ true)
                     (k1 :: k2 :: adj)) as Hk1.
          { apply list_elem_of_filter. split; [|set_solver].
            intros Hins.
            assert (k1 ∈ filter (λ k, touching_insignificant minimum_npix
                      minimum_delta (items st) flux k = true)
                      (k1 :: k2 :: adj)) as Hk1
              by (apply list_elem_of_filter; split; [done|set_solver]).
            rewrite <- Hmf in Hk1. set_solver. }
          rewrite <- Hsf in Hk1. set_solver. }
        destruct Hleaves as [Hndm Hleaves].
        apply NoDup_cons in Hndm as [Hidx Hndr].
        destruct (Hleaves idx) as (it & Hit & _); [set_solver|].
        destruct (joins_total pre st c flux idx it rest) as [st' Hj];
          try done.
        { split; [done|]. intros m Hm. apply Hleaves. set_solver. }
        exists st'. left. by exists idx, rest.
      - destruct (Hdom s1) as [it Hit]; [apply Hsub; set_solver|].
        destruct (joins_total pre st c flux s1 it merge) as [st' Hj];
          try done.
        { apply Hdisj. set_solver. }
        exists st'. right; left. by exists s1.
      - destruct (starts_branch_total pre st i c flux (s1 :: s2 :: sig) merge)
          as [st' Hb]; try done.
        { intros Hin. destruct Hleaves as [_ Hleaves].
          destruct (Hleaves _ Hin) as (r & Hr & _). congruence. }
        { intros k Hk. by apply Hdom, Hsub. }
        exists st'. right; right. split; [simpl; lia|done]. }
    exists st'. right; right. exists merge, sig.
    split; [simpl; lia|]. split; [done|done].
Qed.

Lemma initial_lookup_inv : lookup_inv (initial_state shape3).
Proof. split; simpl; intros *; by rewrite lookup_empty. Qed.

(** The main loop runs to its end over distinct positions in range,
    and keeps both invariants. *)
Lemma scan_from_total order :
  length flux_values = length coords →
  NoDup order → (∀ i, i ∈ order → (i < length coords)%nat) →
  ∃ st, scan_from flux_values coords minimum_npix minimum_delta
                  (initial_state shape3) order = Ok st ∧
        scan_inv shape3 coords order st ∧ lookup_inv st.
Proof.
  intros Hlen Hnd Hlt.
  apply (for_each_total (λ done_ st, scan_inv shape3 coords done_ st ∧
                                     lookup_inv st)).
  - split; [by apply initial_inv|apply initial_lookup_inv].
  - intros done_ i rest st Hord [Hinv Hlook].
    assert (i ∉ done_) as Hi.
    { rewrite Hord in Hnd. apply NoDup_app in Hnd as (_ & Hnd & _).
      intros Hin. apply (Hnd i Hin). set_solver. }
    destruct (step_total done_ st i) as [st' Hstep]; try done.
    { apply Hlt. rewrite Hord. set_solver. }
    exists st'. split; [done|]. split.
    + by eapply step_inv.
    + by eapply step_lookup_inv.
Qed.
End Lookups.


(** ** What the constructor validates (claim C6) *)

Lemma norm_coord_inside a c : in_cube (dims a) c → norm_coord a c = Ok c.
Proof.
  intros (? & ? & ?). apply norm_coord_Ok. rewrite !norm_index_Ok. lia.
Qed.

Lemma recast_ndim data :
  match recast data with
  | Ok (n, _) => n = Z.of_nat (ndim data) ∧ (ndim data = 2 ∨ ndim data = 3)%nat
  | Raise e => e = InvalidDimensions ∧ ndim data ≠ 2%nat ∧ ndim data ≠ 3%nat
  end.
Proof.
  unfold recast, ndim.
  destruct (shape data) as [|a [|b [|c [|d l]]]]; simpl; auto with lia.
Qed.

Section Total.
Context `{PyRuntime}.

(** Lines 273-277 never fail when every key of the table is a key of
    [ancestor]. *)
Lemma make_trunk_total its anc :
  (∀ k, is_Some (its !! k) → is_Some (anc !! k)) →
  is_Ok (make_trunk its anc).
Proof.
  intros Hdom. unfold make_trunk.
  match goal with
  | |- is_Ok (for_each ?b ?l ?s) =>
      destruct (for_each_total (λ _ _, True) b l s) as (t & Ht & _)
  end; [done| |by eexists].
  intros done_ k rest s1 Hk _.
  assert (k ∈ dom its) as Hin.
  { apply dict_keys_elem. rewrite Hk. set_solver. }
  apply elem_of_dom in Hin as [it Hit].
  destruct (Hdom k) as [a Ha]; [by eexists|].
  unfold dict_get. rewrite Ha, Hit. simpl. destruct a; eauto.
Qed.

(** Lines 279-286 never fail when the structures own voxels of the
    cube. *)
Lemma make_item_type_map_total shape3 its :
  (∀ k it c, its !! k = Some it → c ∈ voxels it → in_cube shape3 c) →
  is_Ok (make_item_type_map shape3 its).
Proof.
  intros Hvox. unfold make_item_type_map.
  match goal with
  | |- is_Ok (for_each ?b ?l ?s) =>
      destruct (for_each_total (λ _ im, dims im = shape3) b l s)
        as (t & Ht & _)
  end; [done| |by eexists].
  intros done_ k rest im Hk Hd.
  assert (k ∈ dom its) as Hin.
  { apply dict_keys_elem. rewrite Hk. set_solver. }
  apply elem_of_dom in Hin as [it Hit].
  unfold dict_get. rewrite Hit. simpl.
  assert (∀ lvl, ∃ im', add_footprint it im lvl = Ok im' ∧ dims im' = shape3)
    as Hfp.
  { intros lvl. destruct (add_footprint_total it im lvl) as [im' Him'].
    - intros c Hc. exists c. apply norm_coord_inside. rewrite Hd. eauto.
    - exists im'. split; [done|].
      apply add_footprint_Ok in Him' as (Hd' & _). congruence. }
  case_decide; apply Hfp.
Qed.

(** The constructor returns a dendrogram on every array of two or
    three dimensions, whatever the thresholds. *)
Lemma compute_total data n shape3 minimum_flux minimum_npix minimum_delta :
  well_formed data → recast data = Ok (n, shape3) →
  Z.of_nat (length (ravel data)) < 2 ^ 31 →
  ∃ d, _compute data minimum_flux minimum_npix minimum_delta = Ok d ∧
       n_dim d = n ∧ data_of d = data.
Proof.
  intros Hwf Hrc Hsize.
  pose proof (coords_of_in_cube data n shape3 minimum_flux Hwf Hrc) as Hcube.
  pose proof (coords_of_NoDup data n shape3 minimum_flux Hwf Hrc) as Hcnd.
  pose proof (coords_of_int32 data shape3 minimum_flux Hsize) as Hcsize.
  destruct (scan_from_total shape3 (coords_of shape3 data minimum_flux)
              Hcube Hcnd Hcsize (flux_values_of data minimum_flux)
              minimum_npix minimum_delta
              (scan_order (flux_values_of data minimum_flux)))
    as (st & Hscan & Hinv & _).
  { by rewrite length_flux_values_of, length_coords_of. }
  { apply scan_order_NoDup. }
  { intros i Hi. rewrite scan_order_Permutation in Hi.
    apply elem_of_seq in Hi.
    rewrite length_coords_of, <- length_flux_values_of. lia. }
  destruct (prune_total minimum_npix minimum_delta (items st))
    as (its & Hprune & Hlk).
  assert (∀ k it, its !! k = Some it → items st !! k = Some it) as Hsub.
  { intros k it. rewrite Hlk. destruct (items st !! k); [|done].
    by case_match. }
  destruct (make_trunk_total its (ancestor st)) as [tr Htr].
  { intros k [it Hit]. apply (inv_items_dom _ _ _ _ Hinv). eauto. }
  destruct (make_item_type_map_total shape3 its) as [itm Hitm].
  { intros k it c Hit Hc. eapply processed_in_cube; [exact Hcube|].
    eapply (inv_voxels _ _ _ _ Hinv); eauto. }
  eexists. split.
  { unfold _compute. rewrite Hrc. simpl. unfold scan. rewrite Hscan. simpl.
    rewrite Hprune. simpl. rewrite Htr. simpl. rewrite Hitm. done. }
  done.
Qed.
End Total.

(** C6 (as amended). The constructor validates the number of
    dimensions of the data, and nothing else. On an array that is
    neither 2D nor 3D it raises the error "Invalid # of dimensions" and
    returns no dendrogram. On a 2D or 3D array (of fewer than 2^31
    cells) it returns a dendrogram for every value of the three
    thresholds: a negative [minimum_npix], a negative [minimum_delta]
    and a NaN [minimum_flux] raise no error. With a NaN [minimum_flux]
    no voxel passes the filter [flux > minimum_flux], and the result is
    the empty dendrogram. *)
Theorem C6_only_rank_validated `{PyRuntime} (data : ndarray)
    (minimum_flux : float) (minimum_npix : Z) (minimum_delta : float) :
  well_formed data → Z.of_nat (length (ravel data)) < 2 ^ 31 →
  ((ndim data = 2 ∨ ndim data = 3)%nat →
   ∃ d, _compute data minimum_flux minimum_npix minimum_delta = Ok d ∧
        n_dim d = Z.of_nat (ndim data) ∧ data_of d = data ∧
        (is_nan minimum_flux = true →
         trunk d = [] ∧ cells (index_map_of d) = ∅ ∧
         cells (item_type_map d) = ∅)) ∧
  (ndim data ≠ 2%nat → ndim data ≠ 3%nat →
   _compute data minimum_flux minimum_npix minimum_delta
   = Raise InvalidDimensions).
Proof.
  intros Hwf Hsize. pose proof (recast_ndim data) as Hrank.
  destruct (recast data) as [[n shape3]|e] eqn:Hrc.
  - destruct Hrank as [-> Hrank]. split; [intros _|lia].
    destruct (compute_total data _ shape3 minimum_flux minimum_npix
                minimum_delta Hwf Hrc Hsize) as (d & Hd & Hn & Hdata).
    exists d. split; [done|]. split; [done|]. split; [done|].
    intros Hnan.
    rewrite (compute_empty data minimum_flux minimum_npix minimum_delta
               _ shape3 Hrc) in Hd.
    + by injection Hd as <-.
    + apply kept_nil. intros v _. by apply ltb_nan_l.
  - destruct Hrank as (-> & ? & ?). split; [lia|]. intros _ _.
    unfold _compute. by rewrite Hrc.
Qed.

Lemma C6_only_rank_validated_witness :
  (∃ d, _compute plateau nan (-1) (-1)%float = Ok d ∧ trunk d = []) ∧
  _compute {| shape := [2%nat]; ravel := [3; 3]%float |} nan (-1) (-1)%float
  = Raise InvalidDimensions.
Proof.
  split.
  - destruct (C6_only_rank_validated plateau nan (-1) (-1)%float)
      as [Hok _]; [reflexivity|vm_compute; reflexivity|].
    destruct Hok as (d & Hd & _ & _ & Hnan); [by left|].
    exists d. split; [done|]. by apply Hnan.
  - destruct (C6_only_rank_validated
                {| shape := [2%nat]; ravel := [3; 3]%float |}
                nan (-1) (-1)%float)
      as [_ Hraise]; [reflexivity|vm_compute; reflexivity|].
    apply Hraise; unfold ndim; simpl; lia.
Defined.

(** C6 as stated fails: on the row [3, 3] the constructor returns a
    dendrogram with [minimum_npix = -1], with [minimum_delta = -1] and
    with [minimum_flux = NaN]; in the first two cases the dendrogram
    has one leaf of two voxels, in the third it is empty. No error is
    raised. *)
Lemma C6_thresholds_not_validated :
  (∃ d leaf, _compute plateau 0%float (-1) 0%float = Ok d ∧
             trunk d = [leaf] ∧ npix leaf = 2) ∧
  (∃ d leaf, _compute plateau 0%float 0 (-1)%float = Ok d ∧
             trunk d = [leaf] ∧ npix leaf = 2) ∧
  (∃ d, _compute plateau nan 0 0%float = Ok d ∧ trunk d = []).
Proof.
  split; [|split].
  - eexists. eexists. split; [vm_compute; reflexivity|]. split; reflexivity.
  - eexists. eexists. split; [vm_compute; reflexivity|]. split; reflexivity.
  - eexists. split; [vm_compute; reflexivity|reflexivity].
Qed.


(** * Further properties of the construction *)

(** ** What the structures record about themselves *)

Lemma item_sound_add_point coords flux_values k it c flux :
  item_sound coords flux_values k it →
  item_sound coords flux_values k (add_point it c.2 c.1.2 c.1.1 flux).
Proof.
  intros (Hk & Hn & Hh & Hs). unfold item_sound. simpl.
  split; [done|]. split; [rewrite length_app; simpl; lia|].
  split; [|done]. destruct (voxels it); [done|]. done.
Qed.

Lemma item_sound_merge coords flux_values k it m r :
  item_sound coords flux_values k it → item_sound coords flux_values m r →
  item_sound coords flux_values k (merge_item r it).
Proof.
  intros (Hk & Hn & Hh & Hs) (_ & Hnr & _). unfold item_sound. simpl.
  split; [done|]. split; [rewrite length_app; lia|].
  split; [|done]. destruct (voxels it); [done|]. done.
Qed.

Lemma table_sound_insert coords flux_values its k it :
  table_sound coords flux_values its → item_sound coords flux_values k it →
  table_sound coords flux_values (<[k := it]> its).
Proof.
  intros Hs Hit k' it'. destruct (decide (k' = k)) as [->|Hne].
  - rewrite lookup_insert_eq. by intros [= <-].
  - rewrite lookup_insert_ne by done. apply Hs.
Qed.

Lemma merge_loop_sound coords flux_values idx ms its0 im0 its im :
  table_sound coords flux_values its0 →
  for_each (merge_onto idx) ms (its0, im0) = Ok (its, im) →
  table_sound coords flux_values its.
Proof.
  intros Hs0 Hrun.
  apply (for_each_inv (λ s, table_sound coords flux_values s.1)) in Hrun;
    [done|done|].
  intros m [its1 im1] [its2 im2] _ Hs1 Hbody. simpl in *.
  unfold merge_onto in Hbody.
  apply bind_Ok in Hbody as ([r its1'] & Hr & Hbody).
  apply dict_pop_Ok in Hr as (Hr & ->).
  apply bind_Ok in Hbody as (im2' & _ & Hbody). injection Hbody as <- <-.
  intros k it. destruct (decide (k = idx)) as [->|Hne].
  - rewrite lookup_alter_eq. intros Hit.
    destruct (delete m its1 !! idx) as [b|] eqn:Hb; [|done].
    injection Hit as <-.
    apply lookup_delete_Some in Hb as [_ Hb].
    eapply item_sound_merge; eauto.
  - rewrite lookup_alter_ne by done. intros [_ Hit]%lookup_delete_Some.
    by apply Hs1.
Qed.

Section Sound.
Context `{PyRuntime}.
Variable flux_values : list float.
Variable coords : list coord.
Variable minimum_npix : Z.
Variable minimum_delta : float.

Lemma step_sound st i st' :
  table_sound coords flux_values (items st) →
  step flux_values coords minimum_npix minimum_delta st i = Ok st' →
  table_sound coords flux_values (items st').
Proof.
  intros Hs (flux & c & adjacent & Hflux & Hc & _ & Hout)%step_outcome.
  assert (∀ idx ms, joins st c flux idx ms st' →
                    table_sound coords flux_values (items st')) as Hjoin.
  { intros idx ms (it & im0 & its & im & Hit & _ & Hloop & ->). simpl.
    eapply merge_loop_sound; [|done]. apply table_sound_insert; [done|].
    apply item_sound_add_point. by apply Hs. }
  assert (∀ b, seed b = c → seed_flux b = flux →
               voxels b = [c] → npix b = 1 → idx_of b = Z.of_nat i + 1 →
               item_sound coords flux_values (Z.of_nat i + 1) b) as Hnew.
  { intros b Hseed Hsf Hv Hn Hi. unfold item_sound.
    rewrite Hv, Hseed, Hsf, Hn, Hi. simpl. split; [done|]. split; [done|].
    split; [done|]. by exists i. }
  destruct Hout as [[_ (im & _ & ->)]|[(idx & _ & Hj)|
                    (merge & sig & _ & _ & Hcase)]].
  - simpl. apply table_sound_insert; [done|].
    apply Hnew; simpl; by rewrite ?voxel_eq.
  - by eapply Hjoin.
  - destruct Hcase as [(idx & rest & _ & _ & Hj)|[(idx & _ & Hj)|[_ Hb]]];
      [by eapply Hjoin..|].
    destruct Hb as (im0 & its & im & _ & _ & Hloop & ->). simpl.
    eapply merge_loop_sound; [|done]. apply table_sound_insert; [done|].
    apply Hnew; simpl; by rewrite ?voxel_eq.
Qed.

Lemma scan_from_sound st0 pre st :
  table_sound coords flux_values (items st0) →
  scan_from flux_values coords minimum_npix minimum_delta st0 pre = Ok st →
  table_sound coords flux_values (items st).
Proof.
  intros Hs0 Hrun.
  apply (for_each_inv (λ s, table_sound coords flux_values (items s)))
    in Hrun; [done|done|].
  intros i st1 st2 _. apply step_sound.
Qed.
End Sound.

(** ** The index map and the voxel lists *)

Lemma processed_snoc_inv coords pre i c :
  processed coords (pre ++ [i]) c →
  processed coords pre c ∨ coords !! i = Some c.
Proof.
  intros (j & [Hj| ->%list_elem_of_singleton]%elem_of_app & Hc);
    [left; by exists j|by right].
Qed.

Section Owner.
Context `{PyRuntime}.
Variable shape3 : coord.
Variable coords : list coord.
Hypothesis coords_in_cube : ∀ c, c ∈ coords → in_cube shape3 c.
Hypothesis coords_NoDup : NoDup coords.
Hypothesis coords_int32 : Z.of_nat (length coords) < 2 ^ 31.

(** The voxels of distinct leaves about to be merged are distinct. *)
Lemma voxels_of_NoDup pre st ms :
  owner_inv coords pre st → NoDup ms → NoDup (voxels_of (items st) ms).
Proof.
  intros Hown Hnd. unfold voxels_of. apply NoDup_bind; [| |done].
  - intros m1 m2 c _ _ Hc1 Hc2.
    destruct (items st !! m1) as [r1|] eqn:Hr1; [|by apply elem_of_nil in Hc1].
    destruct (items st !! m2) as [r2|] eqn:Hr2; [|by apply elem_of_nil in Hc2].
    simpl in *.
    pose proof (own_voxels _ _ _ Hown m1 r1 c Hr1 Hc1).
    pose proof (own_voxels _ _ _ Hown m2 r2 c Hr2 Hc2). congruence.
  - intros m _. destruct (items st !! m) as [r|] eqn:Hr; simpl;
      [by eapply (own_NoDup _ _ _ Hown)|constructor].
Qed.

(** The agreement of the map and the lists after the voxel [c] and the
    leaves [ms] went to the structure [idx]. *)
Lemma absorbs_owner_inv pre st i c idx b0 ms its' im' anc' iss' :
  scan_inv shape3 coords pre st → owner_inv coords pre st →
  i ∉ pre → coords !! i = Some c →
  leaves_of (items st) ms → idx ∉ ms → astype_int32 idx = idx →
  (∀ c', c' ∈ voxels b0 ↔
         c' = c ∨ ∃ it, items st !! idx = Some it ∧ c' ∈ voxels it) →
  NoDup (voxels b0) →
  absorbs st c idx b0 ms its' im' →
  owner_inv coords (pre ++ [i])
    {| index_map := im'; items := its'; ancestor := anc'; issued := iss' |}.
Proof.
  intros Hinv Hown Hi Hc Hleaves Hidx Hid Hb0 Hnd0 Habs.
  assert (in_cube shape3 c) as Hcube
    by (by eapply coords_in_cube, list_elem_of_lookup_2).
  pose proof (absorbs_cells shape3 coords coords_in_cube _ _ _ _ _ _ _ _
                Hinv Hcube Hleaves Hidx Habs) as Hcells.
  destruct (absorbs_Ok _ _ _ _ _ _ _ Hleaves Hidx Habs)
    as (s0 & _ & Hpop & Hkeep & (b & Hb & _ & _ & _ & _ & Hvox) & _).
  assert (¬ processed coords pre c) as Hfresh
    by (by eapply (unprocessed coords coords_NoDup pre i c)).
  assert (∀ c' m r, m ∈ ms → items st !! m = Some r → c' ∈ voxels r →
                    c' ∈ voxels_of (items st) ms) as Hin_ms.
  { intros c' m r Hm Hr Hc'. apply elem_of_voxels_of. eauto. }
  assert (∀ c' k, c' ∈ voxels_of (items st) ms →
                  cells (index_map st) !! c' = Some k → k ∈ ms) as Hms_cell.
  { intros c' k (m & r & Hm & Hr & Hc')%elem_of_voxels_of Hk.
    pose proof (own_voxels _ _ _ Hown m r c' Hr Hc'). congruence. }
  split; simpl.
  - intros s k. rewrite Hcells, Hid. case_decide as Hs.
    + intros [= <-]. exists b. split; [done|]. rewrite Hvox, elem_of_app.
      destruct Hs as [->|Hs]; [left; apply Hb0; by left|by right].
    + intros Hk. destruct (own_cells _ _ _ Hown s k Hk) as (it & Hit & Hsit).
      destruct (decide (k = idx)) as [->|Hki].
      * exists b. split; [done|]. rewrite Hvox, elem_of_app. left.
        apply Hb0. right. eauto.
      * exists it. split; [|done]. rewrite Hkeep; [done| |done].
        intros Hkm. apply Hs. right. eauto.
  - intros k it c' Hk Hc'. rewrite Hcells, Hid.
    destruct (decide (k = idx)) as [->|Hki].
    + assert (it = b) as -> by congruence. case_decide as Hs; [done|].
      rewrite Hvox in Hc'. apply elem_of_app in Hc' as [Hc'|Hc']; [|tauto].
      apply Hb0 in Hc' as [->|(it & Hit & Hc')]; [tauto|].
      by eapply (own_voxels _ _ _ Hown).
    + destruct (decide (k ∈ ms)) as [Hkm|Hkm]; [by rewrite Hpop in Hk|].
      rewrite Hkeep in Hk by done.
      pose proof (own_voxels _ _ _ Hown k it c' Hk Hc') as Hcell.
      rewrite decide_False; [done|]. intros [->|Hs].
      * apply Hfresh. by eapply (inv_cells _ _ _ _ Hinv).
      * apply Hkm. by eapply Hms_cell.
  - intros c' Hc'. rewrite Hcells. case_decide; [by eexists|].
    apply processed_snoc_inv in Hc' as [Hc'|Hc'].
    + by apply (own_covered _ _ _ Hown).
    + assert (c' = c) by congruence. tauto.
  - intros k it Hk. destruct (decide (k = idx)) as [->|Hki].
    + assert (it = b) as -> by congruence. rewrite Hvox.
      apply NoDup_app. split; [done|]. split.
      * intros c' Hc' Hc'm.
        apply Hb0 in Hc' as [->|(it & Hit & Hc')].
        -- apply Hfresh. eapply inv_voxels_of; done.
        -- apply Hidx. eapply Hms_cell; [done|].
           by eapply (own_voxels _ _ _ Hown).
      * eapply voxels_of_NoDup; [done|]. by destruct Hleaves.
    + destruct (decide (k ∈ ms)) as [Hkm|Hkm]; [by rewrite Hpop in Hk|].
      rewrite Hkeep in Hk by done. by eapply (own_NoDup _ _ _ Hown).
Qed.

Variable flux_values : list float.
Variable minimum_npix : Z.
Variable minimum_delta : float.

(** One iteration keeps the agreement. *)
Lemma step_owner_inv pre st i st' :
  scan_inv shape3 coords pre st → owner_inv coords pre st → i ∉ pre →
  step flux_values coords minimum_npix minimum_delta st i = Ok st' →
  owner_inv coords (pre ++ [i]) st'.
Proof.
  intros Hinv Hown Hi (flux & c & adjacent & Hf & Hc & Hadj & Hout)%step_outcome.
  apply find_adjacent_Ok in Hadj as [Hnd _].
  destruct (inv_fresh shape3 coords pre st i Hinv Hi) as [Hfa Hfi].
  assert (¬ processed coords pre c) as Hfresh
    by (by eapply (unprocessed coords coords_NoDup pre i c)).
  apply outcome_kinds in Hout
    as [[_ Hl]|[(idx & ms & Hj & _ & _ & Hidx & Hleaves)|
                (sig & ms & Hb & _ & _ & _ & _ & _ & Hleaves)]]; [| | |done].
  - destruct Hl as (im & Hset & ->).
    eapply (absorbs_owner_inv pre st i c (Z.of_nat i + 1)
              (new_Leaf c.2 c.1.2 c.1.1 flux (Z.of_nat i + 1)) []); try done.
    + apply leaves_of_nil.
    + set_solver.
    + by apply (next_idx_int32 coords i c).
    + intros c'. simpl. rewrite voxel_eq, list_elem_of_singleton, Hfi.
      naive_solver.
    + simpl. apply NoDup_singleton.
    + by exists im.
  - destruct Hj as (it & im0 & its & im & Hit & Hset & Hloop & ->).
    eapply (absorbs_owner_inv pre st i c idx
              (add_point it c.2 c.1.2 c.1.1 flux) ms); try done.
    + apply (inv_id_int32 shape3 coords pre st idx); [done..|].
      apply (inv_items_dom _ _ _ _ Hinv). eauto.
    + intros c'. simpl. rewrite voxel_eq, elem_of_app, list_elem_of_singleton.
      rewrite Hit. naive_solver.
    + simpl. rewrite voxel_eq. apply NoDup_app.
      split; [by eapply (own_NoDup _ _ _ Hown)|].
      split; [|apply NoDup_singleton].
      intros c' Hc' ->%list_elem_of_singleton. apply Hfresh.
      by eapply (inv_voxels _ _ _ _ Hinv).
    + by exists im0.
  - destruct Hb as (im0 & its & im & Hsig & Hset & Hloop & ->).
    eapply (absorbs_owner_inv pre st i c (Z.of_nat i + 1)
              (new_Branch sig c.2 c.1.2 c.1.1 flux (Z.of_nat i + 1)) ms);
      try done.
    + intros Hin. destruct Hleaves as [_ Hleaves].
      destruct (Hleaves _ Hin) as (r & Hr & _). congruence.
    + by apply (next_idx_int32 coords i c).
    + intros c'. simpl. rewrite voxel_eq, list_elem_of_singleton, Hfi.
      naive_solver.
    + simpl. apply NoDup_singleton.
    + by exists im0.
Qed.

Lemma initial_owner_inv : owner_inv coords [] (initial_state shape3).
Proof.
  split; simpl; try (intros *; by rewrite lookup_empty).
  intros c (i & Hi & _). by apply elem_of_nil in Hi.
Qed.

(** The invariants hold after any run of the main loop over distinct
    positions. *)
Lemma scan_from_owner_inv pre st :
  NoDup pre →
  scan_from flux_values coords minimum_npix minimum_delta
            (initial_state shape3) pre = Ok st →
  scan_inv shape3 coords pre st ∧ owner_inv coords pre st.
Proof.
  intros Hnd Hrun.
  apply (for_each_ind (λ done_ st1, scan_inv shape3 coords done_ st1 ∧
                                    owner_inv coords done_ st1)) in Hrun;
    [done| |].
  - split; [by apply initial_inv|apply initial_owner_inv].
  - intros done_ i rest st1 st2 Hpre [Hinv Hown] Hstep.
    assert (i ∉ done_) as Hi.
    { rewrite Hpre in Hnd. apply NoDup_app in Hnd as (_ & Hnd & _).
      intros Hin. apply (Hnd i Hin). set_solver. }
    split; [by eapply step_inv|by eapply step_owner_inv].
Qed.
End Owner.


(** ** The table is a forest *)

Lemma same_shape_Some its its' ms k b' :
  same_shape its its' ms → its' !! k = Some b' →
  (k ∉ ms) ∧ ∃ b, its !! k = Some b ∧ typ b = typ b' ∧
                   children b = children b'.
Proof.
  intros Hsh Hk. specialize (Hsh k). case_decide; [congruence|].
  split; [done|]. rewrite Hk in Hsh.
  destruct (its !! k) as [b|]; [|done]. exists b. naive_solver.
Qed.

Lemma same_shape_keeps its its' ms k b :
  same_shape its its' ms → its !! k = Some b → k ∉ ms →
  ∃ b', its' !! k = Some b' ∧ typ b = typ b' ∧ children b = children b'.
Proof.
  intros Hsh Hk Hms. specialize (Hsh k). rewrite decide_False in Hsh by done.
  rewrite Hk in Hsh. destruct (its' !! k) as [b'|]; [|done].
  exists b'. naive_solver.
Qed.

(** Taking root leaves out of the table, and changing the other
    structures without touching their kind and children, keeps the
    forest. *)
Lemma tree_inv_shape its its' anc iss ms :
  tree_inv its anc iss →
  (∀ m, m ∈ ms → ∃ r, its !! m = Some r ∧ typ r = Leaf) →
  (∀ m, m ∈ ms → anc !! m = Some None) →
  same_shape its its' ms →
  tree_inv its' anc iss.
Proof.
  intros Ht Hleaves Hroots Hsh.
  assert (∀ q b j, its !! q = Some b → j ∈ children b → q ∉ ms) as Hpar.
  { intros q b j Hq Hj Hqm. destruct (Hleaves q Hqm) as (r & Hr & Hleaf).
    assert (r = b) as -> by congruence.
    rewrite (tree_leaf _ _ _ Ht q b Hq Hleaf) in Hj.
    by apply elem_of_nil in Hj. }
  assert (∀ p b j, its !! p = Some b → j ∈ children b → j ∉ ms) as Hch.
  { intros p b j Hp Hj Hjm.
    destruct (tree_child _ _ _ Ht p b j Hp Hj) as [_ Ha].
    rewrite (Hroots j Hjm) in Ha. done. }
  split.
  - intros k it' Hk Hleaf.
    destruct (same_shape_Some _ _ _ _ _ Hsh Hk) as (_ & it & Hit & Hty & <-).
    apply (tree_leaf _ _ _ Ht k it Hit). congruence.
  - intros k b' Hk Hbr.
    destruct (same_shape_Some _ _ _ _ _ Hsh Hk) as (_ & b & Hb & Hty & <-).
    apply (tree_branch _ _ _ Ht k b Hb). congruence.
  - intros p b' j Hp Hj.
    destruct (same_shape_Some _ _ _ _ _ Hsh Hp) as (_ & b & Hb & _ & Hcb).
    rewrite <- Hcb in Hj.
    destruct (tree_child _ _ _ Ht p b j Hb Hj) as [[r Hr] Ha].
    split; [|done].
    destruct (same_shape_keeps _ _ _ _ _ Hsh Hr) as (r' & Hr' & _);
      [by apply (Hch p b j)|by eexists].
  - intros j p Ha.
    destruct (tree_parent _ _ _ Ht j p Ha) as (q & b & Hq & Hj).
    destruct (same_shape_keeps _ _ _ _ _ Hsh Hq) as (b' & Hb' & _ & Hcb);
      [by apply (Hpar q b j)|].
    exists q, b'. split; [done|]. by rewrite <- Hcb.
  - intros p q b1 b2 j Hp Hq Hj1 Hj2.
    destruct (same_shape_Some _ _ _ _ _ Hsh Hp) as (_ & a1 & Ha1 & _ & Hc1).
    destruct (same_shape_Some _ _ _ _ _ Hsh Hq) as (_ & a2 & Ha2 & _ & Hc2).
    rewrite <- Hc1 in Hj1. rewrite <- Hc2 in Hj2.
    by eapply (tree_unique _ _ _ Ht p q a1 a2 j).
  - intros p b' j Hp Hj.
    destruct (same_shape_Some _ _ _ _ _ Hsh Hp) as (_ & b & Hb & _ & Hcb).
    rewrite <- Hcb in Hj. by eapply (tree_order _ _ _ Ht).
Qed.

Lemma root_of_root anc k : anc !! k = Some None → root_of anc k = k.
Proof. unfold root_of. by intros ->. Qed.

Lemma root_of_child anc k r : anc !! k = Some (Some r) → root_of anc k = r.
Proof. unfold root_of. by intros ->. Qed.

Lemma root_of_ext anc anc' k : anc' !! k = anc !! k → root_of anc' k = root_of anc k.
Proof. unfold root_of. by intros ->. Qed.

(** A new leaf under a fresh id keeps the forest. *)
Lemma tree_inv_new_leaf its anc iss idx leaf :
  tree_inv its anc iss →
  its !! idx = None → anc !! idx = None →
  typ leaf = Leaf → children leaf = [] →
  tree_inv (<[idx := leaf]> its) (<[idx := None]> anc) (iss ++ [idx]).
Proof.
  intros Ht Hfi Hfa Hty Hch.
  assert (∀ p b j, its !! p = Some b → j ∈ children b → j ≠ idx) as Hne.
  { intros p b j Hp Hj ->.
    destruct (tree_child _ _ _ Ht p b idx Hp Hj) as [[r Hr] _]. congruence. }
  split.
  - intros k it. destruct (decide (k = idx)) as [->|Hk].
    + rewrite lookup_insert_eq. by intros [= <-].
    + rewrite lookup_insert_ne by done. apply (tree_leaf _ _ _ Ht).
  - intros k it. destruct (decide (k = idx)) as [->|Hk].
    + rewrite lookup_insert_eq. intros [= <-]. congruence.
    + rewrite lookup_insert_ne by done. apply (tree_branch _ _ _ Ht).
  - intros p b j. destruct (decide (p = idx)) as [->|Hp].
    + rewrite lookup_insert_eq. intros [= <-]. rewrite Hch.
      by intros ?%elem_of_nil.
    + rewrite lookup_insert_ne by done. intros Hb Hj.
      destruct (tree_child _ _ _ Ht p b j Hb Hj) as [Hin Ha].
      pose proof (Hne p b j Hb Hj).
      rewrite !lookup_insert_ne by done. split; [done|].
      rewrite Ha. f_equal. f_equal. symmetry. apply root_of_ext.
      by rewrite lookup_insert_ne.
  - intros j p. destruct (decide (j = idx)) as [->|Hj].
    + by rewrite lookup_insert_eq.
    + rewrite lookup_insert_ne by done. intros Ha.
      destruct (tree_parent _ _ _ Ht j p Ha) as (q & b & Hq & Hjq).
      exists q, b. split; [|done]. rewrite lookup_insert_ne; [done|].
      intros <-. congruence.
  - intros p q b1 b2 j.
    destruct (decide (p = idx)) as [->|Hp].
    { rewrite lookup_insert_eq. intros [= <-]. rewrite Hch.
      by intros _ ?%elem_of_nil. }
    destruct (decide (q = idx)) as [->|Hq].
    { rewrite (lookup_insert_eq _ idx). intros _ [= <-]. rewrite Hch.
      by intros _ ?%elem_of_nil. }
    rewrite !lookup_insert_ne by done. apply (tree_unique _ _ _ Ht).
  - intros p b j. destruct (decide (p = idx)) as [->|Hp].
    + rewrite lookup_insert_eq. intros [= <-]. rewrite Hch.
      by intros ?%elem_of_nil.
    + rewrite lookup_insert_ne by done. intros Hb Hj.
      destruct (tree_order _ _ _ Ht p b j Hb Hj) as (a1 & a2 & H1 & H2 & Hlt).
      exists a1, a2. split; [by apply lookup_app_l_Some|].
      split; [by apply lookup_app_l_Some|done].
Qed.

(** A new branch under a fresh id over root structures of the table
    keeps the forest. *)
Lemma tree_inv_new_branch its anc iss idx b0 sig :
  tree_inv its anc iss → flat anc →
  its !! idx = None → anc !! idx = None →
  (∀ k, is_Some (its !! k) → is_Some (anc !! k)) →
  (∀ k, k ∈ sig → is_root anc k) →
  (∀ k, k ∈ sig → is_Some (its !! k)) →
  (∀ k, k ∈ sig → k ∈ iss) →
  NoDup sig → (2 ≤ length sig)%nat →
  typ b0 = Branch → children b0 = sig →
  tree_inv (<[idx := b0]> its)
           (foldl (reparent idx) (<[idx := None]> anc) sig) (iss ++ [idx]).
Proof.
  intros Ht Hflat Hfi Hfa Hdom Hroots Hsig Hiss Hnd Hlen Hty Hch.
  destruct (reparent_roots anc idx sig Hflat Hfa Hroots)
    as (_ & Hidx & _ & Hchild & Hgrand & Hsame).
  set (anc' := foldl (reparent idx) (<[idx := None]> anc) sig) in *.
  assert (∀ p b j, its !! p = Some b → j ∈ children b →
                   j ≠ idx ∧ (j ∉ sig) ∧ p ≠ idx) as Hold.
  { intros p b j Hp Hj.
    destruct (tree_child _ _ _ Ht p b j Hp Hj) as [[r Hr] Ha].
    split; [intros ->; congruence|]. split; [|intros ->; congruence].
    intros Hjs. rewrite (Hroots j Hjs) in Ha. done. }
  assert (idx ∉ sig) as Hidxsig.
  { intros Hin. destruct (Hsig idx Hin) as [r Hr]. congruence. }
  (* the ancestor of an old child follows the root of its parent *)
  assert (∀ p b j, its !! p = Some b → j ∈ children b →
                   anc' !! j = Some (Some (root_of anc' p))) as Hfollow.
  { intros p b j Hp Hj.
    destruct (Hold p b j Hp Hj) as (Hji & Hjs & Hpi).
    destruct (tree_child _ _ _ Ht p b j Hp Hj) as [_ Ha].
    destruct (decide (root_of anc p ∈ sig)) as [Hr|Hr].
    - rewrite (Hgrand j _ Hr Ha). f_equal. f_equal. symmetry.
      destruct (anc !! p) as [[r|]|] eqn:Hap.
      + rewrite (root_of_child anc p r Hap) in Hr.
        apply root_of_child. by apply (Hgrand p r).
      + rewrite (root_of_root anc p Hap) in Hr.
        apply root_of_child. by apply Hchild.
      + destruct (Hdom p) as [? ?]; [by eexists|congruence].
    - rewrite Hsame; [|done|done|].
      2:{ intros r. rewrite Ha. by intros [= <-]. }
      rewrite Ha. f_equal. f_equal. symmetry. apply root_of_ext.
      destruct (anc !! p) as [[r|]|] eqn:Hap.
      + rewrite (root_of_child anc p r Hap) in Hr.
        rewrite Hsame; [done| |done|].
        * intros Hps. rewrite (Hroots p Hps) in Hap. done.
        * intros r'. rewrite Hap. by intros [= <-].
      + rewrite (root_of_root anc p Hap) in Hr.
        rewrite Hsame; [done|done|done|].
        intros r'. by rewrite Hap.
      + destruct (Hdom p) as [? ?]; [by eexists|congruence]. }
  split.
  - intros k it. destruct (decide (k = idx)) as [->|Hk].
    + rewrite lookup_insert_eq. intros [= <-]. congruence.
    + rewrite lookup_insert_ne by done. apply (tree_leaf _ _ _ Ht).
  - intros k it. destruct (decide (k = idx)) as [->|Hk].
    + rewrite lookup_insert_eq. intros [= <-]. by rewrite Hch.
    + rewrite lookup_insert_ne by done. apply (tree_branch _ _ _ Ht).
  - intros p b j. destruct (decide (p = idx)) as [->|Hp].
    + rewrite lookup_insert_eq. intros [= <-]. rewrite Hch. intros Hj.
      rewrite lookup_insert_ne by (intros <-; tauto).
      split; [by apply Hsig|].
      rewrite (root_of_root anc' idx Hidx). by apply Hchild.
    + rewrite lookup_insert_ne by done. intros Hb Hj.
      destruct (Hold p b j Hb Hj) as (Hji & _ & _).
      rewrite lookup_insert_ne by done.
      split; [by eapply (tree_child _ _ _ Ht)|by eapply Hfollow].
  - intros j p Ha.
    assert (j ≠ idx) as Hji by (intros ->; congruence).
    destruct (decide (j ∈ sig)) as [Hjs|Hjs].
    { exists idx, b0. rewrite lookup_insert_eq. by rewrite Hch. }
    destruct (anc !! j) as [[r|]|] eqn:Haj.
    + destruct (tree_parent _ _ _ Ht j r Haj) as (q & b & Hq & Hjq).
      exists q, b. split; [|done]. rewrite lookup_insert_ne; [done|].
      intros <-. congruence.
    + rewrite Hsame in Ha; [congruence|done|done|].
      intros r. by rewrite Haj.
    + rewrite Hsame in Ha; [congruence|done|done|].
      intros r. by rewrite Haj.
  - intros p q b1 b2 j.
    destruct (decide (p = idx)) as [->|Hp];
      destruct (decide (q = idx)) as [->|Hq]; [done| | |].
    + rewrite lookup_insert_eq, lookup_insert_ne by done.
      intros [= <-] Hq2. rewrite Hch. intros Hj1 Hj2.
      destruct (Hold q b2 j Hq2 Hj2) as (_ & ? & _). tauto.
    + rewrite lookup_insert_eq, lookup_insert_ne by done.
      intros Hp1 [= <-] Hj1. rewrite Hch. intros Hj2.
      destruct (Hold p b1 j Hp1 Hj1) as (_ & ? & _). tauto.
    + rewrite !lookup_insert_ne by done. apply (tree_unique _ _ _ Ht).
  - intros p b j. destruct (decide (p = idx)) as [->|Hp].
    + rewrite lookup_insert_eq. intros [= <-]. rewrite Hch. intros Hj.
      apply Hiss, list_elem_of_lookup in Hj as [a1 Ha1].
      exists a1, (length iss). split; [by apply lookup_app_l_Some|].
      split; [|by eapply lookup_lt_Some].
      rewrite lookup_app_r by done. by rewrite Nat.sub_diag.
    + rewrite lookup_insert_ne by done. intros Hb Hj.
      destruct (tree_order _ _ _ Ht p b j Hb Hj) as (a1 & a2 & H1 & H2 & Hlt).
      exists a1, a2. split; [by apply lookup_app_l_Some|].
      split; [by apply lookup_app_l_Some|done].
Qed.

Section Forest.
Context `{PyRuntime}.
Variable shape3 : coord.
Variable coords : list coord.
Hypothesis coords_in_cube : ∀ c, c ∈ coords → in_cube shape3 c.
Hypothesis coords_NoDup : NoDup coords.
Variable flux_values : list float.
Variable minimum_npix : Z.
Variable minimum_delta : float.

(** One iteration keeps the forest. *)
Lemma step_tree_inv pre st i st' :
  scan_inv shape3 coords pre st →
  tree_inv (items st) (ancestor st) (issued st) → i ∉ pre →
  step flux_values coords minimum_npix minimum_delta st i = Ok st' →
  tree_inv (items st') (ancestor st') (issued st').
Proof.
  intros Hinv Ht Hi (flux & c & adjacent & Hf & Hc & Hadj & Hout)%step_outcome.
  pose proof (find_adjacent_roots st c adjacent (inv_flat _ _ _ _ Hinv) Hadj)
    as Hroots.
  apply find_adjacent_Ok in Hadj as [Hnd _].
  destruct (inv_fresh shape3 coords pre st i Hinv Hi) as [Hfa Hfi].
  apply outcome_kinds in Hout
    as [[_ Hl]|[(idx & ms & Hj & _ & Hms & Hidx & Hleaves)|
                (sig & ms & Hb & Hlen & Hsig & Hnds & Hms & Hdisj & Hleaves)]];
    [| | |done].
  - destruct Hl as (im & _ & ->). simpl. by apply tree_inv_new_leaf.
  - destruct Hj as (it & im0 & its & im & Hit & Hset & Hloop & ->). simpl.
    destruct (absorbs_Ok st c idx (add_point it c.2 c.1.2 c.1.1 flux) ms
                its im Hleaves Hidx)
      as (_ & _ & Hpop & Hkeep & (b & Hb & Hty & _ & _ & Hcb & _) & _);
      [by exists im0|].
    apply (tree_inv_shape (items st) its _ _ ms); [done| | |].
    + by destruct Hleaves.
    + intros m Hm. by apply Hroots, Hms.
    + intros k. case_decide as Hk; [by apply Hpop|].
      destruct (decide (k = idx)) as [->|Hki].
      * rewrite Hit, Hb. simpl in *. done.
      * rewrite Hkeep by done. by destruct (items st !! k).
  - destruct Hb as (im0 & its & im & Hsigin & Hset & Hloop & ->). simpl.
    set (idx := Z.of_nat i + 1) in *.
    set (b0 := new_Branch sig c.2 c.1.2 c.1.1 flux idx) in *.
    assert (idx ∉ ms) as Hidx.
    { intros Hin. destruct Hleaves as [_ Hleaves].
      destruct (Hleaves _ Hin) as (r & Hr & _). congruence. }
    destruct (absorbs_Ok st c idx b0 ms its im Hleaves Hidx)
      as (_ & _ & Hpop & Hkeep & (b & Hb & Hty & _ & _ & Hcb & _) & _);
      [by exists im0|].
    destruct (reparent_roots (ancestor st) idx sig)
      as (_ & _ & _ & _ & _ & Hsame);
      [apply (inv_flat _ _ _ _ Hinv)|done|by intros k Hk; apply Hroots, Hsig|].
    apply (tree_inv_shape (<[idx := b0]> (items st)) its _ _ ms).
    + apply tree_inv_new_branch; try done.
      * apply (inv_flat _ _ _ _ Hinv).
      * apply (inv_items_dom _ _ _ _ Hinv).
      * intros k Hk. by apply Hroots, Hsig.
      * intros k Hk. apply (inv_anc_dom _ _ _ _ Hinv).
        rewrite (Hroots k); [by eexists|by apply Hsig].
    + intros m Hm. destruct Hleaves as [_ Hleaves].
      destruct (Hleaves m Hm) as (r & Hr & Hrl). exists r.
      rewrite lookup_insert_ne by (intros <-; tauto). done.
    + intros m Hm. rewrite Hsame.
      * by apply Hroots, Hms.
      * intros Hin. by apply (Hdisj m).
      * intros ->. tauto.
      * intros j. rewrite (Hroots m) by (by apply Hms). done.
    + intros k. case_decide as Hk; [by apply Hpop|].
      destruct (decide (k = idx)) as [->|Hki].
      * rewrite lookup_insert_eq, Hb. done.
      * rewrite lookup_insert_ne, Hkeep by done. by destruct (items st !! k).
Qed.

Lemma initial_tree_inv : tree_inv ∅ ∅ [].
Proof. split; intros *; by rewrite lookup_empty. Qed.
End Forest.


(** ** The heads of the main loop *)

Section Scans.
Context `{PyRuntime}.
Variable shape3 : coord.
Variable coords : list coord.
Hypothesis coords_in_cube : ∀ c, c ∈ coords → in_cube shape3 c.
Hypothesis coords_NoDup : NoDup coords.
Variable flux_values : list float.
Variable minimum_npix : Z.
Variable minimum_delta : float.

Lemma scan_from_tree_inv pre st :
  NoDup pre →
  scan_from flux_values coords minimum_npix minimum_delta
            (initial_state shape3) pre = Ok st →
  tree_inv (items st) (ancestor st) (issued st).
Proof.
  intros Hnd Hrun.
  apply (for_each_ind (λ done_ st1,
           scan_inv shape3 coords done_ st1 ∧
           tree_inv (items st1) (ancestor st1) (issued st1))) in Hrun;
    [by destruct Hrun| |].
  - split; [by apply initial_inv|apply initial_tree_inv].
  - intros done_ i rest st1 st2 Hpre [Hinv Ht] Hstep.
    assert (i ∉ done_) as Hi.
    { rewrite Hpre in Hnd. apply NoDup_app in Hnd as (_ & Hnd & _).
      intros Hin. apply (Hnd i Hin). set_solver. }
    split; [by eapply step_inv|by eapply step_tree_inv].
Qed.
End Scans.

Lemma scan_order_lt `{PyRuntime} data shape3 minimum_flux i :
  i ∈ scan_order (flux_values_of data minimum_flux) →
  (i < length (coords_of shape3 data minimum_flux))%nat.
Proof.
  rewrite scan_order_Permutation. intros Hi%elem_of_seq.
  rewrite length_coords_of, <- length_flux_values_of. lia.
Qed.

Lemma scan_order_prefix `{PyRuntime} data shape3 minimum_flux pre post :
  scan_order (flux_values_of data minimum_flux) = pre ++ post →
  NoDup pre ∧
  ∀ i, i ∈ pre → (i < length (coords_of shape3 data minimum_flux))%nat.
Proof.
  intros Hord. pose proof (scan_order_NoDup data minimum_flux) as Hnd.
  rewrite Hord in Hnd. apply NoDup_app in Hnd as (Hnd & _).
  split; [done|]. intros i Hi. apply scan_order_lt. rewrite Hord.
  set_solver.
Qed.

Lemma scan_order_next `{PyRuntime} data shape3 minimum_flux pre i post :
  scan_order (flux_values_of data minimum_flux) = pre ++ i :: post →
  (i ∉ pre) ∧ (i < length (coords_of shape3 data minimum_flux))%nat.
Proof.
  intros Hord. pose proof (scan_order_NoDup data minimum_flux) as Hnd.
  rewrite Hord in Hnd. apply NoDup_app in Hnd as (_ & Hnd & _). split.
  - intros Hin. apply (Hnd i Hin). set_solver.
  - apply scan_order_lt. rewrite Hord. set_solver.
Qed.

Section Heads.
Context `{PyRuntime}.
Variable data : ndarray.
Variable n : Z.
Variable shape3 : coord.
Variable minimum_flux : float.
Variable minimum_npix : Z.
Variable minimum_delta : float.
Hypothesis data_wf : well_formed data.
Hypothesis data_recast : recast data = Ok (n, shape3).

#[local] Abbreviation coords := (coords_of shape3 data minimum_flux).
#[local] Abbreviation flux_values := (flux_values_of data minimum_flux).

(** The invariants of the main loop at each of its heads. *)
Lemma loop_head pre post st :
  Z.of_nat (length (ravel data)) < 2 ^ 31 →
  scan_order flux_values = pre ++ post →
  scan_from flux_values coords minimum_npix minimum_delta
            (initial_state shape3) pre = Ok st →
  scan_inv shape3 coords pre st ∧ lookup_inv st ∧ owner_inv coords pre st.
Proof.
  intros Hsize Hord Hrun.
  destruct (scan_order_prefix data shape3 minimum_flux pre post Hord)
    as [Hnd Hlt].
  pose proof (coords_of_in_cube data n shape3 minimum_flux data_wf
                data_recast) as Hcube.
  pose proof (coords_of_NoDup data n shape3 minimum_flux data_wf
                data_recast) as Hcnd.
  pose proof (coords_of_int32 data shape3 minimum_flux Hsize) as Hcsize.
  destruct (scan_from_owner_inv shape3 coords Hcube Hcnd Hcsize flux_values
              minimum_npix minimum_delta pre st Hnd Hrun) as [Hinv Hown].
  destruct (scan_from_total shape3 coords Hcube Hcnd Hcsize flux_values
              minimum_npix minimum_delta pre) as (st0 & Hrun0 & _ & Hlook);
    [by rewrite length_flux_values_of, length_coords_of|done|done|].
  assert (st0 = st) as -> by congruence. done.
Qed.

Lemma loop_head_tree pre post st :
  scan_order flux_values = pre ++ post →
  scan_from flux_values coords minimum_npix minimum_delta
            (initial_state shape3) pre = Ok st →
  tree_inv (items st) (ancestor st) (issued st) ∧
  table_sound coords flux_values (items st).
Proof.
  intros Hord Hrun.
  destruct (scan_order_prefix data shape3 minimum_flux pre post Hord)
    as [Hnd _].
  split.
  - eapply (scan_from_tree_inv shape3 coords); [| |done..].
    + by apply (coords_of_in_cube data n).
    + by apply (coords_of_NoDup data n).
  - eapply scan_from_sound; [|done]. intros k it. simpl.
    by rewrite lookup_empty.
Qed.
End Heads.

(** ** The three simple outcomes of an iteration *)

Lemma find_adjacent_none `{PyRuntime} st c :
  (∀ c', c' ∈ indices_adjacent c → array_get (index_map st) c' = Ok 0) →
  find_adjacent st c = Ok [].
Proof.
  intros Hzero. unfold find_adjacent.
  assert (list_comp (array_get (index_map st)) (indices_adjacent c)
          = Ok (replicate (length (indices_adjacent c)) 0)) as ->.
  { apply list_comp_Ok. revert Hzero.
    induction (indices_adjacent c) as [|c' l IH]; intros Hzero; simpl;
      constructor.
    - apply Hzero. set_solver.
    - apply IH. intros c'' Hc''. apply Hzero. set_solver. }
  simpl.
  assert (filter (λ v, v ≠ 0) (replicate (length (indices_adjacent c)) 0)
          = []) as ->.
  { induction (length (indices_adjacent c)) as [|m IH]; [done|]. simpl.
    by rewrite filter_cons_False by (intros ?; done). }
  simpl. f_equal. apply elem_of_nil_inv. intros k Hk.
  rewrite set_to_list_elem in Hk. by apply elem_of_nil in Hk.
Qed.

(** What [joins] leaves behind. *)
Lemma joins_joined shape3 coords pre st c flux idx ms st' :
  (∀ c', c' ∈ coords → in_cube shape3 c') →
  scan_inv shape3 coords pre st → in_cube shape3 c →
  leaves_of (items st) ms → idx ∉ ms → astype_int32 idx = idx →
  joins st c flux idx ms st' → joined st st' idx c ms.
Proof.
  intros Hcube Hinv Hc Hleaves Hidx Hid
    (it & im0 & its & im & Hit & Hset & Hloop & ->).
  assert (absorbs st c idx (add_point it c.2 c.1.2 c.1.1 flux) ms its im)
    as Habs by (by exists im0).
  pose proof (absorbs_cells shape3 coords Hcube pre st c idx _ ms its im
                Hinv Hc Hleaves Hidx Habs) as Hcells.
  destruct (absorbs_Ok _ _ _ _ _ _ _ Hleaves Hidx Habs)
    as (_ & _ & Hpop & Hkeep & (b & Hb & Hty & _ & Hseed & Hch & Hvox) &
        Hd & _).
  assert (dims im = padded shape3) as Hd'
    by (rewrite Hd; apply (inv_dims _ _ _ _ Hinv)).
  unfold joined. simpl. split; [|split; [|split; [|split]]].
  - exists it, b. split; [done|]. split; [done|]. simpl in *.
    rewrite voxel_eq, <- app_assoc in Hvox. done.
  - rewrite (array_get_in_cube shape3) by done.
    rewrite Hcells, decide_True by (by left). simpl. by rewrite Hid.
  - intros m Hm. split; [by apply Hpop|]. intros r v Hr Hv.
    assert (v ∈ voxels_of (items st) ms) as Hvm
      by (apply elem_of_voxels_of; eauto).
    rewrite (array_get_in_cube shape3); [|done|].
    + rewrite Hcells, decide_True by (by right). simpl. by rewrite Hid.
    + eapply (processed_in_cube shape3 coords); [done|].
      by eapply inv_voxels_of.
  - intros k Hk Hkm. by apply Hkeep.
  - done.
Qed.

(** X1. When none of the six neighbours of the current voxel lies in a
    structure (all six read 0 in the index map), the iteration creates
    a new Leaf under the id [i + 1] (lines 116-131): the leaf owns the
    voxel alone, with [npix = 1] and [fmin = fmax = flux]; the index
    map holds the id at the voxel and is unchanged elsewhere;
    [ancestor[idx] = None]; no other entry of the table or of
    [ancestor] changes. (The array has fewer than 2^31 cells.) *)
Theorem X1_no_neighbour_new_leaf `{PyRuntime} (data : ndarray) (n : Z)
    (shape3 : coord) (minimum_flux : float) (minimum_npix : Z)
    (minimum_delta : float) (pre : list nat) (i : nat) (post : list nat)
    (st : state) (flux : float) (c : coord) :
  let flux_values := flux_values_of data minimum_flux in
  let coords := coords_of shape3 data minimum_flux in
  well_formed data → recast data = Ok (n, shape3) →
  Z.of_nat (length (ravel data)) < 2 ^ 31 →
  scan_order flux_values = pre ++ i :: post →
  scan_from flux_values coords minimum_npix minimum_delta
            (initial_state shape3) pre = Ok st →
  flux_values !! i = Some flux → coords !! i = Some c →
  (∀ c', c' ∈ indices_adjacent c → array_get (index_map st) c' = Ok 0) →
  ∃ st' leaf,
    step flux_values coords minimum_npix minimum_delta st i = Ok st' ∧
    items st !! (Z.of_nat i + 1) = None ∧
    items st' = <[Z.of_nat i + 1 := leaf]> (items st) ∧
    typ leaf = Leaf ∧ idx_of leaf = Z.of_nat i + 1 ∧ seed leaf = c ∧
    voxels leaf = [c] ∧ npix leaf = 1 ∧
    fmin leaf = flux ∧ fmax leaf = flux ∧ children leaf = [] ∧
    ancestor st' = <[Z.of_nat i + 1 := None]> (ancestor st) ∧
    array_get (index_map st') c = Ok (Z.of_nat i + 1) ∧
    (∀ s, s ≠ c → cells (index_map st') !! s = cells (index_map st) !! s).
Proof.
  intros flux_values coords Hwf Hrc Hsize Hord Hrun Hflux Hc Hzero.
  destruct (loop_head data n shape3 minimum_flux minimum_npix minimum_delta
              Hwf Hrc pre (i :: post) st Hsize Hord Hrun) as (Hinv & _ & _).
  destruct (scan_order_next data shape3 minimum_flux pre i post Hord)
    as [Hi _].
  pose proof (coords_of_in_cube data n shape3 minimum_flux Hwf Hrc) as Hcube.
  pose proof (coords_of_int32 data shape3 minimum_flux Hsize) as Hcsize.
  fold coords in Hcube, Hcsize, Hinv.
  assert (in_cube shape3 c) as Hcin
    by (by eapply Hcube, list_elem_of_lookup_2).
  destruct (inv_fresh shape3 coords pre st i Hinv Hi) as [Hfa Hfi].
  destruct (next_idx_int32 coords i c Hcsize Hc) as [_ Hid].
  pose proof (inv_dims _ _ _ _ Hinv) as Hd.
  eexists. exists (new_Leaf c.2 c.1.2 c.1.1 flux (Z.of_nat i + 1)). split.
  { apply step_outcome. exists flux, c, []. split; [done|]. split; [done|].
    split; [by apply find_adjacent_none|]. left. split; [done|].
    eexists. split; [|reflexivity].
    rewrite (array_set_in_cube shape3) by done. by rewrite Hid. }
  simpl. rewrite voxel_eq. split; [done|]. do 10 (split; [done|]). split.
  - rewrite (array_get_in_cube shape3) by done. simpl.
    by rewrite lookup_insert_eq.
  - intros s Hs. by rewrite lookup_insert_ne.
Qed.

Lemma X1_no_neighbour_new_leaf_witness :
  ∃ st st' leaf,
    scan_from (flux_values_of two_peaks neg_infinity)
              (coords_of (1, 1, 3) two_peaks neg_infinity) 0 0%float
              (initial_state (1, 1, 3)) [2%nat] = Ok st ∧
    step (flux_values_of two_peaks neg_infinity)
         (coords_of (1, 1, 3) two_peaks neg_infinity) 0 0%float st 0
    = Ok st' ∧
    items st' = <[1 := leaf]> (items st) ∧ voxels leaf = [(0, 0, 0)] ∧
    array_get (index_map st') (0, 0, 0) = Ok 1.
Proof.
  assert (∃ st,
    scan_from (flux_values_of two_peaks neg_infinity)
              (coords_of (1, 1, 3) two_peaks neg_infinity) 0 0%float
              (initial_state (1, 1, 3)) [2%nat] = Ok st ∧
    Forall (λ c', array_get (index_map st) c' = Ok 0)
           (indices_adjacent (0, 0, 0))) as (st & Hrun & Hzero).
  { eexists. split; [vm_compute; reflexivity|].
    repeat constructor. }
  destruct (X1_no_neighbour_new_leaf two_peaks 2 (1, 1, 3) neg_infinity 0
              0%float [2%nat] 0%nat [1%nat] st 5%float (0, 0, 0))
    as (st' & leaf & Hstep & _ & Hits & _ & _ & _ & Hvox & _ & _ & _ & _ &
        _ & Hget & _);
    [reflexivity|reflexivity|vm_compute; reflexivity|vm_compute; reflexivity
    |done|vm_compute; reflexivity|vm_compute; reflexivity| |].
  { intros c' Hc'. by eapply Forall_forall in Hzero. }
  exists st, st', leaf. done.
Defined.

(** X2. When exactly one structure touches the current voxel (after the
    replacement by ancestors and the removal of duplicates), the voxel
    is added to that structure, whatever its kind and its significance
    (lines 133-145): the structure owns the voxel after its old ones,
    the index map holds its id at the voxel, no id is issued and the
    ancestor table and the other structures are unchanged. (The array
    has fewer than 2^31 cells.) *)
Theorem X2_single_neighbour_joins `{PyRuntime} (data : ndarray) (n : Z)
    (shape3 : coord) (minimum_flux : float) (minimum_npix : Z)
    (minimum_delta : float) (pre : list nat) (i : nat) (post : list nat)
    (st : state) (flux : float) (c : coord) (idx : Z) :
  let flux_values := flux_values_of data minimum_flux in
  let coords := coords_of shape3 data minimum_flux in
  well_formed data → recast data = Ok (n, shape3) →
  Z.of_nat (length (ravel data)) < 2 ^ 31 →
  scan_order flux_values = pre ++ i :: post →
  scan_from flux_values coords minimum_npix minimum_delta
            (initial_state shape3) pre = Ok st →
  flux_values !! i = Some flux → coords !! i = Some c →
  find_adjacent st c = Ok [idx] →
  ∃ st', step flux_values coords minimum_npix minimum_delta st i = Ok st' ∧
         joined st st' idx c [].
Proof.
  intros flux_values coords Hwf Hrc Hsize Hord Hrun Hflux Hc Hadj.
  destruct (loop_head data n shape3 minimum_flux minimum_npix minimum_delta
              Hwf Hrc pre (i :: post) st Hsize Hord Hrun)
    as (Hinv & Hlook & _).
  pose proof (coords_of_in_cube data n shape3 minimum_flux Hwf Hrc) as Hcube.
  pose proof (coords_of_int32 data shape3 minimum_flux Hsize) as Hcsize.
  fold coords in Hcube, Hcsize, Hinv.
  assert (in_cube shape3 c) as Hcin
    by (by eapply Hcube, list_elem_of_lookup_2).
  destruct (find_adjacent_total shape3 coords pre st c Hinv Hlook Hcin)
    as (adjacent & Hadj' & Hdom).
  assert (adjacent = [idx]) as -> by congruence.
  destruct (Hdom idx) as [it Hit]; [set_solver|].
  destruct (joins_total shape3 coords Hcube pre st c flux idx it [])
    as [st' Hj]; try done; [apply leaves_of_nil|set_solver|].
  exists st'. split.
  - apply step_outcome. exists flux, c, [idx]. split; [done|].
    split; [done|]. split; [done|]. right; left. by exists idx.
  - apply (joins_joined shape3 coords pre st c flux); try done.
    + apply leaves_of_nil.
    + set_solver.
    + apply (inv_id_int32 shape3 coords pre st idx); [done..|].
      apply (inv_items_dom _ _ _ _ Hinv). eauto.
Qed.

Lemma X2_single_neighbour_joins_witness :
  ∃ st st',
    scan_from (flux_values_of slope neg_infinity)
              (coords_of (1, 1, 9) slope neg_infinity) 0 0%float
              (initial_state (1, 1, 9)) [8; 1]%nat = Ok st ∧
    step (flux_values_of slope neg_infinity)
         (coords_of (1, 1, 9) slope neg_infinity) 0 0%float st 7 = Ok st' ∧
    joined st st' 9 (0, 0, 7) [].
Proof.
  assert (∃ st,
    scan_from (flux_values_of slope neg_infinity)
              (coords_of (1, 1, 9) slope neg_infinity) 0 0%float
              (initial_state (1, 1, 9)) [8; 1]%nat = Ok st ∧
    find_adjacent st (0, 0, 7) = Ok [9]) as (st & Hrun & Hadj).
  { eexists. split; vm_compute; reflexivity. }
  destruct (X2_single_neighbour_joins slope 2 (1, 1, 9) neg_infinity 0
              0%float [8; 1]%nat 7%nat [6; 5; 4; 3; 0; 2]%nat st 7%float
              (0, 0, 7) 9)
    as (st' & Hstep & Hj);
    [reflexivity|reflexivity|vm_compute; reflexivity|vm_compute; reflexivity
    |done|vm_compute; reflexivity|vm_compute; reflexivity|done|].
  exists st, st'. done.
Defined.

(** X3. When two or more structures touch the current voxel and at most
    one of them is significant, no branch is made (lines 147-221): the
    voxel goes to a reference structure, which is the significant one
    if there is one and otherwise the first insignificant leaf
    [merge[0]], and every other insignificant leaf is merged into the
    reference: it leaves the table and its voxels are restamped with
    the id of the reference. No id is issued and the ancestor table is
    unchanged, so that the ids of the absorbed leaves keep their entry
    in [ancestor]. (The array has fewer than 2^31 cells.) *)
Theorem X3_merge_without_branch `{PyRuntime} (data : ndarray) (n : Z)
    (shape3 : coord) (minimum_flux : float) (minimum_npix : Z)
    (minimum_delta : float) (pre : list nat) (i : nat) (post : list nat)
    (st : state) (flux : float) (c : coord) (adjacent merge sig : list Z) :
  let flux_values := flux_values_of data minimum_flux in
  let coords := coords_of shape3 data minimum_flux in
  well_formed data → recast data = Ok (n, shape3) →
  Z.of_nat (length (ravel data)) < 2 ^ 31 →
  scan_order flux_values = pre ++ i :: post →
  scan_from flux_values coords minimum_npix minimum_delta
            (initial_state shape3) pre = Ok st →
  flux_values !! i = Some flux → coords !! i = Some c →
  find_adjacent st c = Ok adjacent →
  partition_adjacent minimum_npix minimum_delta (items st) adjacent flux
                     merge sig →
  (2 ≤ length adjacent)%nat → (length sig ≤ 1)%nat →
  ∃ st' idx ms,
    step flux_values coords minimum_npix minimum_delta st i = Ok st' ∧
    ((sig = [] ∧ merge = idx :: ms) ∨ (sig = [idx] ∧ ms = merge)) ∧
    joined st st' idx c ms ∧
    (∀ m, m ∈ ms → ancestor st' !! m = Some None).
Proof.
  intros flux_values coords Hwf Hrc Hsize Hord Hrun Hflux Hc Hadj Hpart
    Hlen Hsiglen.
  destruct (loop_head data n shape3 minimum_flux minimum_npix minimum_delta
              Hwf Hrc pre (i :: post) st Hsize Hord Hrun)
    as (Hinv & Hlook & _).
  destruct (scan_order_next data shape3 minimum_flux pre i post Hord)
    as [Hi Hlt].
  pose proof (coords_of_in_cube data n shape3 minimum_flux Hwf Hrc) as Hcube.
  pose proof (coords_of_NoDup data n shape3 minimum_flux Hwf Hrc) as Hcnd.
  pose proof (coords_of_int32 data shape3 minimum_flux Hsize) as Hcsize.
  fold coords in Hcube, Hcnd, Hcsize, Hinv, Hlt.
  assert (in_cube shape3 c) as Hcin
    by (by eapply Hcube, list_elem_of_lookup_2).
  pose proof (find_adjacent_roots st c adjacent (inv_flat _ _ _ _ Hinv) Hadj)
    as Hroots.
  pose proof (find_adjacent_Ok st c adjacent Hadj) as [Hnd _].
  destruct (partition_adjacent_Ok _ _ _ _ _ _ _ Hnd Hpart)
    as (Hmerge & Hsig & Hleaves & Hnds & Hdom & Hdisj).
  destruct (step_total shape3 coords Hcube Hcnd Hcsize flux_values
              minimum_npix minimum_delta pre st i) as [st' Hstep];
    [by unfold flux_values, coords;
        rewrite length_flux_values_of, length_coords_of|done..|].
  pose proof Hstep as Hout.
  apply step_outcome in Hout as (flux' & c' & adjacent' & Hf' & Hc' & Hadj'
                                 & Hout).
  assert (flux' = flux) as -> by congruence.
  assert (c' = c) as -> by congruence.
  assert (adjacent' = adjacent) as -> by congruence.
  assert (∀ idx ms, idx ∈ adjacent → ms ⊆ merge → NoDup ms → idx ∉ ms →
                    joins st c flux idx ms st' →
                    joined st st' idx c ms ∧
                    ∀ m, m ∈ ms → ancestor st' !! m = Some None) as Hjoined.
  { intros idx ms Hidx Hsub Hndms Hnot Hj. split.
    - apply (joins_joined shape3 coords pre st c flux); try done.
      + split; [done|]. intros m Hm. destruct Hleaves as [_ Hleaves].
        by apply Hleaves, Hsub.
      + apply (inv_id_int32 shape3 coords pre st idx); [done..|].
        apply (inv_items_dom _ _ _ _ Hinv). by apply Hdom.
    - intros m Hm. destruct Hj as (? & ? & ? & ? & _ & _ & _ & ->). simpl.
      apply Hroots. rewrite Hmerge in Hsub.
      specialize (Hsub m Hm). by apply list_elem_of_filter in Hsub as [_ ?]. }
  destruct Hout as [[-> _]|[(idx & -> & _)|(merge' & sig' & _ & Hpart' & Hcase)]];
    [simpl in Hlen; lia|simpl in Hlen; lia|].
  destruct Hpart as [Hfm Hrm]. destruct Hpart' as [Hfm' Hrm'].
  assert (merge' = merge) as -> by congruence.
  assert (sig' = sig) as -> by congruence.
  destruct Hleaves as [Hndm Hleaves'].
  destruct Hcase as [(idx & rest & Hs & Hm & Hj)|[(idx & Hs & Hj)|[Hl _]]];
    [| |lia].
  - exists st', idx, rest. split; [done|]. split; [by left|].
    rewrite Hm in Hndm. apply NoDup_cons in Hndm as [Hnot Hndrest].
    apply Hjoined; try done.
    + assert (idx ∈ merge) as Hin by (rewrite Hm; set_solver).
      rewrite Hmerge in Hin. by apply list_elem_of_filter in Hin as [_ ?].
    + rewrite Hm. set_solver.
  - exists st', idx, merge. split; [done|]. split; [by right|].
    assert (idx ∈ sig) as Hin by (rewrite Hs; set_solver).
    apply Hjoined; try done.
    + rewrite Hsig in Hin. by apply list_elem_of_filter in Hin as [_ ?].
    + by apply Hdisj.
Qed.

Lemma X3_merge_without_branch_witness :
  ∃ st st',
    scan_from (flux_values_of two_peaks neg_infinity)
              (coords_of (1, 1, 3) two_peaks neg_infinity) 0 10%float
              (initial_state (1, 1, 3)) [2; 0]%nat = Ok st ∧
    step (flux_values_of two_peaks neg_infinity)
         (coords_of (1, 1, 3) two_peaks neg_infinity) 0 10%float st 1
    = Ok st' ∧
    joined st st' 1 (0, 0, 1) [3] ∧ ancestor st' !! 3 = Some None.
Proof.
  assert (∃ st,
    scan_from (flux_values_of two_peaks neg_infinity)
              (coords_of (1, 1, 3) two_peaks neg_infinity) 0 10%float
              (initial_state (1, 1, 3)) [2; 0]%nat = Ok st ∧
    find_adjacent st (0, 0, 1) = Ok [1; 3] ∧
    partition_adjacent 0 10%float (items st) [1; 3] 1%float [1; 3] [])
    as (st & Hrun & Hadj & Hpart).
  { eexists. split; [vm_compute; reflexivity|].
    split; [vm_compute; reflexivity|].
    split; vm_compute; reflexivity. }
  destruct (X3_merge_without_branch two_peaks 2 (1, 1, 3) neg_infinity 0
              10%float [2; 0]%nat 1%nat [] st 1%float (0, 0, 1) [1; 3] [1; 3]
              [])
    as (st' & idx & ms & Hstep & Hcase & Hj & Hanc);
    [reflexivity|reflexivity|vm_compute; reflexivity|vm_compute; reflexivity
    |done|vm_compute; reflexivity|vm_compute; reflexivity|done|done
    |simpl; lia|simpl; lia|].
  destruct Hcase as [[_ [= <- <-]]|[[=] _]].
  exists st, st'. split; [done|]. split; [done|]. split; [done|].
  apply Hanc. set_solver.
Defined.


(** ** Who owns a voxel *)

(** X4. At every head of the main loop the index map and the voxel
    lists of the table agree: for a voxel [c] of the cube, the index map
    holds the nonzero value [k] at [c] exactly when the structure under
    the key [k] of the table owns [c]. No structure owns a voxel twice,
    and no voxel is owned by two structures. (Lines 125-128, 142-145,
    177-193, 205-221, 233-252; the array has fewer than 2^31 cells.) *)
Theorem X4_index_map_names_owner `{PyRuntime} (data : ndarray) (n : Z)
    (shape3 : coord) (minimum_flux : float) (minimum_npix : Z)
    (minimum_delta : float) (pre : list nat) (st : state) :
  well_formed data → recast data = Ok (n, shape3) →
  Z.of_nat (length (ravel data)) < 2 ^ 31 →
  reaches data minimum_flux minimum_npix minimum_delta shape3 pre st →
  (∀ c k, in_cube shape3 c →
          (array_get (index_map st) c = Ok k ∧ k ≠ 0) ↔
          ∃ it, items st !! k = Some it ∧ c ∈ voxels it) ∧
  (∀ k it, items st !! k = Some it → NoDup (voxels it)) ∧
  (∀ k1 k2 it1 it2 c, items st !! k1 = Some it1 → items st !! k2 = Some it2 →
                      c ∈ voxels it1 → c ∈ voxels it2 → k1 = k2).
Proof.
  intros Hwf Hrc Hsize (post & Hord & Hrun).
  destruct (loop_head data n shape3 minimum_flux minimum_npix minimum_delta
              Hwf Hrc pre post st Hsize Hord Hrun) as (Hinv & _ & Hown).
  split; [|split].
  - intros c k Hc. rewrite (array_get_in_cube shape3);
      [|apply (inv_dims _ _ _ _ Hinv)|done].
    split.
    + intros [[= Hk] Hk0].
      destruct (cells (index_map st) !! c) as [v|] eqn:Hv; [|done].
      simpl in Hk. subst v. by apply (own_cells _ _ _ Hown).
    + intros (it & Hit & Hcit).
      rewrite (own_voxels _ _ _ Hown k it c Hit Hcit). simpl.
      split; [done|].
      destruct (inv_id shape3 _ pre st k Hinv) as (i & _ & ->); [|lia].
      apply (inv_items_dom _ _ _ _ Hinv). eauto.
  - apply (own_NoDup _ _ _ Hown).
  - intros k1 k2 it1 it2 c H1 H2 Hc1 Hc2.
    pose proof (own_voxels _ _ _ Hown k1 it1 c H1 Hc1).
    pose proof (own_voxels _ _ _ Hown k2 it2 c H2 Hc2). congruence.
Qed.

Lemma X4_index_map_names_owner_witness :
  ∃ st, reaches two_peaks neg_infinity 0 3%float (1, 1, 3) [2; 0; 1]%nat st ∧
        (∃ it, items st !! 2 = Some it ∧ voxels it = [(0, 0, 1)]) ∧
        ∀ c k, in_cube (1, 1, 3) c →
               (array_get (index_map st) c = Ok k ∧ k ≠ 0) ↔
               ∃ it, items st !! k = Some it ∧ c ∈ voxels it.
Proof.
  assert (∃ st, reaches two_peaks neg_infinity 0 3%float (1, 1, 3)
                        [2; 0; 1]%nat st ∧
                ∃ it, items st !! 2 = Some it ∧ voxels it = [(0, 0, 1)])
    as (st & Hst & Hit).
  { eexists. split; [exists []; split; vm_compute; reflexivity|].
    eexists. split; vm_compute; reflexivity. }
  exists st. split; [done|]. split; [done|].
  apply (X4_index_map_names_owner two_peaks 2 (1, 1, 3) neg_infinity 0
           3%float [2; 0; 1]%nat st);
    [reflexivity|reflexivity|vm_compute; reflexivity|done].
Defined.




(** ** The index map of the result *)

Lemma view_get_in_cube n shape3 a c :
  (n = 2 ∨ n = 3) → (n = 2 → shape3.1.1 = 1) →
  dims a = padded shape3 → in_cube shape3 c →
  view_get n a (voxel_indices n c) = Ok (default 0 (cells a !! c)).
Proof.
  intros Hn Hz Hd Hc. unfold view_get, voxel_indices.
  destruct Hn as [-> | ->]; simpl.
  - assert ((0, c.1.2, c.2) = c) as ->.
    { destruct Hc as (Hc & _). rewrite Hz in Hc by done.
      destruct c as [[z y] x]. simpl in *. f_equal. f_equal. lia. }
    by rewrite (array_get_in_cube shape3).
  - rewrite voxel_eq. by rewrite (array_get_in_cube shape3).
Qed.

Lemma compute_Ok `{PyRuntime} data minimum_flux minimum_npix minimum_delta d :
  _compute data minimum_flux minimum_npix minimum_delta = Ok d →
  ∃ shape3 st its,
    recast data = Ok (n_dim d, shape3) ∧
    scan shape3 data minimum_flux minimum_npix minimum_delta = Ok st ∧
    prune minimum_npix minimum_delta (items st) = Ok its ∧
    make_trunk its (ancestor st) = Ok (trunk d) ∧
    make_item_type_map shape3 its = Ok (item_type_map d) ∧
    index_map_of d = index_map st ∧ data_of d = data.
Proof.
  intros Hcomp. unfold _compute in Hcomp.
  apply bind_Ok in Hcomp as ([n shape3] & Hrc & Hcomp).
  apply bind_Ok in Hcomp as (st & Hscan & Hcomp).
  apply bind_Ok in Hcomp as (its & Hprune & Hcomp).
  apply bind_Ok in Hcomp as (tr & Htr & Hcomp).
  apply bind_Ok in Hcomp as (itm & Hitm & Hcomp). injection Hcomp as <-.
  simpl. exists shape3, st, its. done.
Qed.

(** X6. In the index map of the finished dendrogram a voxel holds a
    nonzero value exactly when its flux is above [minimum_flux]; a
    voxel at or below the threshold, or whose flux is NaN, holds 0.
    The values are between 0 and the number of voxels above the
    threshold. (Lines 62-73, 128, 145, 180, 208, 236; the array has
    fewer than 2^31 cells.) *)
Theorem X6_index_map_marks_kept `{PyRuntime} (data : ndarray)
    (minimum_flux : float) (minimum_npix : Z) (minimum_delta : float)
    (d : Dendrogram) (n : Z) (shape3 : coord) :
  well_formed data → Z.of_nat (length (ravel data)) < 2 ^ 31 →
  recast data = Ok (n, shape3) →
  _compute data minimum_flux minimum_npix minimum_delta = Ok d →
  ∀ j f, ravel data !! j = Some f →
    ∃ v, view_get (n_dim d) (index_map_of d)
                  (voxel_indices (n_dim d) (unravel_index shape3 j)) = Ok v ∧
         (v ≠ 0 ↔ (minimum_flux <? f)%float = true) ∧
         0 ≤ v ≤ Z.of_nat (length (kept data minimum_flux)).
Proof.
  intros Hwf Hsize Hrc Hcomp j f Hj.
  apply compute_Ok in Hcomp
    as (shape3' & st & its & Hrc' & Hscan & _ & _ & _ & Him & _).
  rewrite Hrc in Hrc'. injection Hrc' as -> <-. rewrite Him.
  unfold scan in Hscan.
  set (coords := coords_of shape3 data minimum_flux) in *.
  set (flux_values := flux_values_of data minimum_flux) in *.
  destruct (loop_head data (n_dim d) shape3 minimum_flux minimum_npix
              minimum_delta Hwf Hrc (scan_order flux_values) [] st Hsize)
    as (Hinv & _ & Hown); [by rewrite app_nil_r|done|].
  fold coords in Hinv, Hown.
  destruct (recast_size _ _ _ Hrc) as (Hsz & (Hz0 & Hy0 & Hx0) & Hn & Hz).
  assert (Z.of_nat j < shape3.1.1 * shape3.1.2 * shape3.2) as Hjlt.
  { apply lookup_lt_Some in Hj. rewrite Hwf in Hj. lia. }
  set (c := unravel_index shape3 j).
  assert (in_cube shape3 c) as Hc.
  { unfold c. destruct shape3 as [[nz ny] nx]. simpl in *.
    apply unravel_index_in_cube; lia. }
  assert (∀ k, cells (index_map st) !! c = Some k →
               ∃ i, i ∈ scan_order flux_values ∧ k = Z.of_nat i + 1) as Hid.
  { intros k Hk. destruct (own_cells _ _ _ Hown c k Hk) as (it & Hit & _).
    apply (inv_id shape3 coords _ st k Hinv).
    apply (inv_items_dom _ _ _ _ Hinv). eauto. }
  exists (default 0 (cells (index_map st) !! c)).
  split; [by apply (view_get_in_cube _ shape3);
            [|done|apply (inv_dims _ _ _ _ Hinv)|]|].
  split; [split|].
  - intros Hv. clear Hid.
    destruct (cells (index_map st) !! c) as [v|] eqn:Hcell; [|done].
    destruct (inv_cells _ _ _ _ Hinv c v Hcell) as (i & _ & Hi).
    unfold coords, coords_of in Hi. rewrite list_lookup_fmap in Hi.
    destruct ((kept data minimum_flux).*1 !! i) as [j'|] eqn:Hj'; [|done].
    simpl in Hi. injection Hi as Hi.
    assert (j' = j) as ->.
    { destruct shape3 as [[nz ny] nx]. simpl in *.
      apply (unravel_index_inj nz ny nx); [nia|nia|done]. }
    apply list_elem_of_lookup_2, list_elem_of_fmap in Hj'
      as ([j'' f'] & -> & Hin). simpl in *.
    apply elem_of_kept in Hin as [Hf' Hlt]. congruence.
  - intros Hlt.
    assert ((j, f) ∈ kept data minimum_flux) as Hin
      by (by apply elem_of_kept).
    assert (c ∈ coords) as Hcc.
    { unfold coords, coords_of, c. apply list_elem_of_fmap. exists j.
      split; [done|]. apply list_elem_of_fmap. by exists (j, f). }
    apply list_elem_of_lookup in Hcc as [i Hi].
    assert (processed coords (scan_order flux_values) c) as Hp.
    { exists i. split; [|done].
      unfold flux_values. rewrite scan_order_Permutation.
      apply elem_of_seq. apply lookup_lt_Some in Hi.
      unfold coords in Hi. rewrite length_coords_of in Hi.
      rewrite length_flux_values_of. lia. }
    destruct (own_covered _ _ _ Hown c Hp) as [k Hk]. rewrite Hk. simpl.
    destruct (Hid k Hk) as (i' & _ & ->). lia.
  - destruct (cells (index_map st) !! c) as [v|] eqn:Hcell; simpl; [|lia].
    destruct (Hid v eq_refl) as (i & Hi & ->).
    apply (scan_order_lt data shape3) in Hi.
    rewrite length_coords_of in Hi. lia.
Qed.

Lemma X6_index_map_marks_kept_witness :
  ∃ d, _compute slope 2%float 0 0%float = Ok d ∧
       ∀ j f, ravel slope !! j = Some f →
         ∃ v, view_get (n_dim d) (index_map_of d)
                (voxel_indices (n_dim d) (unravel_index (1, 1, 9) j)) = Ok v ∧
              (v ≠ 0 ↔ (2 <? f)%float = true) ∧
              0 ≤ v ≤ Z.of_nat (length (kept slope 2%float)).
Proof.
  assert (∃ d, _compute slope 2%float 0 0%float = Ok d) as [d Hd].
  { eexists. vm_compute. reflexivity. }
  exists d. split; [done|].
  apply (X6_index_map_marks_kept slope 2%float 0 0%float d 2 (1, 1, 9));
    [reflexivity|vm_compute; reflexivity|reflexivity|done].
Defined.


(** ** Step 2 and Step 3 *)

Lemma prune_Ok `{PyRuntime} minimum_npix minimum_delta its its' :
  prune minimum_npix minimum_delta its = Ok its' →
  ∀ k it, its' !! k = Some it →
          its !! k = Some it ∧ prunable minimum_npix minimum_delta it = false.
Proof.
  intros Hprune k it.
  destruct (prune_total minimum_npix minimum_delta its)
    as (its'' & Hprune' & Hlk).
  rewrite Hprune in Hprune'. injection Hprune' as <-.
  rewrite Hlk. destruct (its !! k) as [it'|]; [|done].
  destruct (prunable minimum_npix minimum_delta it') eqn:Hp; [done|].
  by intros [= <-].
Qed.

(** X7. Step 2 (lines 263-271) never fails; it never removes or
    changes a Branch; a structure that remains is unchanged; every Leaf
    that remains passes the test, [npix >= minimum_npix] and not
    [fmax - fmin < minimum_delta]; and a second pass over the result
    would remove nothing. *)
Theorem X7_prune_keeps_significant `{PyRuntime} (minimum_npix : Z)
    (minimum_delta : float) (its : gmap Z item) :
  ∃ its', prune minimum_npix minimum_delta its = Ok its' ∧
    (∀ k b, its !! k = Some b → typ b = Branch → its' !! k = Some b) ∧
    (∀ k it, its' !! k = Some it →
       its !! k = Some it ∧
       (typ it = Leaf →
        minimum_npix ≤ npix it ∧
        (fmax it - fmin it <? minimum_delta)%float = false)) ∧
    prune minimum_npix minimum_delta its' = Ok its'.
Proof.
  destruct (prune_total minimum_npix minimum_delta its)
    as (its' & Hprune & Hlk).
  pose proof (prune_Ok _ _ _ _ Hprune) as Hkept.
  exists its'. split; [done|]. split; [|split].
  - intros k b Hb Hty. rewrite Hlk, Hb. unfold prunable.
    rewrite bool_decide_eq_false_2 by congruence. done.
  - intros k it Hk. destruct (Hkept k it Hk) as [Hit Hp].
    split; [done|]. intros Hleaf. unfold prunable in Hp.
    rewrite bool_decide_eq_true_2 in Hp by done. simpl in Hp.
    apply orb_false_elim in Hp as [Hn Hd]. split; [lia|done].
  - destruct (prune_total minimum_npix minimum_delta its')
      as (its'' & Hprune' & Hlk').
    rewrite Hprune'. f_equal. apply map_eq. intros k. rewrite Hlk'.
    destruct (its' !! k) as [it|] eqn:Hk; [|done].
    destruct (Hkept k it Hk) as [_ ->]. done.
Qed.

Lemma make_trunk_Ok `{PyRuntime} its anc tr :
  make_trunk its anc = Ok tr →
  Forall2 (λ k it, its !! k = Some it)
          (filter (λ k, anc !! k = Some None) (dict_keys (dom its))) tr.
Proof.
  unfold make_trunk. intros Hrun.
  apply (for_each_ind (λ done_ tr1,
    Forall2 (λ k it, its !! k = Some it)
            (filter (λ k, anc !! k = Some None) done_) tr1)) in Hrun;
    [done|constructor|].
  intros done_ k rest tr1 tr2 _ IH Hbody.
  apply bind_Ok in Hbody as (a & Ha%dict_get_Ok & Hbody).
  rewrite filter_app. destruct a as [p|].
  - injection Hbody as <-.
    rewrite filter_cons_False, filter_nil, app_nil_r by congruence. done.
  - apply bind_Ok in Hbody as (it & Hit%dict_get_Ok & Hbody).
    injection Hbody as <-.
    rewrite filter_cons_True, filter_nil by done.
    apply Forall2_app; [done|]. by constructor.
Qed.

(** X8. The trunk of the finished dendrogram (lines 273-277) holds the
    structures that remain in the table after Step 2 and whose entry in
    [ancestor] is None, each once, in the order in which Python
    iterates over the keys of the table: the ids of the trunk are the
    keys [k] with [ancestor[k] = None], in that order, and each element
    is the structure under its id. *)
Theorem X8_trunk_is_roots `{PyRuntime} (data : ndarray)
    (minimum_flux : float) (minimum_npix : Z) (minimum_delta : float)
    (d : Dendrogram) :
  _compute data minimum_flux minimum_npix minimum_delta = Ok d →
  ∃ shape3 st its,
    scan shape3 data minimum_flux minimum_npix minimum_delta = Ok st ∧
    prune minimum_npix minimum_delta (items st) = Ok its ∧
    idx_of <$> trunk d
    = filter (λ k, ancestor st !! k = Some None) (dict_keys (dom its)) ∧
    NoDup (idx_of <$> trunk d) ∧
    (∀ it, it ∈ trunk d ↔
           ∃ k, its !! k = Some it ∧ ancestor st !! k = Some None) ∧
    (∀ it, it ∈ trunk d → its !! idx_of it = Some it).
Proof.
  intros Hcomp.
  apply compute_Ok in Hcomp
    as (shape3 & st & its & _ & Hscan & Hprune & Htr & _).
  exists shape3, st, its. split; [done|]. split; [done|].
  apply make_trunk_Ok in Htr.
  assert (keyed its) as Hkeyed.
  { intros k it [Hit _]%(prune_Ok _ _ _ _ Hprune). revert k it Hit.
    eapply (scan_from_keyed _ _ _ _ (initial_state shape3)); [|done].
    intros k' it'. simpl. by rewrite lookup_empty. }
  set (roots := filter (λ k, ancestor st !! k = Some None)
                       (dict_keys (dom its))) in *.
  assert (idx_of <$> trunk d = roots) as Hids.
  { clear -Htr Hkeyed. induction Htr as [|k it ks tr Hk _ IH]; [done|].
    rewrite fmap_cons, IH. f_equal. by apply Hkeyed. }
  assert (∀ it, it ∈ trunk d ↔ ∃ k, k ∈ roots ∧ its !! k = Some it) as Hin.
  { clear -Htr. intros it. split.
    - intros Hit. induction Htr as [|k it' ks tr Hk _ IH];
        [by apply elem_of_nil in Hit|].
      apply elem_of_cons in Hit as [->|Hit].
      + exists k. split; [left|done].
      + destruct (IH Hit) as (k' & ? & ?). exists k'. split; [by right|done].
    - intros (k & Hk & Hit). induction Htr as [|k' it' ks tr Hk' _ IH];
        [by apply elem_of_nil in Hk|].
      apply elem_of_cons in Hk as [->|Hk].
      + assert (it' = it) as -> by congruence. left.
      + right. by apply IH. }
  split; [done|]. split; [|split].
  - rewrite Hids. apply NoDup_filter, dict_keys_NoDup.
  - intros it. rewrite Hin. unfold roots. split.
    + intros (k & [Hk _]%list_elem_of_filter & Hit). eauto.
    + intros (k & Hit & Hk). exists k. split; [|done].
      apply list_elem_of_filter. split; [done|].
      apply dict_keys_elem, elem_of_dom. eauto.
  - intros it (k & _ & Hit)%Hin. by rewrite (Hkeyed k it Hit).
Qed.

Lemma X8_trunk_is_roots_witness :
  ∃ d shape3 st its,
    _compute rising_peaks neg_infinity 0 0%float = Ok d ∧
    scan shape3 rising_peaks neg_infinity 0 0%float = Ok st ∧
    prune 0 0%float (items st) = Ok its ∧
    idx_of <$> trunk d = [2] ∧
    idx_of <$> trunk d
    = filter (λ k, ancestor st !! k = Some None) (dict_keys (dom its)).
Proof.
  assert (∃ d, _compute rising_peaks neg_infinity 0 0%float = Ok d ∧
               idx_of <$> trunk d = [2]) as (d & Hd & Hids).
  { eexists. split; vm_compute; reflexivity. }
  destruct (X8_trunk_is_roots rising_peaks neg_infinity 0 0%float d Hd)
    as (shape3 & st & its & Hscan & Hprune & Heq & _).
  exists d, shape3, st, its. done.
Defined.

(** The item-type map, given who owns each voxel. *)
Lemma make_item_type_map_Ok `{PyRuntime} shape3 its itm
    (owner : coord → option Z) :
  (∀ k it c, its !! k = Some it → c ∈ voxels it →
             owner c = Some k ∧ in_cube shape3 c) →
  (∀ k it c, owner c = Some k → its !! k = Some it → c ∈ voxels it) →
  make_item_type_map shape3 its = Ok itm →
  dims itm = shape3 ∧
  ∀ c, cells itm !! c = type_level <$> (owner c ≫= λ k, its !! k).
Proof.
  intros Hown Hback. unfold make_item_type_map. intros Hrun.
  apply (for_each_ind (λ done_ im,
    dims im = shape3 ∧
    ∀ c, cells im !! c =
         type_level <$> (owner c ≫= λ k,
                           if decide (k ∈ done_) then its !! k else None)))
    in Hrun.
  - destruct Hrun as [Hd Hc]. split; [done|]. intros c. rewrite Hc.
    destruct (owner c) as [k|]; [|done]. simpl.
    case_decide as Hk; [done|]. symmetry.
    destruct (its !! k) as [it|] eqn:Hit; [|done].
    exfalso. apply Hk, dict_keys_elem, elem_of_dom. eauto.
  - split; [done|]. intros c. simpl. rewrite lookup_empty.
    destruct (owner c) as [k|]; [|done]. simpl.
    try (case_decide as Hk; [by apply elem_of_nil in Hk|]). done.
  - intros done_ k rest im1 im2 Hkeys [Hd Hc] Hbody.
    apply bind_Ok in Hbody as (it & Hit%dict_get_Ok & Hbody).
    assert (add_footprint it im1 (type_level it) = Ok im2) as Hfp.
    { unfold type_level. by case_decide. }
    clear Hbody.
    assert (∀ c, c ∈ voxels it → norm_coord im1 c = Ok c) as Hnorm.
    { intros c Hcit. apply norm_coord_inside. rewrite Hd.
      by apply (Hown k it c). }
    apply add_footprint_Ok in Hfp as (Hd' & Hw & Hk).
    split; [congruence|]. intros c.
    destruct (decide (c ∈ voxels it)) as [Hcit|Hcit].
    + destruct (Hw c Hcit) as (s & Hs & Hv). rewrite Hnorm in Hs by done.
      injection Hs as <-. rewrite Hv.
      destruct (Hown k it c Hit Hcit) as [-> _]. simpl.
      rewrite decide_True by set_solver. by rewrite Hit.
    + rewrite Hk.
      2:{ intros c' Hc'. rewrite Hnorm by done. by intros [= ->]. }
      rewrite Hc. destruct (owner c) as [k'|] eqn:Hk'; [|done]. simpl.
      destruct (decide (k' = k)) as [->|Hne].
      { exfalso. by apply Hcit, (Hback k it c). }
      f_equal. apply decide_ext. set_solver.
Qed.

Lemma view_get_inside n a c :
  (n = 2 ∨ n = 3) → (n = 2 → c.1.1 = 0) → in_cube (dims a) c →
  view_get n a (voxel_indices n c) = Ok (default 0 (cells a !! c)).
Proof.
  intros Hn Hz Hc. unfold view_get, voxel_indices.
  destruct Hn as [-> | ->]; simpl.
  - assert ((0, c.1.2, c.2) = c) as ->.
    { rewrite <- Hz by done. apply voxel_eq. }
    unfold array_get. by rewrite norm_coord_inside.
  - rewrite voxel_eq. unfold array_get. by rewrite norm_coord_inside.
Qed.

(** X9. The item-type map of the finished dendrogram (lines 279-286)
    holds, at each voxel of the cube, 2 when a Leaf that remains after
    Step 2 owns the voxel, 1 when a Branch that remains owns it (the
    voxels the branch owns itself, not those of its descendants), and 0
    when no remaining structure owns it: a voxel at or below the
    threshold, or a voxel of a leaf that Step 2 removed. (The array has
    fewer than 2^31 cells.) *)
Theorem X9_item_type_map `{PyRuntime} (data : ndarray)
    (minimum_flux : float) (minimum_npix : Z) (minimum_delta : float)
    (d : Dendrogram) (n : Z) (shape3 : coord) :
  well_formed data → Z.of_nat (length (ravel data)) < 2 ^ 31 →
  recast data = Ok (n, shape3) →
  _compute data minimum_flux minimum_npix minimum_delta = Ok d →
  ∃ st its,
    scan shape3 data minimum_flux minimum_npix minimum_delta = Ok st ∧
    prune minimum_npix minimum_delta (items st) = Ok its ∧
    ∀ c, in_cube shape3 c →
      ∃ t, view_get (n_dim d) (item_type_map d) (voxel_indices (n_dim d) c)
           = Ok t ∧
           (t = 2 ↔ ∃ it, owns its it c ∧ typ it = Leaf) ∧
           (t = 1 ↔ ∃ it, owns its it c ∧ typ it = Branch) ∧
           (t = 0 ↔ ¬ ∃ it, owns its it c).
Proof.
  intros Hwf Hsize Hrc Hcomp.
  apply compute_Ok in Hcomp
    as (shape3' & st & its & Hrc' & Hscan & Hprune & _ & Hitm & _).
  rewrite Hrc in Hrc'. injection Hrc' as -> <-.
  exists st, its. split; [done|]. split; [done|].
  pose proof Hscan as Hrun. unfold scan in Hrun.
  set (coords := coords_of shape3 data minimum_flux) in *.
  set (flux_values := flux_values_of data minimum_flux) in *.
  destruct (loop_head data (n_dim d) shape3 minimum_flux minimum_npix
              minimum_delta Hwf Hrc (scan_order flux_values) [] st Hsize)
    as (Hinv & _ & Hown); [by rewrite app_nil_r|done|].
  fold coords in Hinv, Hown.
  pose proof (prune_Ok _ _ _ _ Hprune) as Hkept.
  destruct (make_item_type_map_Ok shape3 its (item_type_map d)
              (λ c, cells (index_map st) !! c)) as [Hd Hcells]; [| |done|].
  { intros k it c Hit Hc. apply Hkept in Hit as [Hit _]. split.
    - by apply (own_voxels _ _ _ Hown k it).
    - eapply processed_in_cube; [by apply (coords_of_in_cube data (n_dim d))|].
      by eapply (inv_voxels _ _ _ _ Hinv). }
  { intros k it c Hcell Hit. apply Hkept in Hit as [Hit _].
    destruct (own_cells _ _ _ Hown c k Hcell) as (it' & Hit' & Hc).
    congruence. }
  destruct (recast_size _ _ _ Hrc) as (_ & _ & Hn & Hz).
  intros c Hc. eexists. split.
  { apply view_get_inside; [done| |by rewrite Hd].
    intros Hn2. destruct Hc as (Hc & _). rewrite Hz in Hc by done. lia. }
  rewrite Hcells.
  assert (∀ it, owns its it c ↔
                ∃ k, cells (index_map st) !! c = Some k ∧ its !! k = Some it)
    as Howns.
  { intros it. split.
    - intros (k & Hit & Hcit). exists k. split; [|done].
      apply Hkept in Hit as [Hit _]. by apply (own_voxels _ _ _ Hown k it).
    - intros (k & Hcell & Hit). exists k. split; [done|].
      destruct (own_cells _ _ _ Hown c k Hcell) as (it' & Hit' & Hcit).
      apply Hkept in Hit as [Hit _]. congruence. }
  destruct (cells (index_map st) !! c) as [k|] eqn:Hcell; simpl.
  - destruct (its !! k) as [it|] eqn:Hit; simpl.
    + assert (owns its it c) as Hit_owns by (apply Howns; eauto).
      assert (∀ it', owns its it' c → it' = it) as Huniq.
      { intros it' (k' & Hk' & Hit')%Howns. congruence. }
      unfold type_level. case_decide as Hty.
      * split; [|split]; split; try done; try (intros; exfalso; eauto; lia).
        -- eauto.
        -- intros (it' & Ho & Hb). rewrite (Huniq it' Ho) in Hb. congruence.
      * split; [|split]; split; try done; try (intros; exfalso; eauto; lia).
        -- intros (it' & Ho & Hl). rewrite (Huniq it' Ho) in Hl. congruence.
        -- intros _. exists it. split; [done|]. by destruct (typ it).
    + assert (¬ ∃ it, owns its it c) as Hnone.
      { intros (it & (k' & Hk' & Hit')%Howns). congruence. }
      split; [|split]; split; try done; try (intros; exfalso; lia).
      * intros (it & Ho & _). exfalso. eauto.
      * intros (it & Ho & _). exfalso. eauto.
  - assert (¬ ∃ it, owns its it c) as Hnone.
    { intros (it & (k' & Hk' & Hit')%Howns). congruence. }
    split; [|split]; split; try done; try (intros; exfalso; lia).
    * intros (it & Ho & _). exfalso. eauto.
    * intros (it & Ho & _). exfalso. eauto.
Qed.

Lemma X9_item_type_map_witness :
  ∃ d st its,
    _compute two_peaks neg_infinity 0 3%float = Ok d ∧
    scan (1, 1, 3) two_peaks neg_infinity 0 3%float = Ok st ∧
    prune 0 3%float (items st) = Ok its ∧
    ∀ c, in_cube (1, 1, 3) c →
      ∃ t, view_get (n_dim d) (item_type_map d) (voxel_indices (n_dim d) c)
           = Ok t ∧
           (t = 2 ↔ ∃ it, owns its it c ∧ typ it = Leaf) ∧
           (t = 1 ↔ ∃ it, owns its it c ∧ typ it = Branch) ∧
           (t = 0 ↔ ¬ ∃ it, owns its it c).
Proof.
  assert (∃ d, _compute two_peaks neg_infinity 0 3%float = Ok d) as [d Hd].
  { eexists. vm_compute. reflexivity. }
  destruct (X9_item_type_map two_peaks neg_infinity 0 3%float d 2 (1, 1, 3))
    as (st & its & Hscan & Hprune & Hmap);
    [reflexivity|vm_compute; reflexivity|reflexivity|done|].
  exists d, st, its. done.
Defined.




(** ** The shape of the table *)

Lemma descends_rank its anc iss k p :
  tree_inv its anc iss → NoDup iss → descends its k p →
  ∃ a1 a2 : nat, iss !! a1 = Some k ∧ iss !! a2 = Some p ∧ (a1 < a2)%nat.
Proof.
  intros Ht Hnd. induction 1 as [p b j Hp Hj|p b j k Hp Hj _ IH].
  - by eapply (tree_order _ _ _ Ht).
  - destruct IH as (b1 & b2 & Hb1 & Hb2 & Hlt).
    destruct (tree_order _ _ _ Ht p b j Hp Hj) as (a1 & a2 & Ha1 & Ha2 & Hlt').
    assert (b2 = a1) as -> by (by eapply NoDup_lookup).
    exists b1, a2. split; [done|]. split; [done|lia].
Qed.

Lemma descends_root its anc iss k p :
  tree_inv its anc iss → descends its k p →
  anc !! k = Some (Some (root_of anc p)).
Proof.
  intros Ht. induction 1 as [p b j Hp Hj|p b j k Hp Hj _ IH].
  - by eapply (tree_child _ _ _ Ht).
  - destruct (tree_child _ _ _ Ht p b j Hp Hj) as [_ Ha].
    by rewrite IH, (root_of_child anc j _ Ha).
Qed.

(** X11. At every head of the main loop the table and the ancestor
    table describe a forest (lines 116-258): a Leaf has no children and
    a Branch at least two distinct ones; every child is in the table;
    a structure with an ancestor is the child of exactly one branch; a
    child was created before its parent, so that no structure lies
    below itself; and the ancestor entry of every structure below [p]
    is the root of the tree of [p] ([ancestor[p]], or [p] itself when
    that is None). *)
Theorem X11_table_is_forest `{PyRuntime} (data : ndarray) (n : Z)
    (shape3 : coord) (minimum_flux : float) (minimum_npix : Z)
    (minimum_delta : float) (pre : list nat) (st : state) :
  well_formed data → recast data = Ok (n, shape3) →
  reaches data minimum_flux minimum_npix minimum_delta shape3 pre st →
  tree_inv (items st) (ancestor st) (issued st) ∧
  (∀ k, ¬ descends (items st) k k) ∧
  (∀ k p, descends (items st) k p →
          ancestor st !! k = Some (Some (root_of (ancestor st) p))).
Proof.
  intros Hwf Hrc Hreach.
  destruct (reaches_inv data n shape3 minimum_flux Hwf Hrc _ _ _ _ Hreach)
    as [Hndpre Hinv].
  destruct Hreach as (post & Hord & Hrun).
  destruct (loop_head_tree data n shape3 minimum_flux minimum_npix
              minimum_delta Hwf Hrc pre post st Hord Hrun) as [Ht _].
  assert (NoDup (issued st)) as Hnd.
  { destruct (inv_issued _ _ _ _ Hinv) as (l & Hl & ->).
    apply NoDup_fmap_2; [intros i j; lia|]. by eapply sublist_NoDup. }
  split; [done|]. split.
  - intros k Hk.
    destruct (descends_rank _ _ _ k k Ht Hnd Hk) as (a1 & a2 & H1 & H2 & Hlt).
    assert (a1 = a2) by (by eapply NoDup_lookup). lia.
  - intros k p. by apply (descends_root _ _ (issued st)).
Qed.

Lemma X11_table_is_forest_witness :
  ∃ st, reaches two_peaks neg_infinity 0 3%float (1, 1, 3) [2; 0; 1]%nat st ∧
        descends (items st) 1 2 ∧
        tree_inv (items st) (ancestor st) (issued st) ∧
        ¬ descends (items st) 2 2.
Proof.
  assert (∃ st, reaches two_peaks neg_infinity 0 3%float (1, 1, 3)
                        [2; 0; 1]%nat st ∧
                ∃ b, items st !! 2 = Some b ∧ children b = [1; 3])
    as (st & Hst & b & Hb & Hch).
  { eexists. split; [exists []; split; vm_compute; reflexivity|].
    eexists. split; vm_compute; reflexivity. }
  destruct (X11_table_is_forest two_peaks 2 (1, 1, 3) neg_infinity 0 3%float
              [2; 0; 1]%nat st) as (Ht & Hacyc & _);
    [reflexivity|reflexivity|done|].
  exists st. split; [done|]. split.
  - apply (descends_child _ 2 b 1); [done|]. rewrite Hch. set_solver.
  - split; [done|]. apply Hacyc.
Defined.



(** ** The structures that touch a voxel *)

Lemma replace_by_ancestor_root_of anc v r :
  replace_by_ancestor anc v = Ok r ↔ is_Some (anc !! v) ∧ root_of anc v = r.
Proof.
  rewrite replace_by_ancestor_Ok. unfold root_of.
  destruct (anc !! v) as [[p|]|]; split; naive_solver.
Qed.

Lemma find_adjacent_length `{PyRuntime} st c adjacent :
  find_adjacent st c = Ok adjacent → (length adjacent ≤ 6)%nat.
Proof.
  unfold find_adjacent. intros Hadj.
  apply bind_Ok in Hadj as (vals & Hvals & Hadj).
  apply bind_Ok in Hadj as (adj0 & Hadj0 & Hadj). injection Hadj as <-.
  apply list_comp_Ok, Forall2_length in Hvals.
  apply list_comp_Ok, Forall2_length in Hadj0.
  assert (length (indices_adjacent c) = 6%nat) as Hsix
    by (by destruct c as [[??]?]).
  pose proof (length_filter (λ v, v ≠ 0) vals) as Hf.
  assert (set_to_list adj0 ⊆+ adj0) as Hsub.
  { apply NoDup_submseteq; [apply set_to_list_NoDup|].
    intros x. by rewrite set_to_list_elem. }
  apply submseteq_length in Hsub. lia.
Qed.

(** X13. At every head of the main loop, for a voxel of the cube, the
    list [adjacent] of lines 102-111 is computed without a KeyError or
    an IndexError; it has no duplicates and at most six elements; it
    holds exactly the roots of the structures found at the six
    neighbours (the nonzero values of the index map there, each
    replaced by its ancestor when it has one); and each of its elements
    is a structure of the table without an ancestor. (The array has
    fewer than 2^31 cells.) *)
Theorem X13_adjacent_are_roots `{PyRuntime} (data : ndarray) (n : Z)
    (shape3 : coord) (minimum_flux : float) (minimum_npix : Z)
    (minimum_delta : float) (pre : list nat) (st : state) (c : coord) :
  well_formed data → recast data = Ok (n, shape3) →
  Z.of_nat (length (ravel data)) < 2 ^ 31 →
  reaches data minimum_flux minimum_npix minimum_delta shape3 pre st →
  in_cube shape3 c →
  ∃ adjacent,
    find_adjacent st c = Ok adjacent ∧
    NoDup adjacent ∧ (length adjacent ≤ 6)%nat ∧
    (∀ r, r ∈ adjacent ↔
          ∃ c' v, c' ∈ indices_adjacent c ∧
                  array_get (index_map st) c' = Ok v ∧ v ≠ 0 ∧
                  root_of (ancestor st) v = r) ∧
    (∀ r, r ∈ adjacent →
          ancestor st !! r = Some None ∧ is_Some (items st !! r)).
Proof.
  intros Hwf Hrc Hsize (post & Hord & Hrun) Hc.
  destruct (loop_head data n shape3 minimum_flux minimum_npix minimum_delta
              Hwf Hrc pre post st Hsize Hord Hrun) as (Hinv & Hlook & _).
  destruct (find_adjacent_total shape3 _ pre st c Hinv Hlook Hc)
    as (adjacent & Hadj & Hdom).
  exists adjacent. split; [done|].
  destruct (find_adjacent_Ok st c adjacent Hadj) as [Hnd Helem].
  split; [done|]. split; [by eapply find_adjacent_length|]. split.
  - intros r. rewrite Helem. split.
    + intros (c' & v & Hc' & Hv & Hv0 & Hr).
      apply replace_by_ancestor_root_of in Hr as [_ Hr]. eauto 10.
    + intros (c' & v & Hc' & Hv & Hv0 & Hr). exists c', v.
      split; [done|]. split; [done|]. split; [done|].
      apply replace_by_ancestor_root_of. split; [|done].
      unfold array_get in Hv. apply bind_Ok in Hv as (s & _ & Hv).
      injection Hv as Hv.
      destruct (cells (index_map st) !! s) as [v'|] eqn:Hcell;
        [|simpl in Hv; congruence].
      simpl in Hv. subst v'. by eapply look_root.
  - intros r Hr. split; [|by apply Hdom].
    by eapply (find_adjacent_roots st c adjacent (inv_flat _ _ _ _ Hinv)).
Qed.

Lemma X13_adjacent_are_roots_witness :
  ∃ st, reaches two_peaks neg_infinity 0 3%float (1, 1, 3) [2; 0]%nat st ∧
        ∃ adjacent,
          find_adjacent st (0, 0, 1) = Ok adjacent ∧
          NoDup adjacent ∧ (length adjacent ≤ 6)%nat ∧
          ∀ r, r ∈ adjacent →
               ancestor st !! r = Some None ∧ is_Some (items st !! r).
Proof.
  assert (∃ st, reaches two_peaks neg_infinity 0 3%float (1, 1, 3)
                        [2; 0]%nat st) as [st Hst].
  { eexists. exists [1%nat]. split; vm_compute; reflexivity. }
  exists st. split; [done|].
  destruct (X13_adjacent_are_roots two_peaks 2 (1, 1, 3) neg_infinity 0
              3%float [2; 0]%nat st (0, 0, 1))
    as (adjacent & Hadj & Hnd & Hlen & _ & Hroots);
    [reflexivity|reflexivity|vm_compute; reflexivity|done
    |unfold in_cube; simpl; lia|].
  exists adjacent. done.
Defined.

(** ** Two dimensions *)



(** ** Branches are final *)

Section Final.
Context `{PyRuntime}.
Variable shape3 : coord.
Variable coords : list coord.
Hypothesis coords_in_cube : ∀ c, c ∈ coords → in_cube shape3 c.
Hypothesis coords_NoDup : NoDup coords.

Lemma absorbs_keeps_branch pre st i c idx b0 ms its' im' anc' iss' k b :
  scan_inv shape3 coords pre st → owner_inv coords pre st →
  i ∉ pre → coords !! i = Some c →
  leaves_of (items st) ms → idx ∉ ms →
  (∀ it, items st !! idx = Some it →
         typ b0 = typ it ∧ idx_of b0 = idx_of it ∧ seed b0 = seed it ∧
         children b0 = children it ∧ voxels it `prefix_of` voxels b0) →
  absorbs st c idx b0 ms its' im' →
  items st !! k = Some b → typ b = Branch →
  branch_kept st {| index_map := im'; items := its'; ancestor := anc';
                    issued := iss' |} k b.
Proof.
  intros Hinv Hown Hi Hc Hleaves Hidx Hb0 Habs Hk Hty.
  assert (in_cube shape3 c) as Hcube
    by (by eapply coords_in_cube, list_elem_of_lookup_2).
  pose proof (absorbs_cells shape3 coords coords_in_cube _ _ _ _ _ _ _ _
                Hinv Hcube Hleaves Hidx Habs) as Hcells.
  destruct (absorbs_Ok _ _ _ _ _ _ _ Hleaves Hidx Habs)
    as (_ & _ & _ & Hkeep & (b1 & Hb1 & Hty1 & Hid1 & Hseed1 & Hch1 & Hvox1)
        & _).
  assert (k ∉ ms) as Hkm.
  { intros Hin. destruct Hleaves as [_ Hleaves].
    destruct (Hleaves k Hin) as (r & Hr & Hleaf). congruence. }
  split; simpl.
  - destruct (decide (k = idx)) as [->|Hki].
    + destruct (Hb0 b Hk) as (Ht0 & Hi0 & Hs0 & Hc0 & Hp0).
      exists b1. split; [done|]. split; [congruence|]. split; [congruence|].
      split; [congruence|]. split; [congruence|].
      rewrite Hvox1. by apply prefix_app_r.
    + exists b. rewrite Hkeep by done. done.
  - intros s Hs. rewrite Hcells. rewrite decide_False; [done|].
    intros [->|Hin].
    + eapply (unprocessed coords coords_NoDup pre i c); [done..|].
      by eapply (inv_cells _ _ _ _ Hinv).
    + apply elem_of_voxels_of in Hin as (m & r & Hm & Hr & Hsr).
      pose proof (own_voxels _ _ _ Hown m r s Hr Hsr). congruence.
Qed.

Variable flux_values : list float.
Variable minimum_npix : Z.
Variable minimum_delta : float.

(** One iteration keeps every branch. *)
Lemma step_keeps_branch pre st i st' k b :
  scan_inv shape3 coords pre st → owner_inv coords pre st → i ∉ pre →
  step flux_values coords minimum_npix minimum_delta st i = Ok st' →
  items st !! k = Some b → typ b = Branch →
  branch_kept st st' k b.
Proof.
  intros Hinv Hown Hi (flux & c & adjacent & Hf & Hc & Hadj & Hout)%step_outcome
    Hk Hty.
  apply find_adjacent_Ok in Hadj as [Hnd _].
  destruct (inv_fresh shape3 coords pre st i Hinv Hi) as [Hfa Hfi].
  apply outcome_kinds in Hout
    as [[_ Hl]|[(idx & ms & Hj & _ & _ & Hidx & Hleaves)|
                (sig & ms & Hb & _ & _ & _ & _ & _ & Hleaves)]]; [| | |done].
  - destruct Hl as (im & Hset & ->).
    eapply (absorbs_keeps_branch pre st i c (Z.of_nat i + 1)
              (new_Leaf c.2 c.1.2 c.1.1 flux (Z.of_nat i + 1)) []); try done.
    + apply leaves_of_nil.
    + set_solver.
    + intros it. by rewrite Hfi.
    + by exists im.
  - destruct Hj as (it & im0 & its & im & Hit & Hset & Hloop & ->).
    eapply (absorbs_keeps_branch pre st i c idx
              (add_point it c.2 c.1.2 c.1.1 flux) ms); try done.
    + intros it'. rewrite Hit. intros [= <-]. simpl.
      repeat (split; [done|]). by apply prefix_app_r.
    + by exists im0.
  - destruct Hb as (im0 & its & im & Hsig & Hset & Hloop & ->).
    eapply (absorbs_keeps_branch pre st i c (Z.of_nat i + 1)
              (new_Branch sig c.2 c.1.2 c.1.1 flux (Z.of_nat i + 1)) ms);
      try done.
    + intros Hin. destruct Hleaves as [_ Hleaves].
      destruct (Hleaves _ Hin) as (r & Hr & _). congruence.
    + intros it. by rewrite Hfi.
    + by exists im0.
Qed.
End Final.

Lemma branch_kept_refl st k b :
  items st !! k = Some b → typ b = Branch → branch_kept st st k b.
Proof. intros Hk Hty. split; [|done]. exists b. done. Qed.

Lemma branch_kept_trans st1 st2 st3 k b b2 :
  branch_kept st1 st2 k b → items st2 !! k = Some b2 →
  branch_kept st2 st3 k b2 → branch_kept st1 st3 k b.
Proof.
  intros [(b2' & Hb2 & Hty2 & Hid2 & Hs2 & Hc2 & Hp2) Hcell2] Hk2
    [(b3 & Hb3 & Hty3 & Hid3 & Hs3 & Hc3 & Hp3) Hcell3].
  assert (b2' = b2) as -> by congruence.
  split; [|by auto].
  exists b3. split; [done|]. split; [done|]. split; [congruence|].
  split; [congruence|]. split; [congruence|]. by etrans.
Qed.

(** X15. A Branch is final. Once Step 1 has created a branch, no
    later iteration removes it from the table, and its id, its seed and
    its list of children never change again; the voxels it owns stay
    its own (it can only gain voxels), and the index map keeps its id
    at every voxel where it held it. Only leaves are ever merged away
    (lines 155-160, 187, 215, 246). (The array has fewer than 2^31
    cells.) *)
Theorem X15_branches_are_final `{PyRuntime} (data : ndarray) (n : Z)
    (shape3 : coord) (minimum_flux : float) (minimum_npix : Z)
    (minimum_delta : float) (pre more post : list nat) (st st' : state)
    (k : Z) (b : item) :
  let flux_values := flux_values_of data minimum_flux in
  let coords := coords_of shape3 data minimum_flux in
  well_formed data → recast data = Ok (n, shape3) →
  Z.of_nat (length (ravel data)) < 2 ^ 31 →
  scan_order flux_values = pre ++ more ++ post →
  scan_from flux_values coords minimum_npix minimum_delta
            (initial_state shape3) pre = Ok st →
  scan_from flux_values coords minimum_npix minimum_delta st more = Ok st' →
  items st !! k = Some b → typ b = Branch →
  branch_kept st st' k b.
Proof.
  intros flux_values coords Hwf Hrc Hsize Hord Hrun Hmore Hk Hty.
  pose proof (coords_of_in_cube data n shape3 minimum_flux Hwf Hrc) as Hcube.
  pose proof (coords_of_NoDup data n shape3 minimum_flux Hwf Hrc) as Hcnd.
  fold coords in Hcube, Hcnd.
  apply (for_each_ind (λ done_ st1,
    scan_from flux_values coords minimum_npix minimum_delta
              (initial_state shape3) (pre ++ done_) = Ok st1 ∧
    branch_kept st st1 k b)) in Hmore; [by destruct Hmore| |].
  - rewrite app_nil_r. split; [done|by apply branch_kept_refl].
  - intros done_ i rest st1 st2 Hsplit [Hrun1 Hkept] Hstep.
    assert (scan_order flux_values = (pre ++ done_) ++ i :: rest ++ post)
      as Hord1.
    { rewrite Hord, Hsplit. by rewrite <- !app_assoc. }
    destruct (loop_head data n shape3 minimum_flux minimum_npix minimum_delta
                Hwf Hrc (pre ++ done_) (i :: rest ++ post) st1 Hsize Hord1
                Hrun1) as (Hinv & _ & Hown).
    destruct (scan_order_next data shape3 minimum_flux (pre ++ done_) i
                (rest ++ post) Hord1) as [Hi _].
    split.
    + rewrite app_assoc. apply for_each_snoc. by exists st1.
    + destruct Hkept as [(b1 & Hb1 & Hty1 & Hrest) Hcell].
      eapply (branch_kept_trans st st1 st2 k b b1); [|done|].
      * split; [|done]. by exists b1.
      * by eapply (step_keeps_branch shape3 coords Hcube Hcnd flux_values
                     minimum_npix minimum_delta (pre ++ done_) st1 i st2).
Qed.

Lemma X15_branches_are_final_witness :
  ∃ st st' b,
    scan_from (flux_values_of peaks_and_foot neg_infinity)
              (coords_of (1, 1, 4) peaks_and_foot neg_infinity) 0 0%float
              (initial_state (1, 1, 4)) [2; 0; 1]%nat = Ok st ∧
    scan_from (flux_values_of peaks_and_foot neg_infinity)
              (coords_of (1, 1, 4) peaks_and_foot neg_infinity) 0 0%float
              st [3%nat] = Ok st' ∧
    items st !! 2 = Some b ∧ typ b = Branch ∧
    branch_kept st st' 2 b.
Proof.
  assert (∃ st st' b,
    scan_from (flux_values_of peaks_and_foot neg_infinity)
              (coords_of (1, 1, 4) peaks_and_foot neg_infinity) 0 0%float
              (initial_state (1, 1, 4)) [2; 0; 1]%nat = Ok st ∧
    scan_from (flux_values_of peaks_and_foot neg_infinity)
              (coords_of (1, 1, 4) peaks_and_foot neg_infinity) 0 0%float
              st [3%nat] = Ok st' ∧
    items st !! 2 = Some b ∧ typ b = Branch)
    as (st & st' & b & Hst & Hst' & Hb & Hty).
  { eexists. eexists. eexists. split; [vm_compute; reflexivity|].
    split; [vm_compute; reflexivity|].
    split; vm_compute; reflexivity. }
  exists st, st', b. split; [done|]. split; [done|]. split; [done|].
  split; [done|].
  apply (X15_branches_are_final peaks_and_foot 2 (1, 1, 4) neg_infinity 0
           0%float [2; 0; 1]%nat [3%nat] [] st st' 2 b);
    [reflexivity|reflexivity|vm_compute; reflexivity|vm_compute; reflexivity
    |done|done|done|done].
Defined.
